(** * LCNAF MARC reconciliation: the engine of [web-reconcile/src/marc.js]

    A shallow embedding of the reconciliation engine (name normalisation,
    candidate resolution, the binary ISO 2709 codec and the processing
    pipeline) together with the properties its specification states.

    Conventions of the embedding.
    - A JavaScript string is the list of its UTF-16 code units ([jsstring]).
    - A [Uint8Array] is a list of bytes, each a number below 256; where the
      source builds one from arbitrary numbers the wrap-around is explicit.
    - A JavaScript number that may be [NaN] is an [option Z] ([None] is NaN);
      every number met here has at most five decimal digits, so integer
      arithmetic is exact.
    - [null] and [undefined] results are [None]. *)

From Stdlib Require Import List NArith ZArith Lia Bool String Ascii.
From Stdlib Require Import Permutation Sorting.Sorted.
Import ListNotations.

Open Scope N_scope.

(** ** JavaScript strings *)

Definition jsstring := list N.

(** A byte is a number below 256. *)
Abbreviation byte := N (only parsing).

(** Literals: the code units of an ASCII string. *)
Definition js (s : string) : jsstring :=
  map N_of_ascii (list_ascii_of_string s).

Definition in_range (lo hi c : N) : bool := (lo <=? c) && (c <=? hi).

Definition is_ascii (c : N) : bool := c <? 128.
Definition is_digit (c : N) : bool := in_range 48 57 c.
Definition is_lower (c : N) : bool := in_range 97 122 c.
Definition is_upper (c : N) : bool := in_range 65 90 c.

Fixpoint jsstring_eqb (a b : jsstring) : bool :=
  match a, b with
  | [], [] => true
  | x :: a', y :: b' => (x =? y) && jsstring_eqb a' b'
  | _, _ => false
  end.

(** The character class that [normalizeString] strips first: the 32 ASCII
    punctuation characters (code 34 is the double quote). *)
Definition punctuation : jsstring :=
  js "!" ++ [34] ++ js "#$%&'()*+,-./:;<=>?@[\]^_`{|}~".

Definition is_punctuation (c : N) : bool := existsb (N.eqb c) punctuation.

(** The regular expression class [\s], which is also what [trim] strips:
    WhiteSpace and LineTerminator of ECMAScript. *)
Definition is_whitespace (c : N) : bool :=
  in_range 9 13 c || (c =? 32) || (c =? 160) || (c =? 5760)
  || in_range 8192 8202 c || (c =? 8232) || (c =? 8233) || (c =? 8239)
  || (c =? 8287) || (c =? 12288) || (c =? 65279).

(** [String.prototype.trim]. *)
Fixpoint trimStart (s : jsstring) : jsstring :=
  match s with
  | c :: s' => if is_whitespace c then trimStart s' else s
  | [] => []
  end.

Definition trim (s : jsstring) : jsstring :=
  rev (trimStart (rev (trimStart s))).

(** [String(n)] for a non-negative integer below 2^53 (a safe integer): its
    decimal digits, most significant first, no leading zero. *)
Definition MAX_SAFE_INTEGER : N := 9007199254740991.

Fixpoint digits_fuel (fuel : nat) (n : N) (acc : jsstring) : jsstring :=
  match fuel with
  | O => acc
  | S fuel' =>
      let acc' := (48 + n mod 10) :: acc in
      if n <? 10 then acc' else digits_fuel fuel' (n / 10) acc'
  end.

Definition String_of_N (n : N) : jsstring :=
  digits_fuel (S (N.to_nat (N.log2 n))) n [].

(** [padStart] and [padEnd] with a one-character filler. *)
Definition padStart (width : nat) (fill : N) (s : jsstring) : jsstring :=
  repeat fill (width - List.length s) ++ s.

Definition padEnd (width : nat) (fill : N) (s : jsstring) : jsstring :=
  s ++ repeat fill (width - List.length s).

(** [s.substring(a, b)] for constants [0 <= a <= b]. *)
Definition substring (a b : nat) (s : jsstring) : jsstring :=
  firstn (b - a) (skipn a s).

(** [s.substring(a)]. *)
Definition substring_from (a : nat) (s : jsstring) : jsstring := skipn a s.

(** ** Unicode data of the platform

    [normalize('NFKD')] and [toLowerCase] are functions of the JavaScript
    engine, driven by the Unicode character database.  The database is taken
    as a parameter: the full compatibility decomposition of each code point,
    its canonical combining class, and the lower-casing of a string, with the
    facts about ASCII that the engine guarantees. *)

Definition ascii_lower (c : N) : N := if is_upper c then c + 32 else c.

Class UnicodeData := {
  decomposition : N -> list N;
  combining_class : N -> N;
  toLowerCase : jsstring -> jsstring;
  decomposition_ascii : forall c, c < 128 -> decomposition c = [c];
  combining_class_ascii : forall c, c < 128 -> combining_class c = 0;
  toLowerCase_ascii :
    forall s, forallb is_ascii s = true -> toLowerCase s = map ascii_lower s
}.

(** The database restricted to ASCII, where every other character is left
    alone: enough to run the engine on ASCII input. *)
Definition ascii_toLowerCase (s : jsstring) : jsstring := map ascii_lower s.

Definition ascii_unicode : UnicodeData :=
  {| decomposition := fun c => [c];
     combining_class := fun _ => 0;
     toLowerCase := ascii_toLowerCase;
     decomposition_ascii := fun _ _ => eq_refl;
     combining_class_ascii := fun _ _ => eq_refl;
     toLowerCase_ascii := fun _ _ => eq_refl |}.

(** ** UTF-16 *)

Definition is_high_surrogate (c : N) : bool := in_range 55296 56319 c.
Definition is_low_surrogate (c : N) : bool := in_range 56320 57343 c.
Definition is_surrogate (c : N) : bool := in_range 55296 57343 c.

(** The code points of a string; an unpaired surrogate stands for itself.
    [pending] is a high surrogate that waits for its low half. *)
Definition surrogate_pair (h l : N) : N :=
  65536 + (h - 55296) * 1024 + (l - 56320).

Fixpoint code_points_from (pending : option N) (s : jsstring) : list N :=
  match s with
  | [] => match pending with Some h => [h] | None => [] end
  | c :: s' =>
      match pending with
      | Some h =>
          if is_low_surrogate c
          then surrogate_pair h c :: code_points_from None s'
          else h :: (if is_high_surrogate c
                     then code_points_from (Some c) s'
                     else c :: code_points_from None s')
      | None =>
          if is_high_surrogate c
          then code_points_from (Some c) s'
          else c :: code_points_from None s'
      end
  end.

Definition code_points (s : jsstring) : list N := code_points_from None s.

Definition utf16_units (cp : N) : jsstring :=
  if cp <? 65536 then [cp]
  else [55296 + (cp - 65536) / 1024; 56320 + (cp - 65536) mod 1024].

Definition utf16_encode (cps : list N) : jsstring := flat_map utf16_units cps.

(** A string is well formed when it has no unpaired surrogate. *)
Definition well_formed (s : jsstring) : bool :=
  forallb (fun cp => negb (is_surrogate cp)) (code_points s).

(** ** NameNormalizer: [normalizeString] *)

(** [Array.prototype.sort] without a comparator, on one-character strings:
    ascending code units. *)
Fixpoint insert_sorted (c : N) (l : list N) : list N :=
  match l with
  | [] => [c]
  | x :: l' => if c <=? x then c :: l else x :: insert_sorted c l'
  end.

Definition sort_chars (l : list N) : list N := fold_right insert_sorted [] l.

(** [s.match(re).index] for a one-character class: the first position whose
    character is in the class. *)
Fixpoint search (p : N -> bool) (s : jsstring) : option nat :=
  match s with
  | [] => None
  | c :: s' => if p c then Some O else option_map S (search p s')
  end.

Section Normalizer.
Context {U : UnicodeData}.

(** Canonical ordering: a character with a non-zero combining class moves
    in front of the characters of greater class that precede it.  [racc] is
    the part already ordered, last character first. *)
Fixpoint reorder_insert (c : N) (racc : list N) : list N :=
  match racc with
  | r :: rs =>
      if (0 <? combining_class c) && (combining_class c <? combining_class r)
      then r :: reorder_insert c rs
      else c :: racc
  | [] => [c]
  end.

Definition canonical_order (l : list N) : list N :=
  rev (fold_left (fun racc c => reorder_insert c racc) l []).

(** [s.normalize('NFKD')]. *)
Definition normalize_NFKD (s : jsstring) : jsstring :=
  utf16_encode (canonical_order (flat_map decomposition (code_points s))).

Definition normalizeString (str : jsstring) : jsstring :=
  let norm := filter (fun c => negb (is_punctuation c)) str in
  let norm := filter is_ascii (normalize_NFKD norm) in
  let norm := toLowerCase norm in
  let norm := filter (fun c => negb (is_whitespace c)) norm in
  let norm := sort_chars norm in
  match search is_lower norm with
  | Some firstLetterIndex =>
      let firstPart := substring 0 firstLetterIndex norm in
      let secondPart := substring_from firstLetterIndex norm in
      secondPart ++ firstPart
  | None => norm
  end.
End Normalizer.

(** ** Subfield containers

    [field.subfields] is a plain object: a code maps to one string, or to an
    array of strings once the code has occurred twice.  The object is kept as
    the list of its entries in the order [Object.entries] enumerates them:
    keys that are array indices first, ascending, then the other keys in the
    order of their creation. *)

Inductive sfvalue :=
| SStr (s : jsstring)
| SArr (l : list jsstring).

Definition object := list (jsstring * sfvalue).

Definition decimal_value (s : jsstring) : N :=
  fold_left (fun acc c => 10 * acc + (c - 48)) s 0.

(** A key is an array index when it is the canonical decimal form of an
    integer below 2^32 - 1. *)
Definition array_index (k : jsstring) : option N :=
  match k with
  | [] => None
  | c :: k' =>
      if forallb is_digit k
         && implb (c =? 48) (match k' with [] => true | _ => false end)
         && (Nat.leb (List.length k) 10)
         && (decimal_value k <? 4294967295)
      then Some (decimal_value k)
      else None
  end.

Fixpoint obj_get (o : object) (k : jsstring) : option sfvalue :=
  match o with
  | [] => None
  | (k', v) :: o' => if jsstring_eqb k' k then Some v else obj_get o' k
  end.

Fixpoint obj_replace (o : object) (k : jsstring) (v : sfvalue) : object :=
  match o with
  | [] => []
  | (k', v') :: o' =>
      if jsstring_eqb k' k then (k', v) :: o' else (k', v') :: obj_replace o' k v
  end.

(** A new index key goes before the first key that is not an index or is a
    greater index. *)
Fixpoint obj_insert_index (o : object) (i : N) (k : jsstring) (v : sfvalue)
  : object :=
  match o with
  | [] => [(k, v)]
  | (k', v') :: o' =>
      match array_index k' with
      | Some j => if j <? i then (k', v') :: obj_insert_index o' i k v
                  else (k, v) :: o
      | None => (k, v) :: o
      end
  end.

(** [o[k] = v]. *)
Definition obj_set (o : object) (k : jsstring) (v : sfvalue) : object :=
  match obj_get o k with
  | Some _ => obj_replace o k v
  | None =>
      match array_index k with
      | Some i => obj_insert_index o i k v
      | None => o ++ [(k, v)]
      end
  end.

(** Truthiness of [o[k]]: [undefined] and the empty string are falsy, an
    array is truthy. *)
Definition truthy (v : option sfvalue) : bool :=
  match v with
  | None | Some (SStr []) => false
  | Some _ => true
  end.

Definition values_of (v : sfvalue) : list jsstring :=
  match v with
  | SStr s => [s]
  | SArr l => l
  end.

(** [Array.prototype.join] on strings. *)
Fixpoint join (sep : jsstring) (parts : list jsstring) : jsstring :=
  match parts with
  | [] => []
  | [p] => p
  | p :: rest => p ++ sep ++ join sep rest
  end.

(** [ToString] of an element that [join] meets: an array prints as its
    elements separated by commas. *)
Definition toString (v : sfvalue) : jsstring :=
  match v with
  | SStr s => s
  | SArr l => join (js ",") l
  end.

(** ** [extractNameFromSubfields] *)

Definition name_subfield_order : list jsstring :=
  [js "a"; js "b"; js "c"; js "q"; js "d"; js "g"].

Definition extractNameFromSubfields (subfields : object) : jsstring :=
  let parts :=
    flat_map (fun code =>
                match obj_get subfields code with
                | Some v => if truthy (Some v) then [v] else []
                | None => []
                end) name_subfield_order in
  trim (join (js " ") (map toString parts)).

(** ** [convertLCCN] and [createLCCNUri] *)

Definition prefixMap : list (jsstring * jsstring) :=
  [(js "1", js "nb"); (js "2", js "nn"); (js "3", js "no");
   (js "4", js "nr"); (js "5", js "ns"); (js "6", js "n")].

Fixpoint assoc (m : list (jsstring * jsstring)) (k : jsstring)
  : option jsstring :=
  match m with
  | [] => None
  | (k', v) :: m' => if jsstring_eqb k' k then Some v else assoc m' k
  end.

Definition nonempty (s : jsstring) : bool :=
  match s with [] => false | _ => true end.

Definition convertLCCN (numericLccn : N) : option jsstring :=
  let lccnStr := String_of_N numericLccn in
  let firstDigit := firstn 1 lccnStr in
  match assoc prefixMap firstDigit with
  | Some prefix =>
      if nonempty prefix then Some (prefix ++ substring_from 1 lccnStr)
      else None
  | None => None
  end.

Definition LCCN_URI_BASE : jsstring := js "http://id.loc.gov/authorities/names/".

Definition createLCCNUri (numericLccn : N) : option jsstring :=
  match convertLCCN numericLccn with
  | Some converted =>
      if nonempty converted then Some (LCCN_URI_BASE ++ converted) else None
  | None => None
  end.

(** ** [levenshteinDistance] *)

Definition min3 (a b c : N) : N := N.min (N.min a b) c.

(** Row [i] of the matrix from column 1 on: [above] is row [i-1] from the
    column before the current one, [left] is the cell just filled. *)
Fixpoint fill_row (c1 : N) (str2 : jsstring) (above : list N) (left : N)
  : list N :=
  match str2, above with
  | c2 :: str2', diag :: ((up :: _) as above') =>
      let cost := if c1 =? c2 then 0 else 1 in
      let cell := min3 (up + 1) (left + 1) (diag + cost) in
      cell :: fill_row c1 str2' above' cell
  | _, _ => []
  end.

Fixpoint fill_matrix (str1 str2 : jsstring) (i : N) (above : list N)
  : list (list N) :=
  match str1 with
  | [] => []
  | c1 :: str1' =>
      let row := i :: fill_row c1 str2 above i in
      row :: fill_matrix str1' str2 (i + 1) row
  end.

Definition levenshteinDistance (str1 str2 : jsstring) : N :=
  let len1 := List.length str1 in
  let len2 := List.length str2 in
  let row0 := map N.of_nat (seq 0 (S len2)) in
  let matrix := row0 :: fill_matrix str1 str2 1 row0 in
  nth len2 (nth len1 matrix []) 0.

(** ** [findBestLCCNMatch] *)

Definition MAX_LEVENSHTEIN_DISTANCE : N := 10.

(** What the candidate table holds for an entry: one number, or an array of
    [[lccn, label]] pairs. *)
Inductive lccnData :=
| Single (value : N)
| Candidates (items : list (N * jsstring)).

Record Match := {
  lccn : N;
  label : option jsstring;
  distance : N
}.

Definition lt_best (d : N) (bestDistance : option N) : bool :=
  match bestDistance with
  | None => true
  | Some b => d <? b
  end.

Section Resolver.
Context {U : UnicodeData}.

(** [s.toLowerCase().replace(/[^a-z0-9]/g, '')]. *)
Definition normalize_for_distance (s : jsstring) : jsstring :=
  filter (fun c => is_lower c || is_digit c) (toLowerCase s).

(** The loop over the candidates; [bestDistance] starts at [Infinity],
    here [None]. *)
Fixpoint best_loop (normalizedInput : jsstring) (items : list (N * jsstring))
    (bestMatch : option Match) (bestDistance : option N) : option Match :=
  match items with
  | [] => bestMatch
  | (lccn, label) :: items' =>
      let normalizedLabel := normalize_for_distance label in
      let distance := levenshteinDistance normalizedInput normalizedLabel in
      if lt_best distance bestDistance
      then best_loop normalizedInput items'
             (Some {| lccn := lccn; label := Some label;
                      distance := distance |})
             (Some distance)
      else best_loop normalizedInput items' bestMatch bestDistance
  end.

Definition findBestLCCNMatch (originalName : jsstring) (data : lccnData)
  : option Match :=
  match data with
  | Single value => Some {| lccn := value; label := None; distance := 0 |}
  | Candidates items =>
      let normalizedInput := normalize_for_distance originalName in
      best_loop normalizedInput items None None
  end.
End Resolver.

(** ** Text encoding: [TextDecoder('utf-8')] and [TextEncoder] *)

(** The UTF-8 decoder of the Encoding standard.  Between characters the
    decoder is [Initial]; inside a multi-byte sequence it holds the bits read
    so far, the number of bytes still needed and the range allowed for the
    next byte. *)
Inductive utf8_state :=
| Initial
| Pending (cp : N) (needed : nat) (lower upper : N).

Definition utf8_lead (b : N) : list N * utf8_state :=
  if b <=? 127 then ([b], Initial)
  else if in_range 194 223 b then ([], Pending (N.land b 31) 1 128 191)
  else if in_range 224 239 b then
    ([], Pending (N.land b 15) 2
           (if b =? 224 then 160 else 128) (if b =? 237 then 159 else 191))
  else if in_range 240 244 b then
    ([], Pending (N.land b 7) 3
           (if b =? 240 then 144 else 128) (if b =? 244 then 143 else 191))
  else ([65533], Initial).

(** A byte outside the allowed range ends the sequence with U+FFFD and is
    then read again as the start of a new character. *)
Fixpoint utf8_decode_from (st : utf8_state) (bytes : list byte) : list N :=
  match bytes with
  | [] => match st with Initial => [] | Pending _ _ _ _ => [65533] end
  | b :: rest =>
      match st with
      | Initial =>
          let (out, st') := utf8_lead b in out ++ utf8_decode_from st' rest
      | Pending cp needed lower upper =>
          if in_range lower upper b then
            let cp' := N.lor (N.shiftl cp 6) (N.land b 63) in
            match needed with
            | S (S n) => utf8_decode_from (Pending cp' (S n) 128 191) rest
            | _ => cp' :: utf8_decode_from Initial rest
            end
          else
            65533 :: (let (out, st') := utf8_lead b in
                      out ++ utf8_decode_from st' rest)
      end
  end.

(** [decoder.decode(bytes)]: a leading byte order mark is dropped. *)
Definition drop_bom (cps : list N) : list N :=
  match cps with
  | 65279 :: cps' => cps'
  | _ => cps
  end.

Definition decode (bytes : list byte) : jsstring :=
  utf16_encode (drop_bom (utf8_decode_from Initial bytes)).

Definition utf8_bytes (cp : N) : list byte :=
  if cp <? 128 then [cp]
  else if cp <? 2048 then [192 + cp / 64; 128 + cp mod 64]
  else if cp <? 65536 then
    [224 + cp / 4096; 128 + (cp / 64) mod 64; 128 + cp mod 64]
  else [240 + cp / 262144; 128 + (cp / 4096) mod 64;
        128 + (cp / 64) mod 64; 128 + cp mod 64].

(** [encoder.encode(s)]: an unpaired surrogate is written as U+FFFD. *)
Definition encode (s : jsstring) : list byte :=
  flat_map (fun cp => utf8_bytes (if is_surrogate cp then 65533 else cp))
           (code_points s).

(** ** Numbers and typed arrays *)

Fixpoint take_while (p : N -> bool) (s : list N) : list N :=
  match s with
  | c :: s' => if p c then c :: take_while p s' else []
  | [] => []
  end.

(** [parseInt(s, 10)]: leading white space and one sign are skipped, the
    longest run of digits is read; no digit gives [NaN]. *)
Definition parseInt (s : jsstring) : option Z :=
  let s := trimStart s in
  let '(sign, s) := match s with
                    | 45 :: r => ((-1)%Z, r)
                    | 43 :: r => (1%Z, r)
                    | _ => (1%Z, s)
                    end in
  match take_while is_digit s with
  | [] => None
  | ds => Some (sign * Z.of_N (decimal_value ds))%Z
  end.

(** Arithmetic that propagates [NaN]. *)
Definition num_add (a b : option Z) : option Z :=
  match a, b with
  | Some x, Some y => Some (x + y)%Z
  | _, _ => None
  end.

Definition num_lt (a b : option Z) : bool :=
  match a, b with
  | Some x, Some y => (x <? y)%Z
  | _, _ => false
  end.

(** [ToIntegerOrInfinity] on these numbers, then the clamping of a relative
    index into [0, len]. *)
Definition to_integer (x : option Z) : Z :=
  match x with Some z => z | None => 0%Z end.

Definition relative_index (len k : Z) : Z :=
  if (k <? 0)%Z then Z.max (len + k) 0 else Z.min k len.

(** [data.slice(start, end)]. *)
Definition slice (data : list byte) (start end_ : option Z) : list byte :=
  let len := Z.of_nat (List.length data) in
  let k := relative_index len (to_integer start) in
  let final := relative_index len (to_integer end_) in
  firstn (Z.to_nat (final - k)) (skipn (Z.to_nat k) data).

(** [data.slice(start)]. *)
Definition slice_from (data : list byte) (start : Z) : list byte :=
  let len := Z.of_nat (List.length data) in
  skipn (Z.to_nat (relative_index len start)) data.

(** [target.set(source, offset)]; [None] is the [RangeError] raised when the
    source does not fit. *)
Definition typed_set (target source : list byte) (offset : nat)
  : option (list byte) :=
  if Nat.leb (List.length source + offset) (List.length target)
  then Some (firstn offset target ++ source
               ++ skipn (offset + List.length source) target)
  else None.

(** [new Uint8Array(numbers)]: each number is reduced modulo 256. *)
Definition Uint8Array_from (parts : list N) : list byte :=
  map (fun x => x mod 256) parts.

(** [String.fromCharCode(data[i])]; reading past the end gives [undefined],
    whose character is NUL. *)
Definition fromCharCode (b : option byte) : jsstring :=
  match b with
  | Some x => [x mod 65536]
  | None => [0]
  end.

(** [s.charCodeAt(0)] as stored into a byte array ([NaN] is stored as 0). *)
Definition charCodeAt0 (s : jsstring) : N := hd 0 s.

Definition starts_with_00 (tag : jsstring) : bool :=
  match tag with
  | 48 :: 48 :: _ => true
  | _ => false
  end.

(** ** The record model *)

Definition RECORD_TERMINATOR : byte := 29.
Definition FIELD_TERMINATOR : byte := 30.
Definition SUBFIELD_DELIMITER : byte := 31.

(** The [subfield] children of a MARCXML [datafield] element: the [code]
    attribute and the text of each. *)
Definition Element := list (option jsstring * jsstring).

(** A control field has [data]; a data field has the indicators, the
    subfields and (in the binary format) the raw bytes. *)
Inductive FieldBody :=
| ControlField (data : jsstring)
| DataField (ind1 ind2 : jsstring) (subfields : object) (rawData : list byte).

(** [offset] and [flength] are the [offset] and [length] that the binary
    parser records; [element] is the handle a MARCXML field keeps. *)
Record Field := {
  tag : jsstring;
  offset : option Z;
  flength : option Z;
  body : FieldBody;
  element : option Element
}.

Record MarcRecord := {
  startOffset : Z;
  endOffset : Z;
  leader : jsstring;
  fields : list Field;
  recordData : list byte
}.

Definition field_subfields (f : Field) : option object :=
  match body f with
  | DataField _ _ subfields _ => Some subfields
  | ControlField _ => None
  end.

Definition set_subfields (f : Field) (subfields : object) : Field :=
  match body f with
  | DataField ind1 ind2 _ rawData =>
      {| tag := tag f; offset := offset f; flength := flength f;
         body := DataField ind1 ind2 subfields rawData;
         element := element f |}
  | ControlField _ => f
  end.

(** What a field says, apart from where it was found: the tag and either the
    data or the indicators and subfields. *)
Inductive FieldContent :=
| ControlContent (tag data : jsstring)
| DataContent (tag ind1 ind2 : jsstring) (subfields : object).

Definition field_content (f : Field) : FieldContent :=
  match body f with
  | ControlField data => ControlContent (tag f) data
  | DataField ind1 ind2 subfields _ => DataContent (tag f) ind1 ind2 subfields
  end.

Definition record_content (r : MarcRecord) : list FieldContent :=
  map field_content (fields r).

(** ** BinaryMARCParser *)

Module BinaryMARCParser.

(** The parser object: the bytes it was built on and the records parsed so
    far. *)
Record Parser := {
  data : list byte;
  records : list MarcRecord
}.

Definition new (arrayBuffer : list byte) : Parser :=
  {| data := arrayBuffer; records := [] |}.

(** One more value under [code]: the first value is stored as a string,
    the second turns the entry into an array, later ones are pushed.  An
    empty string already stored is falsy and is overwritten. *)
Definition add_subfield (subfields : object) (code value : jsstring)
  : object :=
  match obj_get subfields code with
  | Some (SStr (c :: s)) => obj_set subfields code (SArr [c :: s; value])
  | Some (SArr l) => obj_set subfields code (SArr (l ++ [value]))
  | Some (SStr []) | None => obj_set subfields code (SStr value)
  end.

(** The inner loop of [parseSubfields]: the bytes of a value, up to the
    next delimiter or terminator, and what follows them. *)
Fixpoint scan_value (bytes : list byte) : list byte * list byte :=
  match bytes with
  | b :: rest =>
      if (b =? SUBFIELD_DELIMITER) || (b =? FIELD_TERMINATOR)
      then ([], bytes)
      else let (v, after) := scan_value rest in (b :: v, after)
  | [] => ([], [])
  end.

(** The outer loop; [bytes] is [data] from index [i] on.  Every turn
    consumes a byte, so [fuel] is the number of bytes. *)
Fixpoint parseSubfields_loop (fuel : nat) (bytes : list byte)
    (subfields : object) : object :=
  match fuel with
  | O => subfields
  | S fuel' =>
      match bytes with
      | [] => subfields
      | b :: rest =>
          if b =? SUBFIELD_DELIMITER then
            let code := fromCharCode (hd_error rest) in
            let (valueBytes, after) := scan_value (tl rest) in
            let value := decode valueBytes in
            parseSubfields_loop fuel' after (add_subfield subfields code value)
          else parseSubfields_loop fuel' rest subfields
      end
  end.

Definition parseSubfields (bytes : list byte) : object :=
  parseSubfields_loop (List.length bytes) bytes [].

Definition is_directory_end (tag : jsstring) : bool :=
  jsstring_eqb tag [FIELD_TERMINATOR] || jsstring_eqb tag [].

(** One directory entry at [directoryOffset]: [None] when the entry ends
    the directory. *)
Definition parseField (data : list byte) (startOffset : Z)
    (baseAddress : option Z) (directoryOffset : Z) : option Field :=
  let tag := decode (slice data (Some directoryOffset)
                                (Some (directoryOffset + 3)%Z)) in
  let fieldLength :=
    parseInt (decode (slice data (Some (directoryOffset + 3)%Z)
                                 (Some (directoryOffset + 7)%Z))) in
  let fieldStart :=
    parseInt (decode (slice data (Some (directoryOffset + 7)%Z)
                                 (Some (directoryOffset + 12)%Z))) in
  if is_directory_end tag then None
  else
    let fieldDataOffset :=
      num_add (num_add (Some startOffset) baseAddress) fieldStart in
    let fieldData :=
      slice data fieldDataOffset
            (num_add (num_add fieldDataOffset fieldLength) (Some (-1)%Z)) in
    Some {| tag := tag;
            offset := fieldDataOffset;
            flength := fieldLength;
            body :=
              if starts_with_00 tag then ControlField (decode fieldData)
              else DataField (fromCharCode (nth_error fieldData 0))
                             (fromCharCode (nth_error fieldData 1))
                             (parseSubfields (slice_from fieldData 2))
                             fieldData;
            element := None |}.

(** The directory loop.  [directoryOffset] grows by 12 each turn and the
    loop ends when it reaches [directoryEnd], so [fuel] is their
    difference. *)
Fixpoint directory_loop (fuel : nat) (data : list byte) (startOffset : Z)
    (baseAddress : option Z) (directoryOffset : Z) (directoryEnd : option Z)
    (fields : list Field) : list Field :=
  match fuel with
  | O => fields
  | S fuel' =>
      if num_lt (Some directoryOffset) directoryEnd then
        match parseField data startOffset baseAddress directoryOffset with
        | None => fields
        | Some field =>
            directory_loop fuel' data startOffset baseAddress
              (directoryOffset + 12)%Z directoryEnd (fields ++ [field])
        end
      else fields
  end.

(** [parseRecord] raises no exception: every slice is clamped and the
    decoder replaces what it cannot read.  [None] is the [null] result. *)
Definition parseRecord (data : list byte) (startOffset : Z)
  : option MarcRecord :=
  let leaderBytes := slice data (Some startOffset)
                           (Some (startOffset + 24)%Z) in
  let leader := decode leaderBytes in
  match parseInt (substring 0 5 leader) with
  | None => None
  | Some recordLength =>
      if (recordLength <=? 0)%Z then None
      else
        let baseAddress := parseInt (substring 12 17 leader) in
        let directoryOffset := (startOffset + 24)%Z in
        let directoryEnd :=
          num_add (num_add (Some startOffset) baseAddress) (Some (-1)%Z) in
        Some {| startOffset := startOffset;
                endOffset := (startOffset + recordLength)%Z;
                leader := leader;
                fields :=
                  directory_loop
                    (Z.to_nat (to_integer directoryEnd - directoryOffset))
                    data startOffset baseAddress directoryOffset
                    directoryEnd [];
                recordData :=
                  slice data (Some startOffset)
                        (Some (startOffset + recordLength)%Z) |}
  end.

(** The scan.  Each record ends after its start, so [fuel] is the number of
    bytes.  The [catch] branch of the source is never taken, because
    [parseRecord] does not raise. *)
Fixpoint parse_loop (fuel : nat) (data : list byte) (offset : Z)
    (records : list MarcRecord) : list MarcRecord :=
  match fuel with
  | O => records
  | S fuel' =>
      let len := Z.of_nat (List.length data) in
      if (offset <? len)%Z then
        if (nth (Z.to_nat offset) data 0 =? 0) || (len <=? offset + 24)%Z
        then records
        else
          match parseRecord data offset with
          | Some record =>
              parse_loop fuel' data (endOffset record) (records ++ [record])
          | None => records
          end
      else records
  end.

Definition parse (p : Parser) : Parser :=
  {| data := data p;
     records := parse_loop (List.length (data p)) (data p) 0 (records p) |}.

(** *** Rebuilding

    [None] stands for an exception: the [RangeError] of a [set] whose
    source does not fit, or the [TypeError] of reading the indicators of a
    field that has none. *)

(** The bytes of the subfields, in the order [Object.entries] gives. *)
Definition subfield_parts (subfields : object) : list N :=
  flat_map (fun entry : jsstring * sfvalue =>
              let (code, value) := entry in
              flat_map (fun v => [SUBFIELD_DELIMITER; charCodeAt0 code]
                                   ++ encode v)
                       (values_of value))
           subfields.

(** [fieldData] of one field, before the terminator is added. *)
Definition field_data (field : Field) : option (list byte) :=
  if starts_with_00 (tag field) then
    match body field with
    | ControlField data => Some (encode data)
    | DataField _ _ _ _ => Some (encode [])
    end
  else
    match body field with
    | DataField ind1 ind2 subfields _ =>
        Some (Uint8Array_from
                ([charCodeAt0 ind1; charCodeAt0 ind2]
                   ++ subfield_parts subfields))
    | ControlField _ => None
    end.

Definition directory_entry (tag : jsstring) (fieldLength currentOffset : N)
  : list byte :=
  encode (padEnd 3 32 tag
            ++ padStart 4 48 (String_of_N fieldLength)
            ++ padStart 5 48 (String_of_N currentOffset)).

(** The loop over the fields: the serialized fields, the directory entries
    and the running offset. *)
Fixpoint rebuild_fields (fields : list Field)
    (fieldDataParts directoryEntries : list (list byte)) (currentOffset : N)
  : option (list (list byte) * list (list byte)) :=
  match fields with
  | [] => Some (fieldDataParts, directoryEntries)
  | field :: fields' =>
      match field_data field with
      | None => None
      | Some fieldData =>
          let fieldDataWithTerminator := fieldData ++ [FIELD_TERMINATOR] in
          let fieldLength :=
            N.of_nat (List.length fieldDataWithTerminator) in
          rebuild_fields fields'
            (fieldDataParts ++ [fieldDataWithTerminator])
            (directoryEntries
               ++ [directory_entry (tag field) fieldLength currentOffset])
            (currentOffset + fieldLength)
      end
  end.

(** The directory array: every entry is written at the next multiple of
    12, then the terminator at the last index. *)
Fixpoint set_entries (directory : list byte) (entries : list (list byte))
    (dirOffset : nat) : option (list byte) :=
  match entries with
  | [] => typed_set directory [FIELD_TERMINATOR] dirOffset
  | entry :: entries' =>
      match typed_set directory entry dirOffset with
      | Some directory' => set_entries directory' entries' (dirOffset + 12)
      | None => None
      end
  end.

Definition build_directory (directoryEntries : list (list byte))
  : option (list byte) :=
  let directoryLength := (List.length directoryEntries * 12 + 1)%nat in
  set_entries (repeat 0 directoryLength) directoryEntries 0.

Definition build_leader (leader : jsstring) (recordLength baseAddress : N)
  : list byte :=
  let leaderParts :=
    [padStart 5 48 (String_of_N recordLength);
     substring 5 12 leader;
     padStart 5 48 (String_of_N baseAddress);
     substring 17 20 leader;
     js "4500"] in
  encode (substring 0 24 (padEnd 24 32 (List.concat leaderParts))).

Definition rebuildRecord (record : MarcRecord) : option (list byte) :=
  match rebuild_fields (fields record) [] [] 0 with
  | None => None
  | Some (fieldDataParts, directoryEntries) =>
      let fieldData := List.concat fieldDataParts in
      match build_directory directoryEntries with
      | None => None
      | Some directory =>
          let baseAddress := (24 + List.length directory)%nat in
          let recordLength := (baseAddress + List.length fieldData + 1)%nat in
          let leader :=
            build_leader (leader record) (N.of_nat recordLength)
                         (N.of_nat baseAddress) in
          match typed_set (repeat 0 recordLength) leader 0 with
          | None => None
          | Some completeRecord =>
              match typed_set completeRecord directory 24 with
              | None => None
              | Some completeRecord =>
                  match typed_set completeRecord fieldData baseAddress with
                  | None => None
                  | Some completeRecord =>
                      typed_set completeRecord [RECORD_TERMINATOR]
                                (recordLength - 1)
                  end
              end
          end
      end
  end.

(** [exportBinary]: the rebuilt records, one after the other. *)
Fixpoint rebuild_all (records : list MarcRecord) : option (list (list byte)) :=
  match records with
  | [] => Some []
  | record :: records' =>
      match rebuildRecord record with
      | None => None
      | Some rebuilt =>
          match rebuild_all records' with
          | None => None
          | Some recordParts => Some (rebuilt :: recordParts)
          end
      end
  end.

Definition exportBinary (p : Parser) : option (list byte) :=
  option_map (@List.concat byte) (rebuild_all (records p)).
End BinaryMARCParser.

(** ** MARCXMLParser

    Parsing and serializing go through the DOM of the platform and are
    parameters of the pipeline below; [updateSubfieldZero] is modelled on the
    [subfield] children that the field's element holds. *)

Module MARCXMLParser.

Definition has_code_zero (sf : option jsstring * jsstring) : bool :=
  match fst sf with
  | Some code => jsstring_eqb code (js "0")
  | None => false
  end.

(** The first [subfield] with code 0 gets the new text; [None] when there
    is no such child. *)
Fixpoint replace_zero (e : Element) (uri : jsstring) : option Element :=
  match e with
  | [] => None
  | sf :: e' =>
      if has_code_zero sf then Some ((fst sf, uri) :: e')
      else option_map (cons sf) (replace_zero e' uri)
  end.

(** [None] is the [TypeError] of a field without element or subfields. *)
Definition updateSubfieldZero (field : Field) (uri : jsstring)
  : option Field :=
  match element field, body field with
  | Some e, DataField ind1 ind2 subfields rawData =>
      let e' := match replace_zero e uri with
                | Some e' => e'
                | None => e ++ [(Some (js "0"), uri)]
                end in
      Some {| tag := tag field; offset := offset field;
              flength := flength field;
              body := DataField ind1 ind2
                        (obj_set subfields (js "0") (SStr uri)) rawData;
              element := Some e' |}
  | _, _ => None
  end.
End MARCXMLParser.

(** ** LookupDecoder ([lookup-decoder.js]) *)

Module LookupDecoder.
(** The decoded MessagePack array: integers, lists, or null. *)
Definition t := list (option lccnData).

Definition get (d : t) (index : Z) : option lccnData :=
  if (index <? 0)%Z || (Z.of_nat (List.length d) <=? index)%Z then None
  else nth (Z.to_nat index) d None.
End LookupDecoder.

(** ** The pipeline: [processMARCFile] *)

Record File := {
  name : jsstring;
  size : N;
  arrayBuffer : option (list byte);   (* [None]: the read is rejected *)
  text : option jsstring
}.

Record Detail := {
  recordIndex : N;
  field : jsstring;
  d_name : jsstring;
  status : jsstring;
  reason : option jsstring;
  lccnUri : option jsstring;
  matchedLabel : option (option jsstring);
  d_levenshteinDistance : option N
}.

Record Report := {
  totalRecords : N;
  totalFieldsProcessed : N;
  fieldsUpdated : N;
  fieldsNotFound : N;
  fieldsPoorMatch : N;
  details : list Detail
}.

(** The failures that end the pipeline. *)
Inductive Failure :=
| UnsupportedFileType   (* Error('Unsupported file type. ...') *)
| XmlTooLarge           (* Error('XML file is ... MB which exceeds ...') *)
| ReadFailed            (* a rejected read of the file *)
| EmptyText             (* Error('File could not be read (returned empty) ...') *)
| XmlParsingError       (* Error('XML parsing error: ...') *)
| TypeError             (* a property read on null or undefined *)
| RangeError.           (* a typed array write out of bounds *)

(** What the pipeline does that can be seen from outside, in order: the
    progress notifications (the stage, and the percentage where it is a
    constant of the source), and the construction and use of a parser. *)
Inductive Event :=
| Progress (stage : jsstring) (percent : option N)
| NewBinaryParser
| NewXMLParser
| ParseCalled.

Inductive Outcome (A : Type) :=
| Returned (a : A)
| Thrown (e : Failure).
Arguments Returned {A} a.
Arguments Thrown {A} e.

Definition ends_with (suffix s : jsstring) : bool :=
  Nat.leb (List.length suffix) (List.length s)
  && jsstring_eqb (skipn (List.length s - List.length suffix) s) suffix.

Definition includes (l : list jsstring) (x : jsstring) : bool :=
  existsb (jsstring_eqb x) l.

Definition nameFieldTags : list jsstring :=
  [js "100"; js "110"; js "700"; js "710"].

Definition push_detail (report : Report) (d : Detail) : Report :=
  {| totalRecords := totalRecords report;
     totalFieldsProcessed := totalFieldsProcessed report;
     fieldsUpdated := fieldsUpdated report;
     fieldsNotFound := fieldsNotFound report;
     fieldsPoorMatch := fieldsPoorMatch report;
     details := details report ++ [d] |}.

Definition count_processed (report : Report) : Report :=
  {| totalRecords := totalRecords report;
     totalFieldsProcessed := totalFieldsProcessed report + 1;
     fieldsUpdated := fieldsUpdated report;
     fieldsNotFound := fieldsNotFound report;
     fieldsPoorMatch := fieldsPoorMatch report;
     details := details report |}.

Definition count_updated (report : Report) : Report :=
  {| totalRecords := totalRecords report;
     totalFieldsProcessed := totalFieldsProcessed report;
     fieldsUpdated := fieldsUpdated report + 1;
     fieldsNotFound := fieldsNotFound report;
     fieldsPoorMatch := fieldsPoorMatch report;
     details := details report |}.

Definition count_notFound (report : Report) : Report :=
  {| totalRecords := totalRecords report;
     totalFieldsProcessed := totalFieldsProcessed report;
     fieldsUpdated := fieldsUpdated report;
     fieldsNotFound := fieldsNotFound report + 1;
     fieldsPoorMatch := fieldsPoorMatch report;
     details := details report |}.

Definition count_poorMatch (report : Report) : Report :=
  {| totalRecords := totalRecords report;
     totalFieldsProcessed := totalFieldsProcessed report;
     fieldsUpdated := fieldsUpdated report;
     fieldsNotFound := fieldsNotFound report;
     fieldsPoorMatch := fieldsPoorMatch report + 1;
     details := details report |}.

(** [!lccnData]: null and the number 0 are falsy, an array is truthy even
    when it is empty. *)
Definition lccnData_truthy (d : option lccnData) : bool :=
  match d with
  | None | Some (Single 0) => false
  | Some _ => true
  end.

Inductive Blob :=
| BinaryBlob (binaryData : list byte)     (* type application/marc *)
| XmlBlob (xmlString : jsstring).         (* type application/xml *)

Record Result := {
  outputBlob : Blob;
  outputFilename : jsstring;
  report : Report
}.

(** [name.replace(/suffix$/, replacement)] for a literal suffix. *)
Definition replace_suffix (suffix replacement s : jsstring) : jsstring :=
  if ends_with suffix s
  then firstn (List.length s - List.length suffix) s ++ replacement
  else s.

Section Pipeline.
Context {U : UnicodeData}.

(** [MARCXMLParser.parse] on the platform's DOM ([None]: the document has a
    [parsererror]) and [MARCXMLParser.serialize] of the edited document. *)
Variable MARCXML_parse : jsstring -> option (list MarcRecord).
Variable MARCXML_serialize : list MarcRecord -> jsstring.

(** The two collaborators: [trie.lookup], which answers -1 for an unknown
    key, and the candidate table. *)
Variable trie_lookup : jsstring -> Z.
Variable lookupDecoder : LookupDecoder.t.

Definition detectFileType (file : File) : jsstring :=
  let name := toLowerCase (name file) in
  if ends_with (js ".xml") name then js "xml"
  else if ends_with (js ".mrc") name || ends_with (js ".marc") name
  then js "binary"
  else js "xml".

Definition detail_not_found (i : N) (f : Field) (name reason : jsstring)
  : Detail :=
  {| recordIndex := i + 1; field := tag f; d_name := name;
     status := js "not_found"; reason := Some reason; lccnUri := None;
     matchedLabel := None; d_levenshteinDistance := None |}.

Definition detail_poor_match (i : N) (f : Field) (name : jsstring)
    (m : Match) : Detail :=
  {| recordIndex := i + 1; field := tag f; d_name := name;
     status := js "poor_match";
     reason := Some (js "Match quality too low (distance: "
                       ++ String_of_N (distance m) ++ js ")");
     lccnUri := None; matchedLabel := Some (label m);
     d_levenshteinDistance := Some (distance m) |}.

Definition detail_error (i : N) (f : Field) (name : jsstring) : Detail :=
  {| recordIndex := i + 1; field := tag f; d_name := name;
     status := js "error";
     reason := Some (js "Failed to convert LCCN to URI");
     lccnUri := None; matchedLabel := None;
     d_levenshteinDistance := None |}.

Definition detail_updated (i : N) (f : Field) (name uri : jsstring)
    (m : Match) : Detail :=
  {| recordIndex := i + 1; field := tag f; d_name := name;
     status := js "updated"; reason := None; lccnUri := Some uri;
     matchedLabel := Some (label m);
     d_levenshteinDistance := Some (distance m) |}.

(** The end of the loop body, from the threshold check on, once
    [findBestLCCNMatch] has answered [m]. *)
Definition apply_match (fileType : jsstring) (i : N) (f : Field)
    (subfields : object) (report : Report) (name : jsstring) (m : Match)
  : Outcome (Field * Report) :=
  if MAX_LEVENSHTEIN_DISTANCE <? distance m then
    Returned (f, push_detail (count_poorMatch report)
                   (detail_poor_match i f name m))
  else
    match createLCCNUri (lccn m) with
    | None =>
        Returned (f, push_detail (count_notFound report)
                       (detail_error i f name))
    | Some uri =>
        let updated :=
          if jsstring_eqb fileType (js "xml")
          then MARCXMLParser.updateSubfieldZero f uri
          else Some (set_subfields f
                       (obj_set subfields (js "0") (SStr uri))) in
        match updated with
        | None => Thrown TypeError
        | Some f' =>
            Returned (f', push_detail (count_updated report)
                            (detail_updated i f name uri m))
        end
    end.

(** The body of the loop over the fields of record [i]: the field and the
    report after it, or the exception it raises.  Reading [match.distance]
    when [findBestLCCNMatch] has answered [null] is a [TypeError]. *)
Definition process_field (fileType : jsstring) (i : N) (f : Field)
    (report : Report) : Outcome (Field * Report) :=
  if negb (includes nameFieldTags (tag f)) then Returned (f, report)
  else
    match field_subfields f with
    | None => Returned (f, report)
    | Some subfields =>
        let report := count_processed report in
        let name := extractNameFromSubfields subfields in
        if negb (nonempty name) then Returned (f, report)
        else
          let normalized := normalizeString name in
          let trieId := trie_lookup normalized in
          if (trieId =? -1)%Z then
            Returned (f, push_detail (count_notFound report)
                           (detail_not_found i f name
                              (js "Name not found in LCNAF trie")))
          else
            let data := LookupDecoder.get lookupDecoder trieId in
            match data with
            | Some lccnData =>
                if negb (lccnData_truthy data) then
                  Returned (f, push_detail (count_notFound report)
                                 (detail_not_found i f name
                                    (js "No LCCN data available for trie match")))
                else
                  match findBestLCCNMatch name lccnData with
                  | None => Thrown TypeError
                  | Some m => apply_match fileType i f subfields report name m
                  end
            | None =>
                Returned (f, push_detail (count_notFound report)
                               (detail_not_found i f name
                                  (js "No LCCN data available for trie match")))
            end
    end.

Fixpoint process_fields (fileType : jsstring) (i : N) (fs : list Field)
    (report : Report) : Outcome (list Field * Report) :=
  match fs with
  | [] => Returned ([], report)
  | f :: fs' =>
      match process_field fileType i f report with
      | Thrown e => Thrown e
      | Returned (f', report') =>
          match process_fields fileType i fs' report' with
          | Thrown e => Thrown e
          | Returned (fs'', report'') => Returned (f' :: fs'', report'')
          end
      end
  end.

Definition with_fields (r : MarcRecord) (fs : list Field) : MarcRecord :=
  {| startOffset := startOffset r; endOffset := endOffset r;
     leader := leader r; fields := fs; recordData := recordData r |}.

(** The loop over the records; [i] is the index of the first of [rs] and
    [n] the number of all records.  A notification goes out on every tenth
    record and on the last one. *)
Fixpoint process_records (fileType : jsstring) (n i : N)
    (rs : list MarcRecord) (report : Report)
  : list Event * Outcome (list MarcRecord * Report) :=
  match rs with
  | [] => ([], Returned ([], report))
  | r :: rs' =>
      let notify :=
        if (i mod 10 =? 0) || (i =? n - 1)
        then [Progress (js "processing") None] else [] in
      match process_fields fileType i (fields r) report with
      | Thrown e => (notify, Thrown e)
      | Returned (fs, report') =>
          let (events, rest) :=
            process_records fileType n (i + 1) rs' report' in
          (notify ++ events,
           match rest with
           | Thrown e => Thrown e
           | Returned (rs'', report'') =>
               Returned (with_fields r fs :: rs'', report'')
           end)
      end
  end.

(** The first stage: the parser that is built and the records it reads. *)
Definition read_and_parse (file : File) (fileType : jsstring)
  : list Event * Outcome (list MarcRecord) :=
  if jsstring_eqb fileType (js "binary") then
    match arrayBuffer file with
    | None => ([], Thrown ReadFailed)
    | Some buffer =>
        let parser := BinaryMARCParser.new buffer in
        let records := BinaryMARCParser.records
                         (BinaryMARCParser.parse parser) in
        ([Progress (js "parsing") (Some 5); NewBinaryParser; ParseCalled;
          Progress (js "parsing") (Some 15)],
         Returned records)
    end
  else if jsstring_eqb fileType (js "xml") then
    (* fileSize / 1024 / 1024 > 500, exact on integers *)
    if 524288000 <? size file then ([], Thrown XmlTooLarge)
    else
      let reading := [Progress (js "reading") (Some 2)] in
      match text file with
      | None => (reading, Thrown ReadFailed)
      | Some text =>
          if negb (nonempty text) then (reading, Thrown EmptyText)
          else
            let events :=
              reading ++ [Progress (js "parsing") (Some 5);
                          NewXMLParser; ParseCalled] in
            match MARCXML_parse text with
            | None => (events, Thrown XmlParsingError)
            | Some records =>
                (events ++ [Progress (js "parsing") (Some 15)],
                 Returned records)
            end
      end
  else ([], Thrown UnsupportedFileType).

(** The last stage: the output and its name. *)
Definition finalize (file : File) (fileType : jsstring)
    (records : list MarcRecord) (report : Report) : Outcome Result :=
  if jsstring_eqb fileType (js "xml") then
    match records with
    | [] => Thrown TypeError     (* records[0] is undefined *)
    | _ =>
        Returned {| outputBlob := XmlBlob (MARCXML_serialize records);
                    outputFilename :=
                      replace_suffix (js ".xml") (js "_enhanced.xml")
                                     (name file);
                    report := report |}
    end
  else
    match BinaryMARCParser.exportBinary
            {| BinaryMARCParser.data := match arrayBuffer file with
                                        | Some b => b
                                        | None => []
                                        end;
               BinaryMARCParser.records := records |} with
    | None => Thrown RangeError
    | Some binaryData =>
        Returned {| outputBlob := BinaryBlob binaryData;
                    outputFilename :=
                      replace_suffix (js ".marc") (js "_enhanced.mrc")
                        (replace_suffix (js ".mrc") (js "_enhanced.mrc")
                                        (name file));
                    report := report |}
    end.

Definition processMARCFile (file : File) : list Event * Outcome Result :=
  let fileType := detectFileType file in
  let start := [Progress (js "reading") (Some 0)] in
  match read_and_parse file fileType with
  | (events, Thrown e) => (start ++ events, Thrown e)
  | (events, Returned records) =>
      let n := N.of_nat (List.length records) in
      let report :=
        {| totalRecords := n; totalFieldsProcessed := 0;
           fieldsUpdated := 0; fieldsNotFound := 0; fieldsPoorMatch := 0;
           details := [] |} in
      let processing := [Progress (js "processing") (Some 20)] in
      match process_records fileType n 0 records report with
      | (events', Thrown e) =>
          (start ++ events ++ processing ++ events', Thrown e)
      | (events', Returned (records', report')) =>
          let finalizing := [Progress (js "finalizing") (Some 95)] in
          match finalize file fileType records' report' with
          | Thrown e =>
              (start ++ events ++ processing ++ events' ++ finalizing,
               Thrown e)
          | Returned result =>
              (start ++ events ++ processing ++ events' ++ finalizing
                 ++ [Progress (js "complete") (Some 100)],
               Returned result)
          end
      end
  end.
End Pipeline.

(** ** The search page ([main.js]) *)

Section SearchPage.
Context {U : UnicodeData}.

(** The loop of [findBestMatch]: the best item so far and its distance. *)
Fixpoint best_item_loop (normalizedInput : jsstring)
    (labels : list (N * jsstring)) (bestMatch : option (N * jsstring))
    (bestDistance : option N) : option (N * jsstring) :=
  match labels with
  | [] => bestMatch
  | item :: labels' =>
      let label := snd item in
      let normalizedLabel := normalize_for_distance label in
      let distance := levenshteinDistance normalizedInput normalizedLabel in
      if lt_best distance bestDistance
      then best_item_loop normalizedInput labels' (Some item) (Some distance)
      else best_item_loop normalizedInput labels' bestMatch bestDistance
  end.

Definition findBestMatch (originalInput : jsstring)
    (labels : list (N * jsstring)) : option (N * jsstring) :=
  let normalizedInput := normalize_for_distance originalInput in
  best_item_loop normalizedInput labels None None.

End SearchPage.

Section SearchPageLink.

(** [num.toLocaleString()], which depends on the locale of the browser. *)
Variable formatNumber : N -> jsstring.

(** [createLCCNLink]; [main.js] has its own copy of [convertLCCN], with the
    same table.  Code 34 is the double quote. *)
Definition createLCCNLink (numericLccn : N) (label : option jsstring)
  : jsstring :=
  match convertLCCN numericLccn with
  | Some (c :: convertedLccn') =>
      let convertedLccn := c :: convertedLccn' in
      let url := js "http://id.loc.gov/authorities/names/" ++ convertedLccn in
      let html := js "<a href=" ++ [34] ++ url ++ [34] ++ js " target="
                    ++ [34] ++ js "_blank" ++ [34] ++ js ">"
                    ++ convertedLccn ++ js "</a>" in
      match label with
      | Some (l :: label') =>
          html ++ js " <span class=" ++ [34] ++ js "result-meta" ++ [34]
               ++ js ">(" ++ l :: label' ++ js ")</span>"
      | _ => html
      end
  | _ =>
      js "<span>LCCN: " ++ formatNumber numericLccn
         ++ js " (invalid format)</span>"
  end.

End SearchPageLink.

(** * Vocabulary of the properties

    The predicates, measures and sample data that the statements below are
    written with. *)

(** ** Normalization *)

Definition not_punctuation (c : N) : bool := negb (is_punctuation c).

Definition pending_high (pending : option N) : Prop :=
  forall h, pending = Some h -> is_high_surrogate h = true.

(** A database that knows one character beyond ASCII: U+1D400, the
    mathematical bold capital A, whose compatibility decomposition is the
    letter A.  In UTF-16 it is the surrogate pair 55349, 56320. *)
Definition bold_decomposition (c : N) : list N :=
  if c <? 128 then [c] else if c =? 119808 then [65] else [c].

Definition bold_unicode : UnicodeData :=
  {| decomposition := bold_decomposition;
     combining_class := fun _ => 0;
     toLowerCase := ascii_toLowerCase;
     decomposition_ascii :=
       fun c H =>
         f_equal (fun b : bool =>
                    if b then [c] else if c =? 119808 then [65] else [c])
                 (proj2 (N.ltb_lt c 128) H);
     combining_class_ascii := fun _ _ => eq_refl;
     toLowerCase_ascii := fun _ _ => eq_refl |}.

(** ** Identifiers *)

(** The table of the specification: the first digit 1..6 selects the
    prefix. *)
Definition spec_prefix (d : N) : option jsstring :=
  if d =? 49 then Some (js "nb")
  else if d =? 50 then Some (js "nn")
  else if d =? 51 then Some (js "no")
  else if d =? 52 then Some (js "nr")
  else if d =? 53 then Some (js "ns")
  else if d =? 54 then Some (js "n")
  else None.

(** ** Names *)

(** The subfields of a field that holds the code [a] twice, as the binary
    parser reads them. *)
Definition repeated_a : list byte :=
  [31] ++ js "aSmith" ++ [31] ++ js "aJones".

(** ** The resolver *)

(** The recurrence of the edit distance between the first [i] characters
    of [s] and the first [j] characters of [t]: a deletion, an insertion
    and a substitution cost 1 each. *)
Fixpoint lev_at (s t : jsstring) (i j : nat) : N :=
  match i with
  | O => N.of_nat j
  | S i' =>
      (fix row (j : nat) : N :=
         match j with
         | O => N.of_nat i
         | S j' =>
             min3 (lev_at s t i' (S j') + 1) (row j' + 1)
                  (lev_at s t i' j'
                   + if nth i' s 0 =? nth j' t 0 then 0 else 1)
         end) j
  end.

Definition edit_distance (s t : jsstring) : N :=
  lev_at s t (List.length s) (List.length t).

(** The characters that the comparison of a name with a label keeps, as
    the specification lists them: a to z and 0 to 9. *)
Definition alphanumerics : jsstring :=
  js "abcdefghijklmnopqrstuvwxyz0123456789".

Definition strip_to_alphanumerics (s : jsstring) : jsstring :=
  filter (fun c => existsb (N.eqb c) alphanumerics) s.

Section ResolverVocabulary.
Context {U : UnicodeData}.

(** A name or a label as the specification compares it: lower-cased, then
    stripped of every character outside a-z and 0-9. *)
Definition normalized_label (s : jsstring) : jsstring :=
  strip_to_alphanumerics (toLowerCase s).

(** The Levenshtein distance between a name and a label, both normalized
    that way. *)
Definition label_distance (name label : jsstring) : N :=
  edit_distance (normalized_label name) (normalized_label label).

(** The score of a candidate label against the name. *)
Definition candidate_distance (name label : jsstring) : N :=
  levenshteinDistance (normalize_for_distance name)
                      (normalize_for_distance label).

Definition candidate_match (name : jsstring) (c : N * jsstring) : Match :=
  {| lccn := fst c; label := Some (snd c);
     distance := candidate_distance name (snd c) |}.

(** [c], at position [k] of [items], has the least score, and every
    candidate before it scores strictly more. *)
Definition first_minimum (name : jsstring) (items : list (N * jsstring))
    (k : nat) (c : N * jsstring) : Prop :=
  nth_error items k = Some c
  /\ (forall j c', nth_error items j = Some c' ->
                   candidate_distance name (snd c)
                   <= candidate_distance name (snd c'))
  /\ (forall j c', (j < k)%nat -> nth_error items j = Some c' ->
                   candidate_distance name (snd c)
                   < candidate_distance name (snd c')).

End ResolverVocabulary.

(** ** The pipeline *)

(** The status of the report entry that a step of the pipeline has added;
    [None] when the step has raised an exception or added nothing. *)
Definition added_status (before : Report) (o : Outcome (Field * Report))
  : option jsstring :=
  match o with
  | Returned (_, after) =>
      if Nat.eqb (List.length (details after)) (S (List.length (details before)))
      then option_map status
             (nth_error (details after) (List.length (details before)))
      else None
  | Thrown _ => None
  end.

Definition sample_field : Field :=
  {| tag := js "100"; offset := None; flength := None;
     body := DataField (js "1") (js " ")
                       [(js "a", SStr (js "abcdefghijk"))] [];
     element := None |}.

Definition empty_report : Report :=
  {| totalRecords := 1; totalFieldsProcessed := 0; fieldsUpdated := 0;
     fieldsNotFound := 0; fieldsPoorMatch := 0; details := [] |}.

(** A candidate table whose only entry is an empty list. *)
Definition empty_entry_table : LookupDecoder.t := [Some (Candidates [])].


(** A file whose name ends in .txt. *)
Definition notes_txt : File :=
  {| name := js "notes.txt"; size := 5;
     arrayBuffer := Some (js "hello"); text := Some (js "hello") |}.

(** ** The binary parser *)

Import BinaryMARCParser.

(** A record as a cataloguing system writes it: a control number and a
    personal name heading; 88 bytes. *)
Definition woolf_record : list byte :=
  js "00088nam a2200049 a 4500"
  ++ js "001000600000" ++ js "100003200006" ++ [30]
  ++ js "12345" ++ [30]
  ++ js "1 " ++ [31] ++ js "aWoolf, Virginia," ++ [31] ++ js "d1882-1941"
  ++ [30]
  ++ [29].

(** ** Text and bytes *)

Definition ascii (s : list N) : Prop := forallb is_ascii s = true.

(** The decimal fields of the leader and the directory, checked on every
    value they can hold. *)
Definition decimal_field_ok (width : nat) (n : N) : bool :=
  let s := padStart width 48 (String_of_N n) in
  Nat.eqb (List.length s) width
  && forallb is_digit s
  && match parseInt s with
     | Some z => (z =? Z.of_N n)%Z
     | None => false
     end.

(** [p] holds of the [count] numbers from [n] on. *)
Fixpoint all_from (count : nat) (n : N) (p : N -> bool) : bool :=
  match count with
  | O => true
  | S count' => p n && all_from count' (n + 1) p
  end.

(** A value that the parser reads takes no delimiter or terminator in. *)
Definition is_delimiter (c : N) : bool :=
  (c =? SUBFIELD_DELIMITER) || (c =? FIELD_TERMINATOR).

Definition is_scalar (cp : N) : bool :=
  (cp <? 1114112) && negb (is_surrogate cp).

(** [p] holds of every number from [lo] to [hi]. *)
Definition all_between (lo hi : N) (p : N -> bool) : bool :=
  all_from (N.to_nat (hi + 1 - lo)) lo p.

(** A decoded character that is not an ASCII byte of the input: a scalar
    value from 128 on. *)
Definition is_high_scalar (cp : N) : bool := (128 <=? cp) && is_scalar cp.

(** Every way to complete a pending sequence gives such a character. *)
Fixpoint completes (cp : N) (needed : nat) (lower upper : N) : bool :=
  match needed with
  | O => true
  | S n =>
      all_between lower upper
        (fun b =>
           let cp' := N.lor (N.shiftl cp 6) (N.land b 63) in
           match n with
           | O => is_high_scalar cp'
           | S _ => completes cp' n 128 191
           end)
  end.

Definition state_completes (st : utf8_state) : bool :=
  match st with
  | Initial => true
  | Pending cp needed lower upper =>
      negb (Nat.eqb needed 0) && completes cp needed lower upper
  end.

Definition decoded_from (bytes : list byte) (c : N) : Prop :=
  is_scalar c = true /\ (c < 128 -> In c bytes).

(** Well-formed strings: the UTF-16 form of scalar values. *)
Definition usv (s : jsstring) : Prop :=
  exists cps, forallb is_scalar cps = true /\ s = utf16_encode cps.

Definition no_delimiter (s : list N) : Prop :=
  forallb (fun c => negb (is_delimiter c)) s = true.

Definition bytes_ok (l : list byte) : Prop :=
  forallb (fun b => b <? 256) l = true.

Definition no_bom (s : jsstring) : bool := negb (hd 0 s =? 65279).

(** The decoder on a prefix of its input: what it gives and the state it is
    left in. *)
Fixpoint utf8_run (st : utf8_state) (bytes : list byte)
  : list N * utf8_state :=
  match bytes with
  | [] => ([], st)
  | b :: rest =>
      match st with
      | Initial =>
          let (out, st') := utf8_lead b in
          let (o, s) := utf8_run st' rest in (out ++ o, s)
      | Pending cp needed lower upper =>
          if in_range lower upper b then
            let cp' := N.lor (N.shiftl cp 6) (N.land b 63) in
            match needed with
            | S (S n) => utf8_run (Pending cp' (S n) 128 191) rest
            | _ => let (o, s) := utf8_run Initial rest in (cp' :: o, s)
            end
          else
            let (out, st') := utf8_lead b in
            let (o, s) := utf8_run st' rest in (65533 :: out ++ o, s)
      end
  end.

(** ** Subfield objects *)

(** A value is a well-formed string without delimiter or terminator. *)
Definition text_ok (s : jsstring) : Prop := usv s /\ no_delimiter s.

(** An array holds at least two values and its first value is not empty. *)
Definition value_ok (v : sfvalue) : Prop :=
  match v with
  | SStr s => text_ok s
  | SArr l =>
      (exists a b rest, l = a :: b :: rest /\ a <> []) /\ Forall text_ok l
  end.

(** A code or an indicator is one character, made from one byte. *)
Definition key_ok (k : jsstring) : Prop := exists c, k = [c] /\ c < 256.

(** The order of enumeration: an index comes before a greater index and
    before every key that is not an index. *)
Definition before (k1 k2 : jsstring) : Prop :=
  k1 <> k2
  /\ match array_index k1, array_index k2 with
     | Some i, Some j => i < j
     | Some _, None => True
     | None, None => True
     | None, Some _ => False
     end.

Definition wf_object (o : object) : Prop :=
  Forall (fun e => key_ok (fst e) /\ value_ok (snd e)) o
  /\ StronglySorted before (map fst o).

(** The values of an object, one pair for each occurrence, in the order in
    which [rebuildRecord] writes them; and the object that [parseSubfields]
    builds when it reads such pairs. *)
Definition pairs_of (o : object) : list (jsstring * jsstring) :=
  flat_map (fun e => map (pair (fst e)) (values_of (snd e))) o.

Definition replay (ps : list (jsstring * jsstring)) (acc : object) : object :=
  fold_left (fun acc p => add_subfield acc (fst p) (snd p)) ps acc.

(** The bytes that [rebuildRecord] writes for a list of pairs. *)
Definition pairs_bytes (ps : list (jsstring * jsstring)) : list N :=
  flat_map (fun p => [SUBFIELD_DELIMITER; charCodeAt0 (fst p)] ++ encode (snd p))
           ps.

Definition pair_text (p : jsstring * jsstring) : Prop :=
  key_ok (fst p) /\ text_ok (snd p).

(** The decoder drops a byte order mark at the start of a value, so a
    value that starts with U+FEFF is not read back. *)
Definition pair_ok (p : jsstring * jsstring) : Prop :=
  pair_text p /\ no_bom (snd p) = true.

(** No value of the object starts with a byte order mark. *)
Definition object_no_bom (o : object) : bool :=
  forallb (fun e => forallb no_bom (values_of (snd e))) o.

(** ** Records and their layout *)

Definition good_field (f : Field) : Prop :=
  match body f with
  | ControlField d => starts_with_00 (tag f) = true /\ usv d
  | DataField ind1 ind2 subfields _ =>
      starts_with_00 (tag f) = false
      /\ key_ok ind1 /\ key_ok ind2 /\ wf_object subfields
  end.

Definition good_record (r : MarcRecord) : Prop :=
  Forall good_field (fields r).

(** The length that the directory records for a field: its bytes and the
    terminator. *)
Definition field_length (f : Field) : nat :=
  match field_data f with
  | Some fieldData => S (List.length fieldData)
  | None => 0
  end.

(** No text of the field starts with a byte order mark. *)
Definition field_no_bom (f : Field) : bool :=
  match body f with
  | ControlField d => no_bom d
  | DataField _ _ subfields _ => object_no_bom subfields
  end.

(** A field fits its directory entry when the tag has three characters,
    each one byte long, and the length four digits. *)
Definition field_fits (f : Field) : bool :=
  Nat.eqb (List.length (tag f)) 3 && forallb is_ascii (tag f)
  && (N.of_nat (field_length f) <=? 9999) && field_no_bom f.

Definition base_address (r : MarcRecord) : nat :=
  24 + (List.length (fields r) * 12 + 1).

Definition record_length (r : MarcRecord) : nat :=
  base_address r + list_sum (map field_length (fields r)) + 1.

(** A record fits when its fields do, its length has five digits, and its
    leader has 24 characters, each one byte long. *)
Definition record_fits (r : MarcRecord) : bool :=
  forallb field_fits (fields r) && (N.of_nat (record_length r) <=? 99999)
  && Nat.eqb (List.length (leader r)) 24 && forallb is_ascii (leader r).

(** The bytes of a field with its terminator, and the directory entries of
    a list of fields that starts at offset [currentOffset]. *)
Definition field_bytes (f : Field) : list byte :=
  match field_data f with
  | Some fieldData => fieldData ++ [FIELD_TERMINATOR]
  | None => []
  end.

Fixpoint entries_from (fs : list Field) (currentOffset : N)
  : list (list byte) :=
  match fs with
  | [] => []
  | f :: fs' =>
      directory_entry (tag f) (N.of_nat (field_length f)) currentOffset
        :: entries_from fs' (currentOffset + N.of_nat (field_length f))
  end.

Definition rebuilt_leader (r : MarcRecord) : list byte :=
  build_leader (leader r) (N.of_nat (record_length r))
               (N.of_nat (base_address r)).

Definition rebuilt_directory (r : MarcRecord) : list byte :=
  List.concat (entries_from (fields r) 0) ++ [FIELD_TERMINATOR].

Definition rebuilt_fieldData (r : MarcRecord) : list byte :=
  List.concat (map field_bytes (fields r)).

(** The leader of a rebuilt record. *)
Definition leader_text (leader : jsstring) (recordLength baseAddress : N)
  : jsstring :=
  padStart 5 48 (String_of_N recordLength)
  ++ substring 5 12 leader
  ++ padStart 5 48 (String_of_N baseAddress)
  ++ substring 17 20 leader
  ++ js "4500".

(** The bytes of a rebuilt record. *)
Definition rebuilt_bytes (r : MarcRecord) : list byte :=
  leader_text (leader r) (N.of_nat (record_length r))
              (N.of_nat (base_address r))
  ++ rebuilt_directory r ++ rebuilt_fieldData r ++ [RECORD_TERMINATOR].

(** ** The round trip *)

(** The directory says of each field, in order: its tag, the length of its
    bytes with the terminator, and the offset at which they start. *)
Fixpoint directory_consistent (fs : list Field) (directory : list byte)
    (start : nat) : Prop :=
  match fs with
  | [] => directory = [FIELD_TERMINATOR]
  | f :: fs' =>
      exists t l o rest,
        directory = t ++ l ++ o ++ rest
        /\ List.length t = 3%nat /\ List.length l = 4%nat
        /\ List.length o = 5%nat
        /\ decode t = tag f
        /\ parseInt (decode l) = Some (Z.of_nat (List.length (field_bytes f)))
        /\ parseInt (decode o) = Some (Z.of_nat start)
        /\ directory_consistent fs' rest (start + List.length (field_bytes f))
  end.

(** A rebuilt record is consistent: the leader gives the length of the
    record and the base address, the base address is 24 plus the length of
    the directory, and the length of the record is the base address plus the
    length of the fields plus one. *)
Definition record_consistent (r : MarcRecord) (bytes : list byte) : Prop :=
  exists leaderBytes directory,
    let fieldData := List.concat (map field_bytes (fields r)) in
    bytes = leaderBytes ++ directory ++ fieldData ++ [RECORD_TERMINATOR]
    /\ List.length leaderBytes = 24%nat
    /\ parseInt (decode (firstn 5 leaderBytes))
       = Some (Z.of_nat (List.length bytes))
    /\ parseInt (decode (firstn 5 (skipn 12 leaderBytes)))
       = Some (Z.of_nat (24 + List.length directory))
    /\ List.length bytes
       = (24 + List.length directory + List.length fieldData + 1)%nat
    /\ directory_consistent (fields r) directory 0.

(** Rebuilding what was read from [buf] succeeds, every rebuilt record is
    consistent, and reading the output again gives the same fields. *)
Definition rebuild_round_trip (buf : list byte) : Prop :=
  let decoded := parse (new buf) in
  exists out,
    exportBinary decoded = Some out
    /\ (forall r, In r (records decoded) ->
                  exists bytes, rebuildRecord r = Some bytes
                                /\ record_consistent r bytes)
    /\ map record_content (records (parse (new out)))
       = map record_content (records decoded).

(** A record with a name of more than 7 bits: the two bytes 195 171 are
    the letter U+00EB. *)
Definition bronte_record : list byte :=
  js "00091nam a2200049 a 4500"
  ++ js "001000600000" ++ js "100003500006" ++ [30]
  ++ js "67890" ++ [30]
  ++ js "1 " ++ [31] ++ js "aBront" ++ [195; 171] ++ js ", Charlotte,"
  ++ [31] ++ js "d1816-1855"
  ++ [30]
  ++ [29].

(** A transfer that stops inside the tag of a directory entry: the sample
    record and the first 38 bytes of a second copy. *)
Definition cut_in_tag : list byte := woolf_record ++ firstn 38 woolf_record.

(** A complete record shows the same: a control field that holds two byte
    order marks is read as one U+FEFF, which is written as one byte order
    mark and read back as the empty string. *)
Definition bom_record : list byte :=
  js "00045nam a2200037 a 4500"
  ++ js "001000700000" ++ [30]
  ++ [239; 187; 191; 239; 187; 191] ++ [30]
  ++ [29].

(** ** Further properties: keys, records, reports and frames *)

(** The last step of [normalizeString]: the string is cut at its first
    lower-case letter and the two parts change places. *)
Definition letters_first (norm : jsstring) : jsstring :=
  match search is_lower norm with
  | Some firstLetterIndex =>
      substring_from firstLetterIndex norm
      ++ substring 0 firstLetterIndex norm
  | None => norm
  end.

(** The records lie one after the other from offset [start]: each starts
    where the one before it ends, ends after its start, and starts more
    than 24 bytes before the end of the data, on a byte that is not NUL. *)
Fixpoint tiles (data : list byte) (start : Z) (rs : list MarcRecord) : Prop :=
  match rs with
  | [] => True
  | r :: rs' =>
      startOffset r = start
      /\ (start < endOffset r)%Z
      /\ (start + 24 < Z.of_nat (List.length data))%Z
      /\ nth (Z.to_nat start) data 0 <> 0
      /\ tiles data (endOffset r) rs'
  end.

(** No entry of the object is the empty string. *)
Definition no_empty_value (o : object) : Prop :=
  Forall (fun e => snd e <> SStr []) o.

(** The number of entries with a given status. *)
Definition count_status (s : jsstring) (ds : list Detail) : N :=
  N.of_nat (List.length (filter (fun d => jsstring_eqb (status d) s) ds)).

(** The counters of a report agree with its entries. *)
Definition report_consistent (r : Report) : Prop :=
  fieldsUpdated r = count_status (js "updated") (details r)
  /\ fieldsPoorMatch r = count_status (js "poor_match") (details r)
  /\ fieldsNotFound r
     = count_status (js "not_found") (details r)
       + count_status (js "error") (details r)
  /\ fieldsUpdated r + fieldsNotFound r + fieldsPoorMatch r
     = N.of_nat (List.length (details r))
  /\ N.of_nat (List.length (details r)) <= totalFieldsProcessed r.

(** What one entry of the report says, by its status. *)
Definition detail_ok (n : N) (d : Detail) : Prop :=
  In (field d) [js "100"; js "110"; js "700"; js "710"]
  /\ 1 <= recordIndex d <= n
  /\ d_name d <> []
  /\ ((status d = js "updated"
       /\ (exists converted,
              lccnUri d
              = Some (js "http://id.loc.gov/authorities/names/" ++ converted))
       /\ (exists dist, d_levenshteinDistance d = Some dist
                        /\ dist <= 10)
       /\ reason d = None)
      \/ (status d = js "poor_match"
          /\ lccnUri d = None
          /\ exists dist, d_levenshteinDistance d = Some dist
                          /\ 10 < dist)
      \/ ((status d = js "not_found" \/ status d = js "error")
          /\ lccnUri d = None /\ d_levenshteinDistance d = None
          /\ reason d <> None)).

(** One turn of the loop over the fields, seen from the report: nothing, a
    field counted, or a field counted and an entry added with its
    counter. *)
Inductive report_step (i : N) (f : Field) (r : Report) : Report -> Prop :=
| step_skip : report_step i f r r
| step_counted : report_step i f r (count_processed r)
| step_not_found d :
    (status d = js "not_found" \/ status d = js "error") ->
    lccnUri d = None -> d_levenshteinDistance d = None -> reason d <> None ->
    field d = tag f -> recordIndex d = i + 1 -> d_name d <> [] ->
    includes nameFieldTags (tag f) = true ->
    report_step i f r (push_detail (count_notFound (count_processed r)) d)
| step_poor_match d dist :
    status d = js "poor_match" ->
    lccnUri d = None -> d_levenshteinDistance d = Some dist ->
    MAX_LEVENSHTEIN_DISTANCE < dist ->
    field d = tag f -> recordIndex d = i + 1 -> d_name d <> [] ->
    includes nameFieldTags (tag f) = true ->
    report_step i f r (push_detail (count_poorMatch (count_processed r)) d)
| step_updated d converted dist :
    status d = js "updated" ->
    lccnUri d = Some (LCCN_URI_BASE ++ converted) ->
    d_levenshteinDistance d = Some dist ->
    dist <= MAX_LEVENSHTEIN_DISTANCE -> reason d = None ->
    field d = tag f -> recordIndex d = i + 1 -> d_name d <> [] ->
    includes nameFieldTags (tag f) = true ->
    report_step i f r (push_detail (count_updated (count_processed r)) d).

(** The invariant of the two loops. *)
Definition report_invariant (n : N) (r : Report) : Prop :=
  report_consistent r /\ Forall (detail_ok n) (details r)
  /\ totalRecords r = n.

(** What the pipeline may do to a field: nothing, or, to a data field
    100, 110, 700 or 710, set subfield 0 to the URI of an identifier. *)
Definition field_frame (f f' : Field) : Prop :=
  f' = f
  \/ (includes nameFieldTags (tag f) = true
      /\ exists ind1 ind2 subfields rawData lccn uri,
          body f = DataField ind1 ind2 subfields rawData
          /\ createLCCNUri lccn = Some uri
          /\ tag f' = tag f /\ offset f' = offset f
          /\ flength f' = flength f
          /\ body f'
             = DataField ind1 ind2 (obj_set subfields (js "0") (SStr uri))
                         rawData).

Definition record_frame (r r' : MarcRecord) : Prop :=
  startOffset r' = startOffset r /\ endOffset r' = endOffset r
  /\ leader r' = leader r /\ recordData r' = recordData r
  /\ Forall2 field_frame (fields r) (fields r').

Definition printable (c : N) : bool := (32 <=? c) && (c <? 127).

Definition zero_report : Report :=
  {| totalRecords := 0; totalFieldsProcessed := 0; fieldsUpdated := 0;
     fieldsNotFound := 0; fieldsPoorMatch := 0; details := [] |}.

(** ** A sample run *)

(** A binary file with the sample record, a trie that knows the key of its
    heading, and a table with two candidates for it. *)
Definition woolf_file : File :=
  {| name := js "woolf.mrc"; size := 88;
     arrayBuffer := Some woolf_record; text := None |}.

Definition woolf_trie (key : jsstring) : Z :=
  if jsstring_eqb key (js "afgiiilnoorvw11124889") then 0%Z else (-1)%Z.

Definition woolf_table : LookupDecoder.t :=
  [Some (Candidates [(179041871, js "Woolf, Leonard, 1880-1969");
                     (679041870, js "Woolf, Virginia, 1882-1941")])].

Definition woolf_run : list Event * Outcome Result :=
  @processMARCFile ascii_unicode (fun _ => None) (fun _ => [])
                   woolf_trie woolf_table woolf_file.

(** * Properties *)

Ltac divmod := zify; Z.to_euclidean_division_equations; lia.

(** ** Strings *)

Lemma jsstring_eqb_eq (a b : jsstring) : jsstring_eqb a b = true <-> a = b.
Proof.
  revert b; induction a as [|x a IH]; intros [|y b]; simpl;
    try (split; congruence).
  rewrite andb_true_iff, N.eqb_eq, IH. split.
  - intros [-> ->]; reflexivity.
  - intros [= -> ->]; auto.
Qed.

Lemma jsstring_eqb_refl (a : jsstring) : jsstring_eqb a a = true.
Proof. apply jsstring_eqb_eq; reflexivity. Qed.

Lemma is_ascii_lt (c : N) : is_ascii c = true <-> c < 128.
Proof. unfold is_ascii. apply N.ltb_lt. Qed.

Lemma forallb_filter_id {A} (p : A -> bool) (l : list A) :
  forallb p l = true -> filter p l = l.
Proof.
  induction l as [|x l IH]; simpl; auto.
  rewrite andb_true_iff. intros [-> H]. now rewrite IH.
Qed.

Lemma forallb_filter {A} (p q : A -> bool) (l : list A) :
  forallb p l = true -> forallb p (filter q l) = true.
Proof.
  induction l as [|x l IH]; simpl; auto.
  rewrite andb_true_iff. intros [Hx H].
  destruct (q x); simpl; rewrite ?Hx; auto.
Qed.

(** ** UTF-16 and the normalization form on ASCII *)

Lemma code_points_ascii (s : jsstring) :
  forallb is_ascii s = true -> code_points s = s.
Proof.
  unfold code_points.
  induction s as [|c s IH]; simpl; auto.
  rewrite andb_true_iff, is_ascii_lt. intros [Hc H].
  assert (is_high_surrogate c = false) as ->
      by (unfold is_high_surrogate, in_range; apply andb_false_iff; left;
          apply N.leb_gt; lia).
  now rewrite IH.
Qed.

Lemma utf16_encode_bmp (l : list N) :
  forallb (fun c => c <? 65536) l = true -> utf16_encode l = l.
Proof.
  unfold utf16_encode.
  induction l as [|c l IH]; [reflexivity|].
  cbn [flat_map forallb]. rewrite andb_true_iff. intros [Hc H].
  rewrite IH by assumption. unfold utf16_units. now rewrite Hc.
Qed.

Lemma forallb_ascii_bmp (l : list N) :
  forallb is_ascii l = true -> forallb (fun c => c <? 65536) l = true.
Proof.
  rewrite !forallb_forall. intros H c Hc. apply H in Hc.
  apply is_ascii_lt in Hc. apply N.ltb_lt. lia.
Qed.

Lemma filter_ascii_utf16_encode (l : list N) :
  filter is_ascii (utf16_encode l) = filter is_ascii l.
Proof.
  unfold utf16_encode.
  induction l as [|c l IH]; [reflexivity|].
  cbn [flat_map]. rewrite filter_app, IH.
  change (c :: l) with ([c] ++ l). rewrite filter_app. f_equal.
  unfold utf16_units. destruct (c <? 65536) eqn:Hc; cbn [filter].
  - reflexivity.
  - apply N.ltb_ge in Hc.
    assert (is_ascii c = false) as -> by (apply N.ltb_ge; lia).
    assert (is_ascii (55296 + (c - 65536) / 1024) = false) as ->
        by (apply N.ltb_ge; generalize ((c - 65536) / 1024); lia).
    assert (is_ascii (56320 + (c - 65536) mod 1024) = false) as ->
        by (apply N.ltb_ge; generalize ((c - 65536) mod 1024); lia).
    reflexivity.
Qed.

Section NormalizerFacts.
Context {U : UnicodeData}.

Lemma reorder_insert_perm (c : N) (racc : list N) :
  Permutation (reorder_insert c racc) (c :: racc).
Proof.
  induction racc as [|r rs IH]; simpl; auto.
  destruct (_ && _); auto.
  rewrite IH. apply perm_swap.
Qed.

Lemma canonical_order_perm (l : list N) : Permutation (canonical_order l) l.
Proof.
  unfold canonical_order.
  assert (forall acc,
             Permutation (fold_left (fun racc c => reorder_insert c racc) l acc)
                         (rev l ++ acc)) as H.
  { induction l as [|c l IH]; intros acc; simpl; auto.
    rewrite IH, reorder_insert_perm, <- app_assoc. simpl.
    apply Permutation_app_head, Permutation_refl. }
  rewrite <- Permutation_rev, H, app_nil_r. symmetry. apply Permutation_rev.
Qed.

Lemma canonical_order_ascii (l : list N) :
  forallb is_ascii l = true -> canonical_order l = l.
Proof.
  unfold canonical_order. intros H.
  assert (forall acc,
             fold_left (fun racc c => reorder_insert c racc) l acc
             = rev l ++ acc) as E.
  { induction l as [|c l IH]; intros acc; simpl in *; auto.
    apply andb_true_iff in H as [Hc H].
    rewrite IH, <- app_assoc by assumption. simpl. f_equal.
    destruct acc as [|r rs]; simpl; auto.
    rewrite combining_class_ascii by now apply is_ascii_lt.
    reflexivity. }
  rewrite E, app_nil_r. apply rev_involutive.
Qed.

Lemma flat_map_decomposition_ascii (l : list N) :
  forallb is_ascii l = true -> flat_map decomposition l = l.
Proof.
  induction l as [|c l IH]; simpl; auto.
  rewrite andb_true_iff. intros [Hc H].
  rewrite decomposition_ascii, IH by (auto; now apply is_ascii_lt).
  reflexivity.
Qed.

Lemma normalize_NFKD_ascii (s : jsstring) :
  forallb is_ascii s = true -> normalize_NFKD s = s.
Proof.
  intros H. unfold normalize_NFKD.
  rewrite code_points_ascii, flat_map_decomposition_ascii,
    canonical_order_ascii, utf16_encode_bmp; auto using forallb_ascii_bmp.
Qed.

End NormalizerFacts.

(** On ASCII input the Unicode data of the platform plays no part. *)
Lemma normalizeString_ascii (U : UnicodeData) (s : jsstring) :
  forallb is_ascii s = true ->
  normalizeString s = @normalizeString ascii_unicode s.
Proof.
  intros H. unfold normalizeString.
  set (s1 := filter (fun c => negb (is_punctuation c)) s).
  assert (H1 : forallb is_ascii s1 = true) by now apply forallb_filter.
  rewrite (@normalize_NFKD_ascii U), (@normalize_NFKD_ascii ascii_unicode)
    by assumption.
  rewrite toLowerCase_ascii by now apply forallb_filter.
  reflexivity.
Qed.

(** ** C2: the key of a sample heading *)

(** C2, as the code has it: the key of "Woolf, Virginia, 1882-1941" is every
    surviving character in ascending order, letters before digits, that is
    "afgiiilnoorvw11124889", whatever the Unicode data of the platform. *)
Theorem normalizeString_woolf (U : UnicodeData) :
  normalizeString (js "Woolf, Virginia, 1882-1941")
  = js "afgiiilnoorvw11124889".
Proof.
  rewrite normalizeString_ascii by reflexivity.
  vm_compute. reflexivity.
Qed.

(** C2 as stated does not hold: on no platform is the key of
    "Woolf, Virginia, 1882-1941" the string "afiilnoorvw18821941". *)
Lemma normalizeString_woolf_counterexample :
  ~ (exists U : UnicodeData,
        normalizeString (js "Woolf, Virginia, 1882-1941")
        = js "afiilnoorvw18821941").
Proof.
  intros [U H]. rewrite normalizeString_ascii in H by reflexivity.
  vm_compute in H. discriminate H.
Qed.

(** ** C9: the key does not depend on the order of the characters *)

Lemma insert_sorted_comm (a b : N) (l : list N) :
  insert_sorted a (insert_sorted b l) = insert_sorted b (insert_sorted a l).
Proof.
  induction l as [|x l IH]; simpl.
  - destruct (a <=? b) eqn:Hab, (b <=? a) eqn:Hba; auto.
    + apply N.leb_le in Hab, Hba. f_equal; [lia|f_equal; lia].
    + apply N.leb_gt in Hab, Hba. lia.
  - destruct (b <=? x) eqn:Hbx, (a <=? x) eqn:Hax; simpl;
      rewrite ?Hbx, ?Hax;
      destruct (a <=? b) eqn:Hab, (b <=? a) eqn:Hba; simpl;
      rewrite ?Hbx, ?Hax; auto;
      repeat match goal with
             | H : (_ <=? _) = true |- _ => apply N.leb_le in H
             | H : (_ <=? _) = false |- _ => apply N.leb_gt in H
             end; try lia.
    + f_equal; [lia|f_equal; lia].
    + now rewrite IH.
    + now rewrite IH.
    + now rewrite IH.
Qed.

Lemma sort_chars_perm (l l' : list N) :
  Permutation l l' -> sort_chars l = sort_chars l'.
Proof.
  induction 1; simpl; try congruence.
  apply insert_sorted_comm.
Qed.

Lemma is_punctuation_ascii (c : N) : is_punctuation c = true -> c < 128.
Proof.
  unfold is_punctuation. rewrite existsb_exists. intros [p [Hin Heq]].
  apply N.eqb_eq in Heq. subst p.
  assert (forallb is_ascii punctuation = true) as Hall by reflexivity.
  rewrite forallb_forall in Hall. apply is_ascii_lt. auto.
Qed.

Lemma not_punctuation_large (c : N) : 128 <= c -> not_punctuation c = true.
Proof.
  intros H. unfold not_punctuation. apply negb_true_iff.
  destruct (is_punctuation c) eqn:E; auto.
  apply is_punctuation_ascii in E. lia.
Qed.

Lemma is_low_surrogate_large (c : N) : is_low_surrogate c = true -> 128 <= c.
Proof.
  unfold is_low_surrogate, in_range. rewrite andb_true_iff, !N.leb_le. lia.
Qed.

Lemma is_high_surrogate_large (c : N) : is_high_surrogate c = true -> 128 <= c.
Proof.
  unfold is_high_surrogate, in_range. rewrite andb_true_iff, !N.leb_le. lia.
Qed.

Lemma is_high_surrogate_surrogate (c : N) :
  is_high_surrogate c = true -> is_surrogate c = true.
Proof.
  unfold is_high_surrogate, is_surrogate, in_range.
  rewrite !andb_true_iff, !N.leb_le. lia.
Qed.

(** Stripping punctuation from a well-formed string strips it from its code
    points: no surrogate pair is made or broken. *)
Lemma code_points_from_strip (s : jsstring) :
  forall pending,
    pending_high pending ->
    forallb (fun cp => negb (is_surrogate cp)) (code_points_from pending s)
    = true ->
    code_points_from pending (filter not_punctuation s)
    = filter not_punctuation (code_points_from pending s).
Proof.
  induction s as [|c s IH]; intros pending Hp Hwf.
  - destruct pending as [h|]; simpl in *; auto.
    rewrite (is_high_surrogate_surrogate h) in Hwf by (apply Hp; reflexivity).
    discriminate.
  - destruct pending as [h|]; cbn [code_points_from filter] in *.
    + destruct (is_low_surrogate c) eqn:Hlow.
      * rewrite (not_punctuation_large c) by now apply is_low_surrogate_large.
        cbn [code_points_from filter forallb] in *. rewrite Hlow.
        apply andb_true_iff in Hwf as [_ Hwf].
        rewrite not_punctuation_large
          by (unfold surrogate_pair; lia).
        f_equal. apply IH; [intros ? [=]|assumption].
      * cbn [forallb] in Hwf.
        rewrite (is_high_surrogate_surrogate h) in Hwf
          by (apply Hp; reflexivity).
        discriminate.
    + destruct (is_high_surrogate c) eqn:Hhigh.
      * rewrite (not_punctuation_large c) by now apply is_high_surrogate_large.
        cbn [code_points_from]. rewrite Hhigh.
        apply IH; [intros ? [= <-]; assumption|assumption].
      * cbn [forallb filter] in *. apply andb_true_iff in Hwf as [_ Hwf].
        destruct (not_punctuation c); cbn [code_points_from];
          rewrite ?Hhigh, IH; auto; intros ? [=].
Qed.

Lemma code_points_strip (s : jsstring) :
  well_formed s = true ->
  code_points (filter not_punctuation s)
  = filter not_punctuation (code_points s).
Proof.
  intros H. apply code_points_from_strip; [intros ? [=]|exact H].
Qed.

Lemma filter_perm {A} (p : A -> bool) (l l' : list A) :
  Permutation l l' -> Permutation (filter p l) (filter p l').
Proof.
  induction 1; simpl; auto.
  - destruct (p x); auto.
  - destruct (p x), (p y); auto. apply perm_swap.
  - etransitivity; eauto.
Qed.

Lemma forallb_filter_self {A} (p : A -> bool) (l : list A) :
  forallb p (filter p l) = true.
Proof.
  induction l as [|x l IH]; simpl; auto.
  destruct (p x) eqn:E; simpl; rewrite ?E; auto.
Qed.

Lemma well_formed_perm (s s' : jsstring) :
  well_formed s = true ->
  Permutation (code_points s) (code_points s') ->
  well_formed s' = true.
Proof.
  unfold well_formed. rewrite !forallb_forall. intros H Hperm cp Hin.
  apply H. apply (Permutation_in cp (Permutation_sym Hperm) Hin).
Qed.

(** C9, as the code has it: a string without unpaired surrogate and any
    string with the same characters, in any order, have the same key.  The
    characters are the code points of the string; white space is a character
    like any other. *)
Theorem normalizeString_permutation (U : UnicodeData) (s s' : jsstring) :
  well_formed s = true ->
  Permutation (code_points s) (code_points s') ->
  normalizeString s' = normalizeString s.
Proof.
  intros Hs Hperm.
  pose proof (well_formed_perm s s' Hs Hperm) as Hs'.
  unfold normalizeString.
  fold not_punctuation.
  set (a := filter is_ascii (normalize_NFKD (filter not_punctuation s))).
  set (a' := filter is_ascii (normalize_NFKD (filter not_punctuation s'))).
  assert (Ha : Permutation a' a).
  { unfold a, a', normalize_NFKD.
    rewrite !filter_ascii_utf16_encode, !code_points_strip by assumption.
    apply filter_perm.
    rewrite !canonical_order_perm.
    apply Permutation_flat_map, filter_perm. now symmetry. }
  rewrite !toLowerCase_ascii by apply forallb_filter_self.
  assert (E : sort_chars (filter (fun c => negb (is_whitespace c))
                                 (map ascii_lower a'))
              = sort_chars (filter (fun c => negb (is_whitespace c))
                                   (map ascii_lower a))).
  { apply sort_chars_perm, filter_perm, Permutation_map, Ha. }
  rewrite E. reflexivity.
Qed.

(** A witness for C9: a heading and the same heading read backwards. *)
Lemma normalizeString_permutation_witness :
  @normalizeString ascii_unicode (rev (js "Woolf, Virginia, 1882-1941"))
  = @normalizeString ascii_unicode (js "Woolf, Virginia, 1882-1941").
Proof.
  apply (normalizeString_permutation ascii_unicode).
  - reflexivity.
  - rewrite !code_points_ascii by reflexivity. apply Permutation_rev.
Defined.

(** C9 as stated does not hold, for the key is made from code points that
    the code reads after it has stripped punctuation from code units.  With
    U+1D400 written as its surrogate pair: moving the letter b between the
    two halves of the pair, a permutation of the code units of a string
    without unpaired surrogate, loses the letter a from the key; and in a
    string whose two halves are apart, separated by a comma, a permutation
    of the code points empties the key. *)
Lemma normalizeString_permutation_counterexample :
  Permutation [55349; 56320; 98] [55349; 98; 56320]
  /\ well_formed [55349; 56320; 98] = true
  /\ @normalizeString bold_unicode [55349; 56320; 98] = js "ab"
  /\ @normalizeString bold_unicode [55349; 98; 56320] = js "b"
  /\ Permutation (code_points [55349; 44; 56320])
                 (code_points [44; 56320; 55349])
  /\ well_formed [55349; 44; 56320] = false
  /\ @normalizeString bold_unicode [55349; 44; 56320] = js "a"
  /\ @normalizeString bold_unicode [44; 56320; 55349] = [].
Proof.
  split; [apply perm_skip, perm_swap|].
  split; [reflexivity|]. split; [reflexivity|]. split; [reflexivity|].
  split.
  { change (Permutation [55349; 44; 56320] [44; 56320; 55349]).
    apply (Permutation_cons_app [44; 56320] [] 55349). now rewrite app_nil_r. }
  repeat split; reflexivity.
Qed.

(** ** C6: from the numeric identifier to the URI *)

Lemma digits_fuel_nonempty (fuel : nat) (n : N) (acc : jsstring) :
  digits_fuel (S fuel) n acc <> [].
Proof.
  revert n acc. induction fuel as [|fuel IH]; intros n acc.
  - simpl. destruct (n <? 10); discriminate.
  - change (digits_fuel (S (S fuel)) n acc)
      with (let acc' := (48 + n mod 10) :: acc in
            if n <? 10 then acc' else digits_fuel (S fuel) (n / 10) acc').
    cbv zeta. destruct (n <? 10); [discriminate|apply IH].
Qed.

Lemma String_of_N_nonempty (n : N) : String_of_N n <> [].
Proof. apply digits_fuel_nonempty. Qed.

Lemma digits_fuel_value (fuel : nat) :
  forall n acc,
    n < 2 ^ N.of_nat fuel ->
    fold_left (fun a c => 10 * a + (c - 48)) (digits_fuel fuel n acc) 0
    = fold_left (fun a c => 10 * a + (c - 48)) acc n.
Proof.
  induction fuel as [|fuel IH]; intros n acc Hn.
  - cbn in Hn. assert (n = 0) as -> by lia. reflexivity.
  - cbn [digits_fuel]. destruct (N.ltb_spec n 10) as [H10|H10].
    + cbn [fold_left]. rewrite N.mod_small by lia.
      replace (10 * 0 + (48 + n - 48)) with n by lia. reflexivity.
    + rewrite IH.
      * cbn [fold_left].
        replace (10 * (n / 10) + (48 + n mod 10 - 48)) with n; [reflexivity|].
        divmod.
      * rewrite Nat2N.inj_succ, N.pow_succ_r' in Hn.
        apply N.Div0.div_lt_upper_bound. lia.
Qed.

(** The decimal digits that [String] writes read back as the number. *)
Lemma decimal_value_String_of_N (n : N) : decimal_value (String_of_N n) = n.
Proof.
  unfold decimal_value, String_of_N. rewrite digits_fuel_value; [reflexivity|].
  destruct n as [|p]; [reflexivity|].
  rewrite Nat2N.inj_succ, N2Nat.id.
  apply N.log2_spec. lia.
Qed.

Lemma digits_fuel_digits (fuel : nat) :
  forall n acc,
    forallb is_digit acc = true ->
    forallb is_digit (digits_fuel fuel n acc) = true.
Proof.
  induction fuel as [|fuel IH]; intros n acc Hacc; [exact Hacc|].
  cbn [digits_fuel].
  assert (Hd : forallb is_digit ((48 + n mod 10) :: acc) = true).
  { cbn [forallb]. rewrite Hacc, andb_true_r.
    unfold is_digit, in_range. rewrite andb_true_iff, !N.leb_le. divmod. }
  destruct (n <? 10); [exact Hd|now apply IH].
Qed.

Lemma String_of_N_digits (n : N) : forallb is_digit (String_of_N n) = true.
Proof. now apply digits_fuel_digits. Qed.


(** ** C4: the name of a field *)

(** C4 fails on a repeated code: the two values are stored as an array,
    which [join] prints with a comma, so the name is "Smith,Jones" and not
    "Smith Jones". *)
Theorem extractNameFromSubfields_repeated_code :
  BinaryMARCParser.parseSubfields repeated_a
  = [(js "a", SArr [js "Smith"; js "Jones"])]
  /\ extractNameFromSubfields (BinaryMARCParser.parseSubfields repeated_a)
     = js "Smith,Jones"
  /\ extractNameFromSubfields (BinaryMARCParser.parseSubfields repeated_a)
     <> js "Smith Jones".
Proof. repeat split; try reflexivity. vm_compute. discriminate. Qed.

(** ** C3 and C10: the resolver *)

(** *** The distance

    [levenshteinDistance] fills the matrix of the classic recurrence. *)

Lemma lev_at_step (s t : jsstring) (i j : nat) :
  lev_at s t (S i) (S j)
  = min3 (lev_at s t i (S j) + 1) (lev_at s t (S i) j + 1)
         (lev_at s t i j + if nth i s 0 =? nth j t 0 then 0 else 1).
Proof. reflexivity. Qed.

Lemma lev_at_0 (s t : jsstring) (i : nat) : lev_at s t i 0 = N.of_nat i.
Proof. destruct i; reflexivity. Qed.

(** A row of the matrix holds the distances of one prefix of [str1]. *)
Lemma fill_row_lev (s t : jsstring) (i : nat) (t2 : jsstring) :
  forall t1,
    t = t1 ++ t2 ->
    fill_row (nth i s 0) t2
      (map (lev_at s t i) (seq (List.length t1) (S (List.length t2))))
      (lev_at s t (S i) (List.length t1))
    = map (lev_at s t (S i)) (seq (S (List.length t1)) (List.length t2)).
Proof.
  induction t2 as [|c2 t2 IH]; intros t1 Ht; [reflexivity|].
  cbn [List.length seq map fill_row].
  assert (Hc : nth (List.length t1) t 0 = c2).
  { rewrite Ht, app_nth2, Nat.sub_diag by lia. reflexivity. }
  rewrite lev_at_step, Hc. f_equal.
  specialize (IH (t1 ++ [c2])).
  rewrite length_app, Nat.add_1_r in IH. cbn [seq map] in IH.
  rewrite lev_at_step, Hc in IH.
  apply IH. rewrite <- app_assoc. exact Ht.
Qed.

Lemma fill_matrix_lev (s t : jsstring) (s2 : jsstring) :
  forall s1,
    s = s1 ++ s2 ->
    fill_matrix s2 t (N.of_nat (S (List.length s1)))
      (map (lev_at s t (List.length s1)) (seq 0 (S (List.length t))))
    = map (fun i => map (lev_at s t i) (seq 0 (S (List.length t))))
          (seq (S (List.length s1)) (List.length s2)).
Proof.
  induction s2 as [|c1 s2 IH]; intros s1 Hs; [reflexivity|].
  cbn [fill_matrix List.length].
  assert (Hc : c1 = nth (List.length s1) s 0).
  { rewrite Hs, app_nth2, Nat.sub_diag by lia. reflexivity. }
  assert (Hrow : N.of_nat (S (List.length s1))
                 :: fill_row c1 t
                      (map (lev_at s t (List.length s1))
                           (seq 0 (S (List.length t))))
                      (N.of_nat (S (List.length s1)))
                 = map (lev_at s t (S (List.length s1)))
                       (seq 0 (S (List.length t)))).
  { pose proof (fill_row_lev s t (List.length s1) t [] eq_refl) as H.
    cbn [List.length] in H. rewrite lev_at_0, <- Hc in H.
    rewrite H. reflexivity. }
  cbv zeta. rewrite Hrow.
  change (seq (S (List.length s1)) (S (List.length s2)))
    with (S (List.length s1) :: seq (S (S (List.length s1))) (List.length s2)).
  cbn [map]. f_equal.
  specialize (IH (s1 ++ [c1])).
  rewrite length_app, Nat.add_1_r in IH.
  replace (N.of_nat (S (List.length s1)) + 1)
    with (N.of_nat (S (S (List.length s1)))) by lia.
  apply IH. rewrite <- app_assoc. exact Hs.
Qed.

(** The matrix that [levenshteinDistance] fills is that of the recurrence,
    and the function answers its last cell. *)
Lemma levenshteinDistance_edit_distance (str1 str2 : jsstring) :
  levenshteinDistance str1 str2 = edit_distance str1 str2.
Proof.
  unfold levenshteinDistance, edit_distance. cbv zeta.
  assert (Hrow0 : map N.of_nat (seq 0 (S (List.length str2)))
                  = map (lev_at str1 str2 0) (seq 0 (S (List.length str2))))
    by reflexivity.
  rewrite Hrow0.
  pose proof (fill_matrix_lev str1 str2 str1 [] eq_refl) as H.
  cbn [List.length] in H. change (N.of_nat 1) with 1 in H. rewrite H.
  change (map (lev_at str1 str2 0) (seq 0 (S (List.length str2)))
          :: map (fun i => map (lev_at str1 str2 i)
                               (seq 0 (S (List.length str2))))
                 (seq 1 (List.length str1)))
    with (map (fun i => map (lev_at str1 str2 i)
                            (seq 0 (S (List.length str2))))
              (seq 0 (S (List.length str1)))).
  set (row := fun i => map (lev_at str1 str2 i) (seq 0 (S (List.length str2)))).
  rewrite (nth_indep _ [] (row 0%nat))
    by (rewrite length_map, length_seq; lia).
  rewrite map_nth, seq_nth by lia. unfold row.
  rewrite (nth_indep _ 0 (lev_at str1 str2 (0 + List.length str1) 0))
    by (rewrite length_map, length_seq; lia).
  rewrite map_nth, seq_nth by lia. reflexivity.
Qed.

(** From or to the empty string the distance is the length of the other
    string. *)
Lemma edit_distance_nil_l (t : jsstring) :
  edit_distance [] t = N.of_nat (List.length t).
Proof. reflexivity. Qed.

Lemma edit_distance_nil_r (s : jsstring) :
  edit_distance s [] = N.of_nat (List.length s).
Proof. unfold edit_distance. apply lev_at_0. Qed.

Lemma min3_comm12 (a b c : N) : min3 a b c = min3 b a c.
Proof. unfold min3. lia. Qed.

Lemma lev_at_sym (s t : jsstring) (i : nat) :
  forall j, lev_at s t i j = lev_at t s j i.
Proof.
  induction i as [|i IHi]; intros j.
  - now rewrite lev_at_0.
  - induction j as [|j IHj]; [now rewrite lev_at_0|].
    rewrite !lev_at_step, IHj, !IHi, (N.eqb_sym (nth i s 0)).
    apply min3_comm12.
Qed.

(** The distance does not depend on the order of the two strings, and a
    string is at distance 0 from itself. *)
Lemma edit_distance_sym (s t : jsstring) :
  edit_distance s t = edit_distance t s.
Proof. apply lev_at_sym. Qed.

Lemma edit_distance_refl (s : jsstring) : edit_distance s s = 0.
Proof.
  unfold edit_distance.
  assert (H : forall i, lev_at s s i i = 0).
  { induction i as [|i IH]; [reflexivity|].
    rewrite lev_at_step, IH, N.eqb_refl. unfold min3. lia. }
  apply H.
Qed.

(** *** The scan of the candidates *)

Section ResolverFacts.
Context {U : UnicodeData}.

(** The loop, started with a best match [m0], keeps [m0] unless a candidate
    scores strictly less, and then answers the first minimum. *)
Lemma best_loop_some (name : jsstring) (items : list (N * jsstring)) :
  forall m0,
    (best_loop (normalize_for_distance name) items
               (Some m0) (Some (distance m0)) = Some m0
     /\ forall j c', nth_error items j = Some c' ->
                     distance m0 <= candidate_distance name (snd c'))
    \/ (exists k c,
           first_minimum name items k c
           /\ best_loop (normalize_for_distance name) items
                        (Some m0) (Some (distance m0))
              = Some (candidate_match name c)
           /\ candidate_distance name (snd c) < distance m0).
Proof.
  induction items as [|[l lab] items IH]; intros m0.
  - left. split; [reflexivity|]. intros [|j] c'; discriminate.
  - cbn [best_loop lt_best].
    fold (candidate_distance name lab).
    destruct (candidate_distance name lab <? distance m0) eqn:Hlt.
    + apply N.ltb_lt in Hlt.
      set (m1 := {| lccn := l; label := Some lab;
                    distance := candidate_distance name lab |}).
      right.
      destruct (IH m1) as [[E Hall]|(k & c & (Hk & Hmin & Hfirst) & E & Hc)].
      * exists O, (l, lab). repeat split; auto.
        -- intros [|j] c' Hj; simpl in *.
           ++ injection Hj as <-. apply N.le_refl.
           ++ apply (Hall j c' Hj).
        -- intros j c' Hj. inversion Hj.
      * exists (S k), c. simpl in Hc. repeat split; auto.
        -- intros [|j] c' Hj; simpl in *.
           ++ injection Hj as <-. simpl. lia.
           ++ apply (Hmin j c' Hj).
        -- intros [|j] c' Hj Hn; simpl in *.
           ++ injection Hn as <-. simpl. lia.
           ++ apply (Hfirst j c'); [lia|assumption].
        -- lia.
    + apply N.ltb_ge in Hlt.
      destruct (IH m0) as [[E Hall]|(k & c & (Hk & Hmin & Hfirst) & E & Hc)].
      * left. split; auto.
        intros [|j] c' Hj; simpl in *.
        -- injection Hj as <-. exact Hlt.
        -- apply (Hall j c' Hj).
      * right. exists (S k), c. repeat split; auto.
        -- intros [|j] c' Hj; simpl in *.
           ++ injection Hj as <-. simpl. lia.
           ++ apply (Hmin j c' Hj).
        -- intros [|j] c' Hj Hn; simpl in *.
           ++ injection Hn as <-. simpl. lia.
           ++ apply (Hfirst j c'); [lia|assumption].
Qed.

Lemma findBestLCCNMatch_first_minimum (name : jsstring)
    (items : list (N * jsstring)) :
  items <> [] ->
  exists k c,
    first_minimum name items k c
    /\ findBestLCCNMatch name (Candidates items)
       = Some (candidate_match name c).
Proof.
  destruct items as [|[l lab] items]; [congruence|]. intros _.
  cbn [findBestLCCNMatch best_loop lt_best].
  fold (candidate_distance name lab).
  set (m1 := {| lccn := l; label := Some lab;
                distance := candidate_distance name lab |}).
  destruct (best_loop_some name items m1)
    as [[E Hall]|(k & c & (Hk & Hmin & Hfirst) & E & Hc)].
  - exists O, (l, lab). split; [|exact E].
    repeat split; auto.
    + intros [|j] c' Hj; simpl in *.
      * injection Hj as <-. apply N.le_refl.
      * apply (Hall j c' Hj).
    + intros j c' Hj. inversion Hj.
  - exists (S k), c. simpl in Hc. split; [|exact E].
    repeat split; auto.
    + intros [|j] c' Hj; simpl in *.
      * injection Hj as <-. simpl. lia.
      * apply (Hmin j c' Hj).
    + intros [|j] c' Hj Hn; simpl in *.
      * injection Hn as <-. simpl. lia.
      * apply (Hfirst j c'); [lia|assumption].
Qed.
End ResolverFacts.

Lemma added_status_push (before : Report) (r : Report) (f : Field) (d : Detail) :
  details r = details before ->
  added_status before (Returned (f, push_detail r d)) = Some (status d).
Proof.
  intros E. unfold added_status, push_detail. cbn [details].
  rewrite E, length_app. cbn [List.length].
  replace (List.length (details before) + 1)%nat
    with (S (List.length (details before))) by lia.
  rewrite Nat.eqb_refl, nth_error_app2, Nat.sub_diag by lia. reflexivity.
Qed.

(** The class that the code writes as two ranges is the list of the
    specification. *)
Lemma alphanumerics_class (c : N) :
  existsb (N.eqb c) alphanumerics = is_lower c || is_digit c.
Proof.
  destruct (N.ltb_spec c 123) as [Hlt|Hge].
  - assert (H : forallb
                  (fun n => Bool.eqb (existsb (N.eqb n) alphanumerics)
                                     (is_lower n || is_digit n))
                  (map N.of_nat (seq 0 123)) = true) by (vm_compute; reflexivity).
    rewrite forallb_forall in H.
    apply eqb_prop, H, in_map_iff.
    exists (N.to_nat c). split; [apply N2Nat.id|].
    apply in_seq. lia.
  - assert (Hl : is_lower c || is_digit c = false).
    { unfold is_lower, is_digit, in_range.
      apply orb_false_iff; split; apply andb_false_iff; right;
        apply N.leb_gt; lia. }
    rewrite Hl. apply not_true_is_false. intros H.
    apply existsb_exists in H as (x & Hin & Hx).
    apply N.eqb_eq in Hx. subst x.
    assert (Hb : forallb (fun n => n <? 123) alphanumerics = true)
      by (vm_compute; reflexivity).
    rewrite forallb_forall in Hb. apply Hb, N.ltb_lt in Hin. lia.
Qed.

Lemma normalize_for_distance_spec (U : UnicodeData) (s : jsstring) :
  normalize_for_distance s = normalized_label s.
Proof.
  unfold normalize_for_distance, normalized_label, strip_to_alphanumerics.
  apply filter_ext. intros c. symmetry. apply alphanumerics_class.
Qed.

(** The score that the code computes is the Levenshtein distance of the
    specification. *)
Lemma candidate_distance_spec (U : UnicodeData) (name label : jsstring) :
  candidate_distance name label = label_distance name label.
Proof.
  unfold candidate_distance, label_distance.
  now rewrite levenshteinDistance_edit_distance, !normalize_for_distance_spec.
Qed.

(** C3: among the candidates the resolver answers the first one of least
    Levenshtein distance between the name and the label, both lower-cased and
    stripped to a-z and 0-9, and it answers that distance.  The threshold
    check that follows adds a poor_match entry exactly when the distance
    exceeds 10, and then the field stays as it is.  Up to 10 the candidate is
    accepted: with an identifier that has a URI the entry says updated and
    the field holds the URI in subfield 0 (in an XML file the field must
    have its element, otherwise the update raises a TypeError); with an
    identifier that has none the entry says error and the field stays as it
    is. *)
Theorem resolver_first_minimum_and_threshold (U : UnicodeData)
    (name : jsstring) (items : list (N * jsstring)) :
  items <> [] ->
  exists k c,
    nth_error items k = Some c
    /\ (forall j c', nth_error items j = Some c' ->
                     label_distance name (snd c)
                     <= label_distance name (snd c'))
    /\ (forall j c', (j < k)%nat -> nth_error items j = Some c' ->
                     label_distance name (snd c)
                     < label_distance name (snd c'))
    /\ findBestLCCNMatch name (Candidates items)
       = Some {| lccn := fst c; label := Some (snd c);
                 distance := label_distance name (snd c) |}
    /\ forall fileType i f subfields report m,
        findBestLCCNMatch name (Candidates items) = Some m ->
        let outcome := apply_match fileType i f subfields report name m in
        (added_status report outcome = Some (js "poor_match")
         <-> 10 < label_distance name (snd c))
        /\ (10 < label_distance name (snd c) ->
            exists report', outcome = Returned (f, report'))
        /\ (label_distance name (snd c) <= 10 ->
            forall uri,
              createLCCNUri (fst c) = Some uri ->
              field_subfields f = Some subfields ->
              (fileType = js "xml" -> element f <> None) ->
              exists f' report',
                outcome = Returned (f', report')
                /\ added_status report outcome = Some (js "updated")
                /\ field_subfields f'
                   = Some (obj_set subfields (js "0") (SStr uri)))
        /\ (label_distance name (snd c) <= 10 ->
            forall uri,
              createLCCNUri (fst c) = Some uri ->
              fileType = js "xml" ->
              element f = None \/ field_subfields f = None ->
              outcome = Thrown TypeError)
        /\ (label_distance name (snd c) <= 10 ->
            createLCCNUri (fst c) = None ->
            exists report',
              outcome = Returned (f, report')
              /\ added_status report outcome = Some (js "error")).
Proof.
  intros Hne.
  destruct (findBestLCCNMatch_first_minimum name items Hne)
    as (k & c & (Hk & Hmin & Hfirst) & E).
  unfold candidate_match in E. rewrite candidate_distance_spec in E.
  exists k, c. split; [exact Hk|].
  split; [intros j c' Hj; rewrite <- !candidate_distance_spec; eauto|].
  split; [intros j c' Hlt Hj; rewrite <- !candidate_distance_spec; eauto|].
  split; [exact E|].
  intros fileType i f subfields report m Hm outcome. subst outcome.
  rewrite E in Hm. injection Hm as <-.
  set (dist := label_distance name (snd c)).
  unfold apply_match. cbn [distance lccn].
  unfold MAX_LEVENSHTEIN_DISTANCE.
  destruct (10 <? dist) eqn:Hlt.
  - apply N.ltb_lt in Hlt.
    split; [rewrite added_status_push by reflexivity; tauto|].
    split; [intros _; eexists; reflexivity|].
    repeat split; intros; lia.
  - apply N.ltb_ge in Hlt.
    split.
    { split; [|lia]. intros H. exfalso.
      destruct (createLCCNUri (fst c)) as [uri|].
      - destruct (if jsstring_eqb fileType (js "xml")
                  then MARCXMLParser.updateSubfieldZero f uri
                  else Some (set_subfields f
                               (obj_set subfields (js "0") (SStr uri))))
          as [f'|]; [|discriminate H].
        rewrite added_status_push in H by reflexivity. discriminate H.
      - rewrite added_status_push in H by reflexivity. discriminate H. }
    split; [lia|].
    split; [|split].
    + intros _ uri Huri Hsub Hxml. rewrite Huri.
      destruct (jsstring_eqb fileType (js "xml")) eqn:Hft.
      * apply jsstring_eqb_eq in Hft. specialize (Hxml Hft).
        unfold MARCXMLParser.updateSubfieldZero.
        unfold field_subfields in Hsub.
        destruct (element f) as [e|]; [|congruence].
        destruct (body f) as [|ind1 ind2 sf raw]; [discriminate|].
        injection Hsub as ->.
        eexists. eexists. split; [reflexivity|].
        split; [now rewrite added_status_push|reflexivity].
      * eexists. eexists. split; [reflexivity|].
        split; [now rewrite added_status_push|].
        unfold field_subfields, set_subfields in *.
        destruct (body f); [discriminate|reflexivity].
    + intros _ uri Huri -> Hno. rewrite Huri.
      change (jsstring_eqb (js "xml") (js "xml")) with true. cbv iota.
      unfold MARCXMLParser.updateSubfieldZero, field_subfields in *.
      destruct Hno as [-> |Hno]; [reflexivity|].
      destruct (element f); [|reflexivity].
      destruct (body f); [reflexivity|discriminate].
    + intros _ Huri. rewrite Huri. eexists. split; [reflexivity|].
      now rewrite added_status_push.
Qed.

(** A witness for C3: the three candidates of the sample heading. *)
Lemma resolver_first_minimum_and_threshold_witness :
  exists k c,
    let name := js "S. E. A." in
    let items := [(1, js "S. E. A."); (2, js "Esa"); (3, js "E. A. S.")] in
    nth_error items k = Some c
    /\ (forall j c', nth_error items j = Some c' ->
                     @label_distance ascii_unicode name (snd c)
                     <= @label_distance ascii_unicode name (snd c'))
    /\ @findBestLCCNMatch ascii_unicode name (Candidates items)
       = Some {| lccn := fst c; label := Some (snd c);
                 distance := @label_distance ascii_unicode name (snd c) |}.
Proof.
  destruct (resolver_first_minimum_and_threshold ascii_unicode
              (js "S. E. A.")
              [(1, js "S. E. A."); (2, js "Esa"); (3, js "E. A. S.")])
    as (k & c & Hk & Hmin & _ & E & _); [discriminate|].
  exists k, c. auto.
Defined.

(** The sample of the specification: the first candidate wins with distance
    0. *)
Example findBestLCCNMatch_sea :
  @findBestLCCNMatch ascii_unicode (js "S. E. A.")
     (Candidates [(1, js "S. E. A."); (2, js "Esa"); (3, js "E. A. S.")])
  = Some {| lccn := 1; label := Some (js "S. E. A."); distance := 0 |}.
Proof. reflexivity. Qed.

(** At the threshold: a distance of 10 is accepted, 11 is a poor match. *)
Example threshold_distance_10 :
  let m := {| lccn := 179041849; label := Some (js "k"); distance := 10 |} in
  added_status empty_report
    (apply_match (js "binary") 0 sample_field
                 [(js "a", SStr (js "abcdefghijk"))] empty_report
                 (js "abcdefghijk") m)
  = Some (js "updated").
Proof. reflexivity. Qed.

Example threshold_distance_11 :
  let m := {| lccn := 179041849; label := Some []; distance := 11 |} in
  apply_match (js "binary") 0 sample_field
              [(js "a", SStr (js "abcdefghijk"))] empty_report
              (js "abcdefghijk") m
  = Returned (sample_field,
              push_detail (count_poorMatch empty_report)
                (detail_poor_match 0 sample_field (js "abcdefghijk") m)).
Proof. reflexivity. Qed.

(** ** C10: an empty candidate list *)

(** C10: on a non-empty list the resolver always has an answer, on the empty
    list it answers [null]; the pipeline then reads [match.distance] and
    raises a [TypeError] instead of adding a report entry. *)
Theorem empty_candidates_fault (U : UnicodeData)
    (trie_lookup : jsstring -> Z) (lookupDecoder : LookupDecoder.t)
    (fileType : jsstring) (i : N) (f : Field) (report : Report)
    (subfields : object) (trieId : Z) :
  includes nameFieldTags (tag f) = true ->
  field_subfields f = Some subfields ->
  extractNameFromSubfields subfields <> [] ->
  trie_lookup (normalizeString (extractNameFromSubfields subfields)) = trieId ->
  trieId <> (-1)%Z ->
  LookupDecoder.get lookupDecoder trieId = Some (Candidates []) ->
  (forall name items,
      items <> [] ->
      exists m, findBestLCCNMatch name (Candidates items) = Some m)
  /\ (forall name, findBestLCCNMatch name (Candidates []) = None)
  /\ process_field trie_lookup lookupDecoder fileType i f report
     = Thrown TypeError.
Proof.
  intros Htag Hsub Hname Hid Hfound Hget. split; [|split].
  - intros name items Hne.
    destruct (findBestLCCNMatch_first_minimum name items Hne)
      as (k & c & _ & E).
    eauto.
  - reflexivity.
  - unfold process_field. rewrite Htag, Hsub. cbn [negb].
    destruct (extractNameFromSubfields subfields) as [|c name] eqn:En;
      [congruence|].
    cbn [nonempty negb]. rewrite Hid.
    destruct (Z.eqb_spec trieId (-1)); [congruence|].
    rewrite Hget. reflexivity.
Qed.

Lemma empty_candidates_fault_witness :
  (forall name items,
      items <> [] ->
      exists m, @findBestLCCNMatch ascii_unicode name (Candidates items)
                = Some m)
  /\ (forall name, @findBestLCCNMatch ascii_unicode name (Candidates [])
                   = None)
  /\ @process_field ascii_unicode (fun _ => 0%Z) empty_entry_table
       (js "binary") 0 sample_field empty_report
     = Thrown TypeError.
Proof.
  apply (empty_candidates_fault ascii_unicode (fun _ => 0%Z) empty_entry_table
           (js "binary") 0 sample_field empty_report
           [(js "a", SStr (js "abcdefghijk"))] 0%Z).
  - reflexivity.
  - reflexivity.
  - vm_compute. discriminate.
  - reflexivity.
  - discriminate.
  - reflexivity.
Defined.

(** ** C8: when a field is changed *)



(** ** C5: the detection of the format *)

Section PipelineFacts.
Context {U : UnicodeData}.
Variable MARCXML_parse : jsstring -> option (list MarcRecord).
Variable MARCXML_serialize : list MarcRecord -> jsstring.
Variable trie_lookup : jsstring -> Z.
Variable lookupDecoder : LookupDecoder.t.

Lemma detectFileType_cases (file : File) :
  detectFileType file = js "xml" \/ detectFileType file = js "binary".
Proof.
  unfold detectFileType.
  destruct (ends_with (js ".xml") _); auto.
  destruct (_ || _); auto.
Qed.

Lemma process_field_thrown fileType i f report e :
  process_field trie_lookup lookupDecoder fileType i f report = Thrown e ->
  e = TypeError.
Proof.
  unfold process_field, apply_match.
  repeat match goal with
         | |- context [match ?x with _ => _ end] => destruct x
         end; congruence.
Qed.

Lemma process_fields_thrown fileType i fs :
  forall report e,
    process_fields trie_lookup lookupDecoder fileType i fs report = Thrown e ->
    e = TypeError.
Proof.
  induction fs as [|f fs IH]; intros report e; cbn [process_fields];
    [discriminate|].
  destruct (process_field _ _ _ _ _ _) as [[f' r']|e'] eqn:E.
  - destruct (process_fields _ _ _ _ _ _) as [[fs' r'']|e''] eqn:E';
      [discriminate|].
    intros [= <-]. eapply IH, E'.
  - intros [= <-]. eapply process_field_thrown, E.
Qed.

Lemma process_records_thrown fileType n rs :
  forall i report e,
    snd (process_records trie_lookup lookupDecoder fileType n i rs report)
    = Thrown e ->
    e = TypeError.
Proof.
  induction rs as [|r rs IH]; intros i report e; cbn [process_records];
    [discriminate|].
  destruct (process_fields _ _ _ _ _ _) as [[fs r']|e'] eqn:E.
  - destruct (process_records _ _ _ _ _ _ _) as [events rest] eqn:E'.
    cbn [snd]. destruct rest as [[rs' r'']|e''] eqn:Er; [discriminate|].
    intros [= <-]. apply (IH (i + 1) r'). now rewrite E'.
  - cbn [snd]. intros [= <-]. eapply process_fields_thrown, E.
Qed.

Lemma read_and_parse_thrown (file : File) fileType e :
  fileType = js "xml" \/ fileType = js "binary" ->
  snd (read_and_parse MARCXML_parse file fileType) = Thrown e ->
  e <> UnsupportedFileType.
Proof.
  intros [-> | ->]; unfold read_and_parse; cbn [jsstring_eqb js].
  - change (jsstring_eqb (js "xml") (js "binary")) with false.
    change (jsstring_eqb (js "xml") (js "xml")) with true. cbv iota.
    repeat match goal with
           | |- context [match ?x with _ => _ end] => destruct x
           end; cbn [snd]; congruence.
  - change (jsstring_eqb (js "binary") (js "binary")) with true. cbv iota.
    destruct (arrayBuffer file); cbn [snd]; congruence.
Qed.

Lemma finalize_thrown file fileType records report e :
  finalize MARCXML_serialize file fileType records report = Thrown e ->
  e <> UnsupportedFileType.
Proof.
  unfold finalize.
  repeat match goal with
         | |- context [match ?x with _ => _ end] => destruct x
         end; congruence.
Qed.

Lemma processMARCFile_not_unsupported (file : File) :
  snd (processMARCFile MARCXML_parse MARCXML_serialize trie_lookup
                       lookupDecoder file)
  <> Thrown UnsupportedFileType.
Proof.
  unfold processMARCFile.
  destruct (read_and_parse _ _ _) as [events [records|e]] eqn:E.
  - destruct (process_records _ _ _ _ _ _ _) as [events' [[rs r]|e]] eqn:E'.
    + destruct (finalize _ _ _ _ _) as [res|e] eqn:Ef; cbn [snd];
        [discriminate|].
      intros [= ->]. now apply finalize_thrown in Ef.
    + cbn [snd]. intros [= ->].
      assert (UnsupportedFileType = TypeError); [|discriminate].
      eapply process_records_thrown. now rewrite E'.
  - cbn [snd]. intros [= ->].
    eapply read_and_parse_thrown; [apply detectFileType_cases| |reflexivity].
    now rewrite E.
Qed.

Lemma read_and_parse_xml_events (file : File) (t : jsstring) :
  size file <= 524288000 ->
  text file = Some t ->
  t <> [] ->
  In NewXMLParser (fst (read_and_parse MARCXML_parse file (js "xml")))
  /\ In ParseCalled (fst (read_and_parse MARCXML_parse file (js "xml"))).
Proof.
  intros Hsize Ht Hne. unfold read_and_parse.
  change (jsstring_eqb (js "xml") (js "binary")) with false.
  change (jsstring_eqb (js "xml") (js "xml")) with true. cbv iota.
  destruct (N.ltb_spec 524288000 (size file)); [lia|].
  rewrite Ht. destruct t; [congruence|]. cbn [nonempty negb].
  destruct (MARCXML_parse _); cbn [fst]; rewrite ?in_app_iff; simpl; auto 10.
Qed.

Lemma processMARCFile_events_prefix (file : File) :
  exists rest,
    fst (processMARCFile MARCXML_parse MARCXML_serialize trie_lookup
                         lookupDecoder file)
    = Progress (js "reading") (Some 0)
        :: fst (read_and_parse MARCXML_parse file (detectFileType file))
        ++ rest.
Proof.
  unfold processMARCFile.
  destruct (read_and_parse _ _ _) as [events [records|e]].
  - destruct (process_records _ _ _ _ _ _ _) as [events' [[rs r]|e]].
    + destruct (finalize _ _ _ _ _); cbn [fst app]; eexists; reflexivity.
    + cbn [fst app]; eexists; reflexivity.
  - exists []. cbn [fst app]. now rewrite app_nil_r.
Qed.
End PipelineFacts.

(** C5, as the code has it: the type of a file is always xml or binary, and
    a name that ends in neither .xml nor .mrc nor .marc is taken for XML.
    The pipeline therefore never raises the unsupported-format failure; for
    such a name it builds the XML parser and calls it, once the size check
    has passed and the text has been read and is not empty. *)
Theorem unknown_extension_is_xml (U : UnicodeData)
    (MARCXML_parse : jsstring -> option (list MarcRecord))
    (MARCXML_serialize : list MarcRecord -> jsstring)
    (trie_lookup : jsstring -> Z) (lookupDecoder : LookupDecoder.t)
    (file : File) :
  let run := processMARCFile MARCXML_parse MARCXML_serialize trie_lookup
                             lookupDecoder file in
  (detectFileType file = js "xml" \/ detectFileType file = js "binary")
  /\ snd run <> Thrown UnsupportedFileType
  /\ (ends_with (js ".mrc") (toLowerCase (name file)) = false ->
      ends_with (js ".marc") (toLowerCase (name file)) = false ->
      detectFileType file = js "xml"
      /\ forall t,
          size file <= 524288000 -> text file = Some t -> t <> [] ->
          In NewXMLParser (fst run) /\ In ParseCalled (fst run)).
Proof.
  intros run. split; [apply detectFileType_cases|].
  split; [apply processMARCFile_not_unsupported|].
  intros Hmrc Hmarc.
  assert (E : detectFileType file = js "xml").
  { unfold detectFileType. rewrite Hmrc, Hmarc.
    destruct (ends_with (js ".xml") _); reflexivity. }
  split; [exact E|]. intros t Hsize Ht Hne.
  destruct (processMARCFile_events_prefix MARCXML_parse MARCXML_serialize
              trie_lookup lookupDecoder file) as [rest Hrest].
  destruct (read_and_parse_xml_events MARCXML_parse file t Hsize Ht Hne)
    as [H1 H2].
  subst run. rewrite Hrest, E.
  split; right; apply in_or_app; left; assumption.
Qed.

(** C5 as stated does not hold: for notes.txt the XML parser is built and
    called, and the failure that ends the run is the parser's, not the
    unsupported-format one. *)
Lemma unknown_extension_counterexample :
  let run := @processMARCFile ascii_unicode (fun _ => None) (fun _ => [])
                              (fun _ => (-1)%Z) [] notes_txt in
  In NewXMLParser (fst run)
  /\ In ParseCalled (fst run)
  /\ snd run = Thrown XmlParsingError
  /\ snd run <> Thrown UnsupportedFileType.
Proof.
  vm_compute. repeat split; auto 10. discriminate.
Qed.

(** ** C7: the scan of a buffer *)

(** A record that does not decode ends the scan with the records read so
    far. *)
Lemma parse_loop_stops (fuel : nat) (data : list byte) (offset : Z)
    (records : list MarcRecord) :
  parseRecord data offset = None ->
  parse_loop fuel data offset records = records.
Proof.
  intros H. destruct fuel as [|fuel]; [reflexivity|].
  cbn [parse_loop]. rewrite H.
  destruct (_ <? _)%Z; [|reflexivity].
  destruct (_ || _); reflexivity.
Qed.

(** The records read so far are never dropped. *)
Lemma parse_loop_keeps (fuel : nat) (data : list byte) :
  forall offset records,
    parse_loop fuel data offset records
    = records ++ parse_loop fuel data offset [].
Proof.
  induction fuel as [|fuel IH]; intros offset records; cbn [parse_loop].
  - now rewrite app_nil_r.
  - destruct (_ <? _)%Z; [|now rewrite app_nil_r].
    destruct (_ || _); [now rewrite app_nil_r|].
    destruct (parseRecord data offset) as [record|]; [|now rewrite app_nil_r].
    rewrite (IH _ (records ++ [record])), (IH _ ([] ++ [record])).
    now rewrite <- app_assoc.
Qed.

Lemma slice_nat (data : list byte) (x w : nat) :
  slice data (Some (Z.of_nat x)) (Some (Z.of_nat x + Z.of_nat w)%Z)
  = firstn w (skipn x data).
Proof.
  unfold slice, to_integer, relative_index.
  destruct (Z.ltb_spec (Z.of_nat x) 0); [lia|].
  destruct (Z.ltb_spec (Z.of_nat x + Z.of_nat w) 0); [lia|].
  set (len := List.length data).
  destruct (Nat.le_gt_cases x len) as [Hx|Hx].
  - rewrite (Z.min_l (Z.of_nat x)), Nat2Z.id by lia.
    destruct (Nat.le_gt_cases (x + w) len) as [Hw|Hw].
    + rewrite Z.min_l by lia. f_equal. lia.
    + rewrite Z.min_r by lia.
      rewrite !firstn_all2; auto; rewrite length_skipn; fold len; lia.
  - rewrite !Z.min_r by lia. rewrite Z.sub_diag. cbn [Z.to_nat firstn].
    rewrite (skipn_all2 data) by (fold len; lia). now destruct w.
Qed.

Lemma slice_nat0 (data : list byte) (w : nat) :
  slice data (Some 0%Z) (Some (Z.of_nat w)) = firstn w data.
Proof. apply (slice_nat data 0 w). Qed.

(** A record whose first byte is NUL does not decode: its length is not a
    number. *)
Lemma parseRecord_nul (data : list byte) :
  nth 0 data 0 = 0 -> parseRecord data 0 = None.
Proof.
  intros H. unfold parseRecord.
  destruct data as [|b rest].
  - reflexivity.
  - cbn [nth] in H. subst b.
    change (Some (0 + 24)%Z) with (Some (Z.of_nat 24)).
    rewrite slice_nat0. cbn [firstn].
    set (l := firstn 23 rest).
    change (decode (0 :: l))
      with (utf16_encode (drop_bom (0 :: utf8_decode_from Initial l))).
    reflexivity.
Qed.

(** C7, as the code has it: a buffer that starts with a record whose leader
    gives its true length, followed by bytes that either are at most 24, or
    start with a NUL byte, or do not decode as a record (their length field
    is not a positive number), is read as exactly that one record, so that
    the report counts one record.  In general a record that does not decode
    ends the scan and keeps the records before it.  No input makes the scan
    fail: [parse] is a total function. *)
Theorem parse_record_then_undecodable_tail (rec trailing : list byte)
    (r : MarcRecord) :
  (24 < List.length rec)%nat ->
  parseRecord (rec ++ trailing) 0 = Some r ->
  endOffset r = Z.of_nat (List.length rec) ->
  (List.length trailing <= 24)%nat
  \/ hd_error trailing = Some 0
  \/ parseRecord (rec ++ trailing) (Z.of_nat (List.length rec)) = None ->
  records (parse (new (rec ++ trailing))) = [r]
  /\ N.of_nat (List.length (records (parse (new (rec ++ trailing))))) = 1
  /\ (forall fuel data offset records,
         parseRecord data offset = None ->
         parse_loop fuel data offset records = records)
  /\ (forall fuel data offset records,
         exists more, parse_loop fuel data offset records = records ++ more).
Proof.
  intros Hlen Hrec Hend Htail.
  assert (E : records (parse (new (rec ++ trailing))) = [r]).
  { unfold parse, new. cbn [records data].
    set (buf := rec ++ trailing) in *.
    assert (Hbuf : List.length buf = (List.length rec + List.length trailing)%nat)
      by apply length_app.
    destruct (List.length buf) as [|fuel] eqn:Hfuel; [lia|].
    cbn [parse_loop]. rewrite Hfuel.
    destruct (Z.ltb_spec 0 (Z.of_nat (S fuel))); [|lia].
    destruct (N.eqb_spec (nth (Z.to_nat 0) buf 0) 0) as [Hz|Hz].
    { apply parseRecord_nul in Hz. congruence. }
    destruct (Z.leb_spec (Z.of_nat (S fuel)) (0 + 24)); [lia|].
    cbn [orb]. rewrite Hrec, Hend. cbn [app].
    destruct fuel as [|fuel']; [lia|].
    cbn [parse_loop]. rewrite Hfuel.
    destruct (Z.ltb_spec (Z.of_nat (List.length rec)) (Z.of_nat (S (S fuel'))));
      [|reflexivity].
    rewrite Nat2Z.id.
    assert (Hnth : nth (List.length rec) buf 0 = hd 0 trailing).
    { unfold buf. rewrite app_nth2, Nat.sub_diag by lia.
      destruct trailing; reflexivity. }
    rewrite Hnth.
    destruct Htail as [Ht|[Ht|Ht]].
    - destruct (Z.leb_spec (Z.of_nat (S (S fuel')))
                           (Z.of_nat (List.length rec) + 24)); [|lia].
      now rewrite orb_true_r.
    - destruct trailing as [|b t]; [discriminate|].
      injection Ht as ->. reflexivity.
    - rewrite Ht. destruct (_ || _); reflexivity. }
  split; [exact E|]. split; [now rewrite E|].
  split; [intros; now apply parse_loop_stops|].
  intros fuel data offset records. eexists. apply parse_loop_keeps.
Qed.

Example woolf_record_parsed :
  map record_content (records (parse (new woolf_record)))
  = [[ControlContent (js "001") (js "12345");
      DataContent (js "100") (js "1") (js " ")
        [(js "a", SStr (js "Woolf, Virginia,"));
         (js "d", SStr (js "1882-1941"))]]].
Proof. reflexivity. Qed.

(** A witness for C7: the record followed by the first 20 bytes of a second
    copy. *)
Lemma parse_record_then_undecodable_tail_witness :
  exists r,
    records (parse (new (woolf_record ++ firstn 20 woolf_record))) = [r]
    /\ N.of_nat (List.length
                   (records (parse (new (woolf_record
                                           ++ firstn 20 woolf_record))))) = 1
    /\ (forall fuel data offset records,
           parseRecord data offset = None ->
           parse_loop fuel data offset records = records)
    /\ (forall fuel data offset records,
           exists more, parse_loop fuel data offset records = records ++ more).
Proof.
  eexists.
  apply (parse_record_then_undecodable_tail woolf_record
           (firstn 20 woolf_record)).
  - vm_compute. lia.
  - vm_compute. reflexivity.
  - reflexivity.
  - left. vm_compute. lia.
Defined.

(** C7 as stated does not hold: the record followed by the first 40 bytes of
    a second copy (a truncated record) is read as two records; the second
    has the leader of the copy and the part of its fields that is there. *)
Lemma truncated_tail_counterexample :
  List.length (records (parse (new (woolf_record ++ firstn 40 woolf_record))))
  = 2%nat
  /\ map record_content
         (records (parse (new (woolf_record ++ firstn 40 woolf_record))))
     = [[ControlContent (js "001") (js "12345");
         DataContent (js "100") (js "1") (js " ")
           [(js "a", SStr (js "Woolf, Virginia,"));
            (js "d", SStr (js "1882-1941"))]];
        [ControlContent (js "001") [];
         DataContent (js "100") [0] [0] []]].
Proof. split; reflexivity. Qed.

(** ** C1: rebuilding and reading again *)

(** *** Text and numbers on ASCII *)

Lemma ascii_cons (c : N) (s : list N) : ascii (c :: s) <-> c < 128 /\ ascii s.
Proof.
  unfold ascii. cbn [forallb]. now rewrite andb_true_iff, is_ascii_lt.
Qed.

Lemma ascii_app (a b : list N) : ascii (a ++ b) <-> ascii a /\ ascii b.
Proof. unfold ascii. now rewrite forallb_app, andb_true_iff. Qed.

Lemma ascii_firstn (n : nat) (s : list N) : ascii s -> ascii (firstn n s).
Proof.
  intros H. rewrite <- (firstn_skipn n s) in H. now apply ascii_app in H.
Qed.

Lemma ascii_skipn (n : nat) (s : list N) : ascii s -> ascii (skipn n s).
Proof.
  intros H. rewrite <- (firstn_skipn n s) in H. now apply ascii_app in H.
Qed.

Lemma ascii_In (s : list N) (c : N) : ascii s -> In c s -> c < 128.
Proof.
  unfold ascii. rewrite forallb_forall. intros H Hc.
  now apply is_ascii_lt, H.
Qed.

Lemma utf8_decode_ascii (l : list byte) :
  ascii l -> utf8_decode_from Initial l = l.
Proof.
  induction l as [|b l IH]; [reflexivity|].
  rewrite ascii_cons. intros [Hb Hl]. cbn [utf8_decode_from].
  unfold utf8_lead. destruct (N.leb_spec b 127); [|lia].
  cbn [app]. now rewrite IH.
Qed.

Lemma drop_bom_small (b : N) (l : list N) :
  b < 65279 -> drop_bom (b :: l) = b :: l.
Proof.
  intros H. unfold drop_bom.
  destruct b as [|p]; [reflexivity|].
  repeat (destruct p as [p|p|]; try reflexivity). lia.
Qed.

Lemma decode_ascii (l : list byte) : ascii l -> decode l = l.
Proof.
  intros H. unfold decode. rewrite utf8_decode_ascii by assumption.
  destruct l as [|b l]; [reflexivity|].
  pose proof (proj1 (ascii_cons b l) H) as [Hb _].
  rewrite drop_bom_small by lia.
  apply utf16_encode_bmp, forallb_ascii_bmp, H.
Qed.

Lemma encode_ascii (s : jsstring) : ascii s -> encode s = s.
Proof.
  intros H. unfold encode. rewrite code_points_ascii by exact H.
  induction s as [|c s IH]; [reflexivity|].
  apply ascii_cons in H as [Hc Hs]. cbn [flat_map]. rewrite IH by assumption.
  assert (is_surrogate c = false) as ->
      by (unfold is_surrogate, in_range; apply andb_false_iff; left;
          apply N.leb_gt; lia).
  unfold utf8_bytes. destruct (N.ltb_spec c 128); [reflexivity|lia].
Qed.

Lemma all_from_spec (p : N -> bool) (count : nat) :
  forall n m,
    all_from count n p = true ->
    n <= m -> m < n + N.of_nat count -> p m = true.
Proof.
  induction count as [|count IH]; intros n m H Hn Hm; [lia|].
  cbn [all_from] in H. apply andb_true_iff in H as [Hp H].
  destruct (N.eq_dec n m) as [->|Hne]; [exact Hp|].
  apply (IH (n + 1)); auto; lia.
Qed.

Lemma decimal_field_5_all :
  all_from (N.to_nat 100000) 0 (decimal_field_ok 5) = true.
Proof. vm_compute. reflexivity. Qed.

Lemma decimal_field_4_all :
  all_from (N.to_nat 10000) 0 (decimal_field_ok 4) = true.
Proof. vm_compute. reflexivity. Qed.

Lemma forallb_digit_ascii (s : list N) : forallb is_digit s = true -> ascii s.
Proof.
  unfold ascii. rewrite !forallb_forall. intros H c Hc. apply H in Hc.
  unfold is_digit, in_range in Hc. apply andb_true_iff in Hc as [_ Hc].
  apply N.leb_le in Hc. apply is_ascii_lt. lia.
Qed.

Lemma decimal_field_ok_spec (width : nat) (n : N) :
  decimal_field_ok width n = true ->
  List.length (padStart width 48 (String_of_N n)) = width
  /\ ascii (padStart width 48 (String_of_N n))
  /\ parseInt (padStart width 48 (String_of_N n)) = Some (Z.of_N n).
Proof.
  unfold decimal_field_ok. rewrite !andb_true_iff. intros [[Hl Hd] Hp].
  split; [now apply Nat.eqb_eq|]. split; [now apply forallb_digit_ascii|].
  destruct (parseInt _); [|discriminate]. apply Z.eqb_eq in Hp. congruence.
Qed.

Lemma decimal_field_5 (n : N) :
  n < 100000 ->
  List.length (padStart 5 48 (String_of_N n)) = 5%nat
  /\ ascii (padStart 5 48 (String_of_N n))
  /\ parseInt (padStart 5 48 (String_of_N n)) = Some (Z.of_N n).
Proof.
  intros H. apply decimal_field_ok_spec.
  apply (all_from_spec _ _ 0 n decimal_field_5_all);
    rewrite ?N2Nat.id; lia.
Qed.

Lemma decimal_field_4 (n : N) :
  n < 10000 ->
  List.length (padStart 4 48 (String_of_N n)) = 4%nat
  /\ ascii (padStart 4 48 (String_of_N n))
  /\ parseInt (padStart 4 48 (String_of_N n)) = Some (Z.of_N n).
Proof.
  intros H. apply decimal_field_ok_spec.
  apply (all_from_spec _ _ 0 n decimal_field_4_all);
    rewrite ?N2Nat.id; lia.
Qed.

(** *** UTF-8 *)

Lemma all_between_spec (lo hi : N) (p : N -> bool) (x : N) :
  all_between lo hi p = true -> lo <= x -> x <= hi -> p x = true.
Proof.
  unfold all_between. intros H Hlo Hhi.
  apply (all_from_spec p _ lo x H); [assumption|].
  rewrite N2Nat.id. lia.
Qed.

Lemma utf8_lead_checked :
  all_between 0 255
    (fun b =>
       let (out, st) := utf8_lead b in
       state_completes st
       && match out with
          | [] => true
          | [c] => ((c =? b) && (b <? 128)) || (c =? 65533)
          | _ => false
          end) = true.
Proof. vm_compute. reflexivity. Qed.

(** What the decoder does with a first byte: it passes an ASCII byte on,
    or starts a sequence that can only end well, or answers U+FFFD. *)
Lemma utf8_lead_spec (b : N) :
  state_completes (snd (utf8_lead b)) = true
  /\ (fst (utf8_lead b) = [] \/ fst (utf8_lead b) = [65533]
      \/ (fst (utf8_lead b) = [b] /\ b < 128)).
Proof.
  destruct (N.le_gt_cases b 255) as [Hb|Hb].
  - pose proof (all_between_spec 0 255 _ b utf8_lead_checked
                  ltac:(lia) Hb) as H.
    cbv beta in H. destruct (utf8_lead b) as [out st]. cbn [fst snd].
    apply andb_true_iff in H as [Hst Hout]. split; [exact Hst|].
    destruct out as [|c [|d out]]; [auto| |discriminate].
    apply orb_true_iff in Hout as [Hout|Hout].
    + apply andb_true_iff in Hout as [Hc Hlt].
      apply N.eqb_eq in Hc. apply N.ltb_lt in Hlt. subst. auto.
    + apply N.eqb_eq in Hout. subst. auto.
  - unfold utf8_lead, in_range.
    destruct (N.leb_spec b 127); [lia|].
    destruct (N.leb_spec b 223); [lia|]. rewrite andb_false_r.
    destruct (N.leb_spec b 239); [lia|]. rewrite andb_false_r.
    destruct (N.leb_spec b 244); [lia|]. rewrite andb_false_r.
    cbn. auto.
Qed.

Lemma decoded_from_cons (b : byte) (bytes : list byte) (l : list N) :
  Forall (decoded_from bytes) l -> Forall (decoded_from (b :: bytes)) l.
Proof.
  apply Forall_impl. intros c [Hs Hin]. split; [exact Hs|].
  intros Hc. right. auto.
Qed.

Lemma decoded_from_replacement (bytes : list byte) :
  decoded_from bytes 65533.
Proof. split; [reflexivity|lia]. Qed.

Lemma is_high_scalar_decoded (bytes : list byte) (c : N) :
  is_high_scalar c = true -> decoded_from bytes c.
Proof.
  unfold is_high_scalar. rewrite andb_true_iff, N.leb_le.
  intros [Hc Hs]. split; [exact Hs|lia].
Qed.

Lemma utf8_lead_decoded (b : byte) (rest : list byte) :
  Forall (decoded_from (b :: rest)) (fst (utf8_lead b)).
Proof.
  destruct (utf8_lead_spec b) as [_ [->|[->|[-> Hb]]]].
  - constructor.
  - constructor; [apply decoded_from_replacement|constructor].
  - constructor; [|constructor]. split.
    + unfold is_scalar, is_surrogate, in_range.
      destruct (N.ltb_spec b 1114112); [|lia].
      destruct (N.leb_spec 55296 b); [lia|]. reflexivity.
    + intros _. now left.
Qed.

(** Every character that the decoder gives is a scalar value, and an ASCII
    character among them is a byte of the input. *)
Lemma utf8_decode_from_decoded (bytes : list byte) :
  forall st,
    state_completes st = true ->
    Forall (decoded_from bytes) (utf8_decode_from st bytes).
Proof.
  induction bytes as [|b rest IH]; intros st Hst.
  - destruct st; cbn [utf8_decode_from]; [constructor|].
    constructor; [apply decoded_from_replacement|constructor].
  - assert (Hlead : Forall (decoded_from (b :: rest))
                      (let (out, st') := utf8_lead b in
                       out ++ utf8_decode_from st' rest)).
    { pose proof (utf8_lead_decoded b rest) as Hout.
      destruct (utf8_lead_spec b) as [Hst' _].
      destruct (utf8_lead b) as [out st']. cbn [fst snd] in *.
      apply Forall_app. split; [exact Hout|].
      apply decoded_from_cons, IH, Hst'. }
    destruct st as [|cp needed lower upper]; cbn [utf8_decode_from];
      [exact Hlead|].
    destruct (in_range lower upper b) eqn:Hb.
    + cbn [state_completes] in Hst. apply andb_true_iff in Hst as [Hn Hc].
      destruct needed as [|[|n]]; [discriminate| |].
      * cbn [completes] in Hc.
        unfold in_range in Hb. apply andb_true_iff in Hb as [H1 H2].
        apply N.leb_le in H1, H2.
        pose proof (all_between_spec _ _ _ b Hc H1 H2) as Hcp.
        cbv beta zeta in Hcp.
        constructor; [now apply is_high_scalar_decoded|].
        apply decoded_from_cons, IH. reflexivity.
      * change (completes cp (S (S n)) lower upper)
          with (all_between lower upper
                  (fun b =>
                     completes (N.lor (N.shiftl cp 6) (N.land b 63))
                               (S n) 128 191)) in Hc.
        unfold in_range in Hb. apply andb_true_iff in Hb as [H1 H2].
        apply N.leb_le in H1, H2.
        pose proof (all_between_spec _ _ _ b Hc H1 H2) as Hcp.
        cbv beta in Hcp.
        apply decoded_from_cons, IH. cbn [state_completes Nat.eqb negb andb].
        exact Hcp.
    + constructor; [apply decoded_from_replacement|exact Hlead].
Qed.

Lemma drop_bom_incl (cps : list N) (P : N -> Prop) :
  Forall P cps -> Forall P (drop_bom cps).
Proof.
  intros H. unfold drop_bom. destruct cps as [|c cps]; [constructor|].
  inversion H; subst.
  destruct c as [|p]; [assumption|].
  repeat (destruct p as [p|p|]; try assumption).
Qed.

Lemma decode_decoded (bytes : list byte) :
  exists cps,
    Forall (decoded_from bytes) cps /\ decode bytes = utf16_encode cps.
Proof.
  exists (drop_bom (utf8_decode_from Initial bytes)). split; [|reflexivity].
  apply drop_bom_incl, utf8_decode_from_decoded. reflexivity.
Qed.

Lemma decode_usv (bytes : list byte) : usv (decode bytes).
Proof.
  destruct (decode_decoded bytes) as (cps & H & ->). exists cps.
  split; [|reflexivity]. apply forallb_forall. intros c Hc.
  rewrite Forall_forall in H. now destruct (H c Hc).
Qed.

Lemma utf16_units_delimiter (cp c : N) :
  In c (utf16_units cp) -> is_delimiter c = true -> c = cp.
Proof.
  unfold utf16_units. destruct (cp <? 65536).
  - intros [<-|[]]. reflexivity.
  - unfold is_delimiter, SUBFIELD_DELIMITER, FIELD_TERMINATOR.
    intros [<-|[<-|[]]] H; apply orb_true_iff in H as [H|H];
      apply N.eqb_eq in H; exfalso;
      [generalize dependent ((cp - 65536) / 1024)
      |generalize dependent ((cp - 65536) / 1024)
      |generalize dependent ((cp - 65536) mod 1024)
      |generalize dependent ((cp - 65536) mod 1024)]; intros; lia.
Qed.

Lemma decode_no_delimiter (bytes : list byte) :
  no_delimiter bytes -> no_delimiter (decode bytes).
Proof.
  intros Hb. destruct (decode_decoded bytes) as (cps & H & ->).
  unfold no_delimiter in *. rewrite forallb_forall in *. intros c Hc.
  unfold utf16_encode in Hc. apply in_flat_map in Hc as (cp & Hcp & Hc).
  destruct (is_delimiter c) eqn:Hd; [|reflexivity].
  pose proof (utf16_units_delimiter cp c Hc Hd) as ->.
  rewrite Forall_forall in H. destruct (H cp Hcp) as [_ Hin].
  assert (Hlt : cp < 128).
  { unfold is_delimiter, SUBFIELD_DELIMITER, FIELD_TERMINATOR in Hd.
    apply orb_true_iff in Hd as [Hd|Hd]; apply N.eqb_eq in Hd; lia. }
  specialize (Hb cp (Hin Hlt)). now rewrite Hd in Hb.
Qed.

Lemma utf8_decode_run (l rest : list byte) :
  forall st,
    utf8_decode_from st (l ++ rest)
    = fst (utf8_run st l) ++ utf8_decode_from (snd (utf8_run st l)) rest.
Proof.
  induction l as [|b l IH]; intros st; [reflexivity|].
  cbn [app utf8_decode_from utf8_run].
  assert (Hlead : (let (out, st') := utf8_lead b in
                   out ++ utf8_decode_from st' (l ++ rest))
                  = fst (let (out, st') := utf8_lead b in
                         let (o, s) := utf8_run st' l in (out ++ o, s))
                    ++ utf8_decode_from
                         (snd (let (out, st') := utf8_lead b in
                               let (o, s) := utf8_run st' l in (out ++ o, s)))
                         rest).
  { destruct (utf8_lead b) as [out st']. rewrite IH.
    destruct (utf8_run st' l) as [o s]. cbn [fst snd].
    now rewrite app_assoc. }
  destruct st as [|cp needed lower upper]; [exact Hlead|].
  destruct (in_range lower upper b).
  - destruct needed as [|[|n]]; try apply IH;
      rewrite IH; destruct (utf8_run Initial l) as [o s]; reflexivity.
  - rewrite Hlead.
    destruct (utf8_lead b) as [out st'].
    destruct (utf8_run st' l) as [o s]. reflexivity.
Qed.

Lemma lor_shiftl_low (q r : N) :
  r < 64 -> N.lor (N.shiftl q 6) r = q * 64 + r.
Proof.
  intros Hr.
  assert (Hland : N.land (N.shiftl q 6) r = 0).
  { apply N.bits_inj. intros n. rewrite N.land_spec, N.bits_0.
    destruct (N.lt_ge_cases n 6) as [Hn|Hn].
    - now rewrite N.shiftl_spec_low.
    - assert (N.testbit r n = false) as ->; [|apply andb_false_r].
      destruct (N.eq_dec r 0) as [->|Hr0]; [apply N.bits_0|].
      apply N.bits_above_log2.
      assert (N.log2 r < 6) by (apply N.log2_lt_pow2; [lia|exact Hr]).
      lia. }
  rewrite <- N.lxor_lor, <- N.add_nocarry_lxor by assumption.
  now rewrite N.shiftl_mul_pow2.
Qed.

Lemma land_63 (x : N) : N.land x 63 = x mod 64.
Proof. exact (N.land_ones x 6). Qed.

Lemma land_31 (x : N) : N.land x 31 = x mod 32.
Proof. exact (N.land_ones x 5). Qed.

Lemma land_15 (x : N) : N.land x 15 = x mod 16.
Proof. exact (N.land_ones x 4). Qed.

Lemma land_7 (x : N) : N.land x 7 = x mod 8.
Proof. exact (N.land_ones x 3). Qed.

Ltac in_range_true :=
  match goal with
  | |- context [in_range ?lo ?hi ?b] =>
      let H := fresh in
      assert (H : in_range lo hi b = true)
        by (unfold in_range; apply andb_true_iff; split; apply N.leb_le;
            divmod);
      rewrite H; clear H
  end.

Ltac in_range_false :=
  match goal with
  | |- context [in_range ?lo ?hi ?b] =>
      let H := fresh in
      assert (H : in_range lo hi b = false)
        by (unfold in_range; apply andb_false_iff;
            first [left; apply N.leb_gt; divmod
                  |right; apply N.leb_gt; divmod]);
      rewrite H; clear H
  end.

(** One step of the decoder inside a sequence, on a byte in range. *)
Lemma utf8_continue (cp : N) (needed : nat) (lower upper b q : N)
    (rest : list byte) :
  lower <= b -> b <= upper -> 128 <= b -> b <= 191 -> cp = q ->
  utf8_run (Pending cp needed lower upper) (b :: rest)
  = match needed with
    | S (S n) => utf8_run (Pending (q * 64 + (b - 128)) (S n) 128 191) rest
    | _ => let (o, s) := utf8_run Initial rest in
           (q * 64 + (b - 128) :: o, s)
    end.
Proof.
  intros H1 H2 H3 H4 ->. cbn [utf8_run].
  assert (in_range lower upper b = true) as ->
      by (unfold in_range; apply andb_true_iff; split; now apply N.leb_le).
  rewrite land_63, lor_shiftl_low by (apply N.mod_lt; lia).
  replace (b mod 64) with (b - 128) by divmod.
  reflexivity.
Qed.

Lemma is_scalar_spec (cp : N) :
  is_scalar cp = true <-> cp < 1114112 /\ (cp < 55296 \/ 57343 < cp).
Proof.
  unfold is_scalar, is_surrogate, in_range.
  rewrite andb_true_iff, negb_true_iff, andb_false_iff, N.ltb_lt, !N.leb_gt.
  tauto.
Qed.

Lemma utf8_run_initial (b : byte) (rest : list byte) :
  utf8_run Initial (b :: rest)
  = let (out, st') := utf8_lead b in
    let (o, s) := utf8_run st' rest in (out ++ o, s).
Proof. reflexivity. Qed.

Lemma utf8_lead_2 (b : N) :
  194 <= b -> b <= 223 ->
  utf8_lead b = ([], Pending (N.land b 31) 1 128 191).
Proof.
  intros H1 H2. unfold utf8_lead, in_range.
  destruct (N.leb_spec b 127); [lia|].
  destruct (N.leb_spec 194 b); [|lia].
  destruct (N.leb_spec b 223); [|lia]. reflexivity.
Qed.

Lemma utf8_lead_3 (b : N) :
  224 <= b -> b <= 239 ->
  utf8_lead b
  = ([], Pending (N.land b 15) 2 (if b =? 224 then 160 else 128)
                 (if b =? 237 then 159 else 191)).
Proof.
  intros H1 H2. unfold utf8_lead, in_range.
  destruct (N.leb_spec b 127); [lia|].
  destruct (N.leb_spec b 223); [lia|]. rewrite andb_false_r.
  destruct (N.leb_spec 224 b); [|lia].
  destruct (N.leb_spec b 239); [|lia]. reflexivity.
Qed.

Lemma utf8_lead_4 (b : N) :
  240 <= b -> b <= 244 ->
  utf8_lead b
  = ([], Pending (N.land b 7) 3 (if b =? 240 then 144 else 128)
                 (if b =? 244 then 143 else 191)).
Proof.
  intros H1 H2. unfold utf8_lead, in_range.
  destruct (N.leb_spec b 127); [lia|].
  destruct (N.leb_spec b 223); [lia|]. rewrite andb_false_r.
  destruct (N.leb_spec b 239); [lia|]. rewrite andb_false_r.
  destruct (N.leb_spec 240 b); [|lia].
  destruct (N.leb_spec b 244); [|lia]. reflexivity.
Qed.

(** The decoder reads the bytes of a scalar value back. *)
Lemma utf8_run_bytes (cp : N) :
  is_scalar cp = true -> utf8_run Initial (utf8_bytes cp) = ([cp], Initial).
Proof.
  rewrite is_scalar_spec. intros [Hmax Hsur]. unfold utf8_bytes.
  destruct (N.ltb_spec cp 128) as [H1|H1].
  { rewrite utf8_run_initial. unfold utf8_lead.
    destruct (N.leb_spec cp 127); [reflexivity|lia]. }
  destruct (N.ltb_spec cp 2048) as [H2|H2].
  { rewrite utf8_run_initial, utf8_lead_2 by divmod.
    rewrite (utf8_continue _ _ _ _ _ (cp / 64)); try divmod;
      [|rewrite land_31; divmod].
    cbn [utf8_run app]. repeat f_equal. divmod. }
  destruct (N.ltb_spec cp 65536) as [H3|H3].
  { rewrite utf8_run_initial, utf8_lead_3 by divmod.
    rewrite (utf8_continue _ _ _ _ _ (cp / 4096));
      [|destruct (N.eqb_spec (224 + cp / 4096) 224); divmod
       |destruct (N.eqb_spec (224 + cp / 4096) 237); divmod
       |divmod|divmod|rewrite land_15; divmod].
    rewrite (utf8_continue _ _ _ _ _ (cp / 64)); try divmod.
    cbn [utf8_run app]. repeat f_equal. divmod. }
  rewrite utf8_run_initial, utf8_lead_4 by divmod.
  rewrite (utf8_continue _ _ _ _ _ (cp / 262144));
    [|destruct (N.eqb_spec (240 + cp / 262144) 240); divmod
     |destruct (N.eqb_spec (240 + cp / 262144) 244); divmod
     |divmod|divmod|rewrite land_7; divmod].
  rewrite (utf8_continue _ _ _ _ _ (cp / 4096)); try divmod.
  rewrite (utf8_continue _ _ _ _ _ (cp / 64)); try divmod.
  cbn [utf8_run app]. repeat f_equal. divmod.
Qed.

(** The bytes of a scalar value are bytes; they are 128 or more unless the
    value is ASCII, which is written as itself. *)
Lemma utf8_bytes_range (cp : N) :
  is_scalar cp = true ->
  Forall (fun b => b < 256 /\ (128 <= b \/ b = cp)) (utf8_bytes cp).
Proof.
  rewrite is_scalar_spec. intros [Hmax Hsur]. unfold utf8_bytes.
  destruct (N.ltb_spec cp 128); [repeat constructor; lia|].
  destruct (N.ltb_spec cp 2048); [repeat constructor; divmod|].
  destruct (N.ltb_spec cp 65536); repeat constructor; divmod.
Qed.

Lemma code_points_from_bmp (cp : N) (s : jsstring) :
  is_high_surrogate cp = false ->
  code_points_from None (cp :: s) = cp :: code_points_from None s.
Proof. intros H. cbn [code_points_from]. now rewrite H. Qed.

Lemma code_points_from_pair (h l : N) (s : jsstring) :
  is_high_surrogate h = true -> is_low_surrogate l = true ->
  code_points_from None (h :: l :: s)
  = surrogate_pair h l :: code_points_from None s.
Proof. intros Hh Hl. cbn [code_points_from]. now rewrite Hh, Hl. Qed.

Lemma utf16_units_self (cp : N) : cp < 65536 -> utf16_units cp = [cp].
Proof.
  intros H. unfold utf16_units.
  destruct (N.ltb_spec cp 65536); [reflexivity|lia].
Qed.

Lemma utf16_units_pair (cp : N) :
  65536 <= cp ->
  utf16_units cp
  = [55296 + (cp - 65536) / 1024; 56320 + (cp - 65536) mod 1024].
Proof.
  intros H. unfold utf16_units.
  destruct (N.ltb_spec cp 65536); [lia|reflexivity].
Qed.

Lemma code_points_utf16_encode (cps : list N) :
  forallb is_scalar cps = true -> code_points (utf16_encode cps) = cps.
Proof.
  unfold code_points, utf16_encode.
  induction cps as [|cp cps IH]; [reflexivity|].
  cbn [forallb flat_map]. rewrite andb_true_iff, is_scalar_spec.
  intros [[Hmax Hsur] Hcps]. specialize (IH Hcps).
  destruct (N.lt_ge_cases cp 65536) as [Hb|Hb].
  - rewrite utf16_units_self by assumption. cbn [app].
    rewrite code_points_from_bmp, IH; [reflexivity|].
    unfold is_high_surrogate, in_range. apply andb_false_iff.
    destruct Hsur; [left|right]; apply N.leb_gt; lia.
  - rewrite utf16_units_pair by assumption. cbn [app].
    rewrite code_points_from_pair, IH.
    + f_equal. unfold surrogate_pair. divmod.
    + unfold is_high_surrogate, in_range. apply andb_true_iff.
      split; apply N.leb_le; divmod.
    + unfold is_low_surrogate, in_range. apply andb_true_iff.
      split; apply N.leb_le; divmod.
Qed.

Lemma forallb_scalar_not_surrogate (cps : list N) :
  forallb is_scalar cps = true ->
  flat_map (fun cp => utf8_bytes (if is_surrogate cp then 65533 else cp)) cps
  = flat_map utf8_bytes cps.
Proof.
  induction cps as [|cp cps IH]; [reflexivity|].
  cbn [forallb flat_map]. rewrite andb_true_iff. intros [Hcp Hcps].
  rewrite IH by assumption. unfold is_scalar in Hcp.
  apply andb_true_iff in Hcp as [_ Hcp]. apply negb_true_iff in Hcp.
  now rewrite Hcp.
Qed.

Lemma encode_utf16_encode (cps : list N) :
  forallb is_scalar cps = true ->
  encode (utf16_encode cps) = flat_map utf8_bytes cps.
Proof.
  intros H. unfold encode.
  now rewrite code_points_utf16_encode, forallb_scalar_not_surrogate.
Qed.

Lemma utf8_decode_bytes (cps : list N) :
  forallb is_scalar cps = true ->
  utf8_decode_from Initial (flat_map utf8_bytes cps) = cps.
Proof.
  induction cps as [|cp cps IH]; [reflexivity|].
  cbn [forallb flat_map]. rewrite andb_true_iff. intros [Hcp Hcps].
  rewrite utf8_decode_run, utf8_run_bytes by assumption.
  cbn [fst snd app]. now rewrite IH.
Qed.

Lemma drop_bom_other (b : N) (l : list N) :
  b <> 65279 -> drop_bom (b :: l) = b :: l.
Proof.
  intros H. unfold drop_bom.
  destruct b as [|p]; [reflexivity|].
  repeat (destruct p as [p|p|]; try reflexivity). congruence.
Qed.

(** Decoding what was encoded gives the string back, unless it starts with
    a byte order mark, which decoding drops. *)
Lemma decode_encode (s : jsstring) :
  usv s -> no_bom s = true -> decode (encode s) = s.
Proof.
  intros (cps & Hcps & ->) Hbom. unfold decode.
  rewrite encode_utf16_encode, utf8_decode_bytes by assumption.
  destruct cps as [|cp cps]; [reflexivity|].
  rewrite drop_bom_other; [reflexivity|].
  intros ->. discriminate Hbom.
Qed.

Lemma bytes_ok_app (a b : list byte) :
  bytes_ok (a ++ b) <-> bytes_ok a /\ bytes_ok b.
Proof. unfold bytes_ok. now rewrite forallb_app, andb_true_iff. Qed.

Lemma bytes_ok_cons (x : byte) (l : list byte) :
  bytes_ok (x :: l) <-> x < 256 /\ bytes_ok l.
Proof.
  unfold bytes_ok. cbn [forallb]. now rewrite andb_true_iff, N.ltb_lt.
Qed.

Lemma no_delimiter_app (a b : list N) :
  no_delimiter (a ++ b) <-> no_delimiter a /\ no_delimiter b.
Proof. unfold no_delimiter. now rewrite forallb_app, andb_true_iff. Qed.

Lemma encode_bytes_ok (s : jsstring) : usv s -> bytes_ok (encode s).
Proof.
  intros (cps & Hcps & ->). rewrite encode_utf16_encode by assumption.
  induction cps as [|cp cps IH]; [reflexivity|].
  cbn [forallb flat_map] in *. apply andb_true_iff in Hcps as [Hcp Hcps].
  apply bytes_ok_app. split; [|auto].
  pose proof (utf8_bytes_range cp Hcp) as H.
  unfold bytes_ok. apply forallb_forall. intros b Hb.
  rewrite Forall_forall in H. apply N.ltb_lt. now apply H.
Qed.

Lemma is_delimiter_small (c : N) : is_delimiter c = true -> c < 128.
Proof.
  unfold is_delimiter, SUBFIELD_DELIMITER, FIELD_TERMINATOR.
  rewrite orb_true_iff, !N.eqb_eq. lia.
Qed.

Lemma encode_no_delimiter (s : jsstring) :
  usv s -> no_delimiter s -> no_delimiter (encode s).
Proof.
  intros (cps & Hcps & ->) Hs. rewrite encode_utf16_encode by assumption.
  induction cps as [|cp cps IH]; [reflexivity|].
  cbn [forallb flat_map] in *. apply andb_true_iff in Hcps as [Hcp Hcps].
  unfold utf16_encode in Hs. cbn [flat_map] in Hs.
  apply no_delimiter_app in Hs as [Hs1 Hs2].
  apply no_delimiter_app. split; [|auto].
  pose proof (utf8_bytes_range cp Hcp) as H.
  unfold no_delimiter. apply forallb_forall. intros b Hb.
  rewrite Forall_forall in H. destruct (H b Hb) as [_ [Hbig| ->]].
  - destruct (is_delimiter b) eqn:E; [|reflexivity].
    apply is_delimiter_small in E. lia.
  - destruct (is_delimiter cp) eqn:E; [|reflexivity].
    pose proof (is_delimiter_small cp E) as Hsmall.
    rewrite utf16_units_self in Hs1 by lia.
    unfold no_delimiter in Hs1. cbn [forallb] in Hs1. now rewrite E in Hs1.
Qed.

Lemma ascii_usv (s : jsstring) : ascii s -> usv s.
Proof.
  intros H. exists s. split.
  - unfold ascii in H. rewrite forallb_forall in *. intros c Hc.
    specialize (H c Hc). apply is_ascii_lt in H.
    apply is_scalar_spec. lia.
  - symmetry. now apply utf16_encode_bmp, forallb_ascii_bmp.
Qed.

(** *** Subfield objects *)

Lemma array_index_single (c : N) :
  array_index [c] = if is_digit c then Some (c - 48) else None.
Proof.
  unfold array_index. cbn [forallb List.length Nat.leb decimal_value fold_left].
  rewrite andb_true_r. destruct (is_digit c) eqn:Hd; [|reflexivity].
  assert (implb (c =? 48) true = true) as ->
      by (destruct (c =? 48); reflexivity).
  unfold is_digit, in_range in Hd. apply andb_true_iff in Hd as [H1 H2].
  apply N.leb_le in H1, H2.
  assert ((10 * 0 + (c - 48) <? 4294967295) = true) as ->
      by (apply N.ltb_lt; lia).
  cbn [andb]. f_equal; lia.
Qed.

Lemma array_index_inj (k k' : jsstring) (i : N) :
  key_ok k -> key_ok k' ->
  array_index k = Some i -> array_index k' = Some i -> k = k'.
Proof.
  intros (c & -> & _) (c' & -> & _). rewrite !array_index_single.
  destruct (is_digit c) eqn:Hc, (is_digit c') eqn:Hc'; try discriminate.
  unfold is_digit, in_range in *.
  apply andb_true_iff in Hc as [H1 _], Hc' as [H1' _].
  apply N.leb_le in H1, H1'. intros [= <-] [= E]. f_equal. lia.
Qed.

Lemma StronglySorted_snoc {A} (R : A -> A -> Prop) (l : list A) (a : A) :
  StronglySorted R (l ++ [a])
  <-> StronglySorted R l /\ Forall (fun x => R x a) l.
Proof.
  induction l as [|x l IH]; cbn [app].
  - split; [intros _|intros _]; repeat constructor.
  - split.
    + intros H. apply StronglySorted_inv in H as [Hs Hf].
      apply IH in Hs as [Hs Hl]. apply Forall_app in Hf as [Hf Ha].
      split; constructor; auto. now inversion Ha.
    + intros [H Hf]. apply StronglySorted_inv in H as [Hs Hx].
      inversion Hf; subst. constructor.
      * apply IH. auto.
      * apply Forall_app. auto.
Qed.

Lemma obj_get_none (o : object) (k : jsstring) :
  obj_get o k = None <-> ~ In k (map fst o).
Proof.
  induction o as [|[k' v] o IH]; cbn [obj_get map fst In]; [tauto|].
  destruct (jsstring_eqb k' k) eqn:E.
  - apply jsstring_eqb_eq in E. split; [discriminate|tauto].
  - rewrite IH. split; [|tauto]. intros H [->|Hin]; [|tauto].
    now rewrite jsstring_eqb_refl in E.
Qed.

Lemma obj_get_in (o : object) (k : jsstring) (v : sfvalue) :
  obj_get o k = Some v -> In (k, v) o.
Proof.
  induction o as [|[k' v'] o IH]; cbn [obj_get]; [discriminate|].
  destruct (jsstring_eqb k' k) eqn:E.
  - apply jsstring_eqb_eq in E. intros [= ->]. left. now subst.
  - intros H. right. auto.
Qed.

Lemma obj_get_last (o : object) (k : jsstring) (v : sfvalue) :
  ~ In k (map fst o) -> obj_get (o ++ [(k, v)]) k = Some v.
Proof.
  induction o as [|[k' v'] o IH]; cbn [obj_get map fst In app]; intros H.
  - now rewrite jsstring_eqb_refl.
  - destruct (jsstring_eqb k' k) eqn:E.
    + apply jsstring_eqb_eq in E. tauto.
    + apply IH. tauto.
Qed.

Lemma obj_replace_last (o : object) (k : jsstring) (v v' : sfvalue) :
  ~ In k (map fst o) ->
  obj_replace (o ++ [(k, v)]) k v' = o ++ [(k, v')].
Proof.
  induction o as [|[k0 v0] o IH]; cbn [obj_replace map fst In app]; intros H.
  - now rewrite jsstring_eqb_refl.
  - destruct (jsstring_eqb k0 k) eqn:E.
    + apply jsstring_eqb_eq in E. tauto.
    + rewrite IH; tauto.
Qed.

Lemma obj_insert_index_last (o : object) (i : N) (k : jsstring) (v : sfvalue) :
  Forall (fun k' => before k' k) (map fst o) ->
  array_index k = Some i ->
  obj_insert_index o i k v = o ++ [(k, v)].
Proof.
  intros H Hk. induction o as [|[k' v'] o IH]; [reflexivity|].
  cbn [map fst] in H. inversion H as [|? ? [_ Hb] Hrest]; subst.
  cbn [obj_insert_index app]. rewrite Hk in Hb.
  destruct (array_index k') as [j|]; [|contradiction].
  destruct (N.ltb_spec j i); [|lia]. now rewrite IH.
Qed.

(** Setting a key that the object does not have yet, when every key it has
    comes before the new one, adds the entry at the end. *)
Lemma obj_set_last (o : object) (k : jsstring) (v : sfvalue) :
  Forall (fun k' => before k' k) (map fst o) ->
  obj_set o k v = o ++ [(k, v)].
Proof.
  intros H. unfold obj_set.
  assert (Hnone : obj_get o k = None).
  { apply obj_get_none. intros Hin.
    rewrite Forall_forall in H. destruct (H k Hin) as [Hne _]. congruence. }
  rewrite Hnone. destruct (array_index k) as [i|] eqn:Hk; [|reflexivity].
  now apply obj_insert_index_last.
Qed.

Lemma wf_object_snoc (o : object) (k : jsstring) (v : sfvalue) :
  wf_object (o ++ [(k, v)]) ->
  wf_object o /\ Forall (fun k' => before k' k) (map fst o)
  /\ key_ok k /\ value_ok v.
Proof.
  unfold wf_object. rewrite map_app, Forall_app. cbn [map fst].
  rewrite StronglySorted_snoc. intros [[Ho He] [Hs Hb]].
  inversion He as [|? ? [Hk Hv] _]; subst. auto.
Qed.

Lemma before_not_in (o : object) (k : jsstring) :
  Forall (fun k' => before k' k) (map fst o) -> ~ In k (map fst o).
Proof.
  rewrite Forall_forall. intros H Hin. destruct (H k Hin) as [Hne _].
  congruence.
Qed.

Lemma replay_cons (p : jsstring * jsstring) (ps : list (jsstring * jsstring))
    (acc : object) :
  replay (p :: ps) acc = replay ps (add_subfield acc (fst p) (snd p)).
Proof. reflexivity. Qed.

Lemma add_subfield_new (o : object) (k s : jsstring) :
  Forall (fun k' => before k' k) (map fst o) ->
  add_subfield o k s = o ++ [(k, SStr s)].
Proof.
  intros Hb. unfold add_subfield.
  rewrite (proj2 (obj_get_none o k) (before_not_in o k Hb)).
  now apply obj_set_last.
Qed.

Lemma add_subfield_second (o : object) (k a b : jsstring) :
  ~ In k (map fst o) -> a <> [] ->
  add_subfield (o ++ [(k, SStr a)]) k b = o ++ [(k, SArr [a; b])].
Proof.
  intros Hk Ha. unfold add_subfield. rewrite obj_get_last by assumption.
  destruct a as [|c a]; [congruence|].
  unfold obj_set. now rewrite obj_get_last, obj_replace_last.
Qed.

Lemma add_subfield_push (o : object) (k x : jsstring) (l : list jsstring) :
  ~ In k (map fst o) ->
  add_subfield (o ++ [(k, SArr l)]) k x = o ++ [(k, SArr (l ++ [x]))].
Proof.
  intros Hk. unfold add_subfield. rewrite obj_get_last by assumption.
  unfold obj_set. now rewrite obj_get_last, obj_replace_last.
Qed.

Lemma replay_array (o : object) (k : jsstring) (xs : list jsstring) :
  ~ In k (map fst o) ->
  forall l,
    replay (map (pair k) xs) (o ++ [(k, SArr l)]) = o ++ [(k, SArr (l ++ xs))].
Proof.
  intros Hk. induction xs as [|x xs IH]; intros l.
  - now rewrite app_nil_r.
  - cbn [map]. rewrite replay_cons. cbn [fst snd].
    rewrite add_subfield_push, IH, <- app_assoc by assumption. reflexivity.
Qed.

Lemma replay_entry (o : object) (k : jsstring) (v : sfvalue) :
  Forall (fun k' => before k' k) (map fst o) ->
  value_ok v ->
  replay (map (pair k) (values_of v)) o = o ++ [(k, v)].
Proof.
  intros Hb Hv. pose proof (before_not_in o k Hb) as Hk.
  destruct v as [s|l]; cbn [values_of map].
  - rewrite replay_cons. cbn [fst snd replay fold_left].
    now apply add_subfield_new.
  - destruct Hv as [(a & b & rest & -> & Ha) _].
    cbn [map]. rewrite !replay_cons. cbn [fst snd].
    rewrite (add_subfield_new o k a Hb), (add_subfield_second o k a b Hk Ha).
    now rewrite replay_array.
Qed.

(** Reading back the pairs of a well-formed object gives the object. *)
Lemma replay_pairs_of (o : object) :
  wf_object o -> replay (pairs_of o) [] = o.
Proof.
  induction o as [|[k v] o IH] using rev_ind; [reflexivity|].
  intros H. apply wf_object_snoc in H as (Ho & Hb & Hk & Hv).
  unfold pairs_of, replay in *. rewrite flat_map_app, fold_left_app.
  cbn [flat_map fst snd]. rewrite app_nil_r, IH by assumption.
  now apply replay_entry.
Qed.

(** The parser keeps its objects well formed. *)
Lemma obj_replace_keys (o : object) (k : jsstring) (v : sfvalue) :
  map fst (obj_replace o k v) = map fst o.
Proof.
  induction o as [|[k' v'] o IH]; [reflexivity|]. cbn [obj_replace].
  destruct (jsstring_eqb k' k); cbn [map fst]; congruence.
Qed.

Lemma obj_replace_wf (o : object) (k : jsstring) (v : sfvalue) :
  wf_object o -> value_ok v -> wf_object (obj_replace o k v).
Proof.
  intros [Hf Hs] Hv. split; [|now rewrite obj_replace_keys].
  clear Hs. induction o as [|[k' v'] o IH]; [constructor|].
  inversion Hf as [|? ? [Hk' Hv'] Hrest]; subst. cbn [obj_replace].
  destruct (jsstring_eqb k' k); constructor; auto.
Qed.

Lemma before_trans_index (k k' x : jsstring) (i j : N) :
  array_index k = Some i -> array_index k' = Some j -> i < j -> k <> x ->
  before k' x -> before k x.
Proof.
  unfold before. intros -> -> Hij Hne [_ H]. split; [assumption|].
  destruct (array_index x); [lia|exact I].
Qed.

Lemma obj_insert_index_keys (P : jsstring -> Prop) (o : object) (i : N)
    (k : jsstring) (v : sfvalue) :
  Forall P (map fst o) -> P k ->
  Forall P (map fst (obj_insert_index o i k v)).
Proof.
  intros Ho Hk. induction o as [|[k' v'] o IH]; cbn [obj_insert_index].
  - repeat constructor; auto.
  - cbn [map fst] in Ho. inversion Ho; subst.
    destruct (array_index k') as [j|]; [destruct (j <? i)|];
      cbn [map fst]; repeat constructor; auto.
Qed.

Lemma obj_insert_index_wf (o : object) (i : N) (k : jsstring) (v : sfvalue) :
  wf_object o -> key_ok k -> value_ok v ->
  ~ In k (map fst o) -> array_index k = Some i ->
  wf_object (obj_insert_index o i k v).
Proof.
  intros [Hf Hs] Hk Hv Hnew Hi. unfold wf_object.
  induction o as [|[k' v'] o IH]; cbn [obj_insert_index].
  - split; repeat constructor; auto.
  - cbn [map fst In] in *. inversion Hf as [|? ? [Hk' Hv'] Hrest]; subst.
    apply StronglySorted_inv in Hs as [Hs Hb].
    assert (Hne : k' <> k) by tauto.
    destruct (array_index k') as [j|] eqn:Hj.
    + destruct (N.ltb_spec j i) as [Hlt|Hge].
      * destruct IH as [IHf IHs]; auto.
        split; [constructor; auto|]. cbn [map fst]. constructor; auto.
        apply obj_insert_index_keys; auto.
        split; [assumption|]. now rewrite Hj, Hi.
      * assert (Hij : i < j).
        { destruct (N.eq_dec i j) as [<-|]; [|lia].
          exfalso. apply Hne. now apply (array_index_inj k' k i). }
        split; [constructor; auto|]. cbn [map fst].
        constructor; [constructor; auto|].
        constructor.
        -- split; [congruence|]. now rewrite Hi, Hj.
        -- rewrite Forall_forall in *. intros x Hx.
           apply (before_trans_index k k' x i j); auto.
           intros ->. tauto.
    + split; [constructor; auto|]. cbn [map fst].
      constructor; [constructor; auto|].
      constructor.
      * split; [congruence|]. now rewrite Hi, Hj.
      * rewrite Forall_forall in *. intros x Hx.
        destruct (Hb x Hx) as [_ Hbx]. rewrite Hj in Hbx.
        split; [intros ->; tauto|]. rewrite Hi.
        destruct (array_index x); [contradiction|exact I].
Qed.

Lemma obj_set_wf (o : object) (k : jsstring) (v : sfvalue) :
  wf_object o -> key_ok k -> value_ok v -> wf_object (obj_set o k v).
Proof.
  intros Ho Hk Hv. unfold obj_set.
  destruct (obj_get o k) eqn:Hget; [now apply obj_replace_wf|].
  apply obj_get_none in Hget.
  destruct (array_index k) as [i|] eqn:Hi; [now apply obj_insert_index_wf|].
  destruct Ho as [Hf Hs]. split.
  - apply Forall_app. split; auto.
  - rewrite map_app. cbn [map fst]. apply StronglySorted_snoc. split; auto.
    rewrite Forall_forall. intros x Hx. split; [intros ->; tauto|].
    rewrite Hi. now destruct (array_index x).
Qed.

Lemma add_subfield_wf (o : object) (k v : jsstring) :
  wf_object o -> key_ok k -> text_ok v -> wf_object (add_subfield o k v).
Proof.
  intros Ho Hk Hv. unfold add_subfield.
  destruct (obj_get o k) as [[[|c s]|l]|] eqn:Hget;
    try (apply obj_set_wf; auto; fail).
  - apply obj_set_wf; auto.
    apply obj_get_in in Hget. destruct Ho as [Hf _].
    rewrite Forall_forall in Hf. destruct (Hf _ Hget) as [_ Hs].
    split; [exists (c :: s), v, []; split; [reflexivity|discriminate]|].
    constructor; [exact Hs|constructor; [exact Hv|constructor]].
  - apply obj_set_wf; auto.
    apply obj_get_in in Hget. destruct Ho as [Hf _].
    rewrite Forall_forall in Hf.
    destruct (Hf _ Hget) as [_ [(a & b & rest & -> & Ha) Hl]].
    split; [exists a, b, (rest ++ [v]); split; [reflexivity|assumption]|].
    apply Forall_app. split; [assumption|].
    constructor; [exact Hv|constructor].
Qed.

(** *** Reading subfields *)

Lemma scan_value_spec (bytes : list byte) :
  forall v after,
    scan_value bytes = (v, after) ->
    bytes = v ++ after /\ no_delimiter v.
Proof.
  induction bytes as [|b rest IH]; intros v after; cbn [scan_value].
  - intros [= <- <-]. split; reflexivity.
  - fold (is_delimiter b). destruct (is_delimiter b) eqn:Hb.
    + intros [= <- <-]. split; reflexivity.
    + destruct (scan_value rest) as [v' after'] eqn:E.
      intros [= <- <-]. destruct (IH v' after' eq_refl) as [-> Hv].
      split; [reflexivity|]. unfold no_delimiter in *. cbn [forallb].
      now rewrite Hb.
Qed.

Lemma scan_value_app (v rest : list byte) :
  no_delimiter v ->
  rest = [] \/ (exists r, rest = SUBFIELD_DELIMITER :: r) ->
  scan_value (v ++ rest) = (v, rest).
Proof.
  unfold no_delimiter. intros Hv Hrest. induction v as [|b v IH]; cbn [app].
  - destruct Hrest as [->|[r ->]]; reflexivity.
  - cbn [forallb] in Hv. apply andb_true_iff in Hv as [Hb Hv].
    cbn [scan_value]. fold (is_delimiter b).
    apply negb_true_iff in Hb. rewrite Hb, IH by assumption. reflexivity.
Qed.

Lemma fromCharCode_key (b : option byte) :
  (forall x, b = Some x -> x < 256) -> key_ok (fromCharCode b).
Proof.
  intros H. destruct b as [x|]; cbn [fromCharCode].
  - exists x. specialize (H x eq_refl).
    rewrite N.mod_small by lia. auto.
  - exists 0. split; [reflexivity|lia].
Qed.

(** What the parser reads from bytes is a well-formed object. *)
Lemma parseSubfields_loop_wf (fuel : nat) :
  forall bytes acc,
    bytes_ok bytes -> wf_object acc ->
    wf_object (parseSubfields_loop fuel bytes acc).
Proof.
  induction fuel as [|fuel IH]; intros bytes acc Hb Hacc; [exact Hacc|].
  cbn [parseSubfields_loop]. destruct bytes as [|b rest]; [exact Hacc|].
  apply bytes_ok_cons in Hb as [_ Hrest].
  destruct (b =? SUBFIELD_DELIMITER); [|now apply IH].
  destruct (scan_value _) as [v after] eqn:E.
  apply scan_value_spec in E as [Etl Hv].
  assert (Htl : bytes_ok (v ++ after)).
  { rewrite <- Etl. destruct rest; [reflexivity|].
    now apply bytes_ok_cons in Hrest. }
  apply bytes_ok_app in Htl as [Hva Hafter].
  apply IH; [assumption|].
  apply add_subfield_wf; [assumption| |].
  - apply fromCharCode_key. intros x Hx.
    destruct rest as [|y rest']; [discriminate|]. injection Hx as ->.
    now apply bytes_ok_cons in Hrest.
  - split; [apply decode_usv|now apply decode_no_delimiter].
Qed.

Lemma parseSubfields_wf (bytes : list byte) :
  bytes_ok bytes -> wf_object (parseSubfields bytes).
Proof.
  intros H. apply parseSubfields_loop_wf; [assumption|].
  split; constructor.
Qed.

Lemma subfield_parts_pairs (o : object) :
  subfield_parts o = pairs_bytes (pairs_of o).
Proof.
  unfold subfield_parts, pairs_bytes, pairs_of.
  induction o as [|[k v] o IH]; [reflexivity|].
  cbn [flat_map fst snd]. rewrite flat_map_app, <- IH. f_equal.
  induction (values_of v) as [|x xs IHx]; [reflexivity|].
  cbn [map flat_map fst snd]. now rewrite IHx.
Qed.

Lemma pairs_bytes_head (ps : list (jsstring * jsstring)) :
  pairs_bytes ps = [] \/ exists r, pairs_bytes ps = SUBFIELD_DELIMITER :: r.
Proof.
  destruct ps as [|p ps]; [now left|]. right.
  unfold pairs_bytes. cbn [flat_map app]. eauto.
Qed.

Lemma parseSubfields_loop_pairs (ps : list (jsstring * jsstring)) :
  forall fuel acc,
    Forall pair_ok ps ->
    (List.length (pairs_bytes ps) <= fuel)%nat ->
    parseSubfields_loop fuel (pairs_bytes ps) acc = replay ps acc.
Proof.
  induction ps as [|[k v] ps IH]; intros fuel acc Hok Hfuel.
  - destruct fuel; reflexivity.
  - inversion Hok as [|? ? [[(c & Hk & Hc) [Hva Hvd]] Hbom] Hrest]; subst.
    cbn [fst snd] in *. subst k.
    rewrite replay_cons. cbn [fst snd].
    change (pairs_bytes (([c], v) :: ps))
      with ([SUBFIELD_DELIMITER; c] ++ encode v ++ pairs_bytes ps) in *.
    cbn [app List.length] in Hfuel. rewrite length_app in Hfuel.
    destruct fuel as [|fuel]; [lia|].
    cbn [app parseSubfields_loop]. rewrite N.eqb_refl.
    cbn [hd_error tl fromCharCode].
    rewrite scan_value_app
      by (auto using pairs_bytes_head, encode_no_delimiter).
    rewrite decode_encode, N.mod_small by (assumption || lia).
    apply IH; [assumption|lia].
Qed.

Lemma pairs_of_text (o : object) :
  wf_object o -> Forall pair_text (pairs_of o).
Proof.
  intros [Hf _]. unfold pairs_of.
  induction o as [|[k v] o IH]; [constructor|].
  inversion Hf as [|? ? [Hk Hv] Hrest]; subst. cbn [flat_map fst snd] in *.
  apply Forall_app. split; [|auto].
  assert (Hvals : Forall text_ok (values_of v)).
  { destruct v as [s|l]; cbn [values_of].
    - repeat constructor; apply Hv.
    - apply Hv. }
  clear - Hk Hvals. induction Hvals; constructor; auto. split; assumption.
Qed.

Lemma pairs_of_no_bom (o : object) :
  object_no_bom o = true ->
  Forall (fun p => no_bom (snd p) = true) (pairs_of o).
Proof.
  unfold object_no_bom, pairs_of. intros H.
  induction o as [|[k v] o IH]; [constructor|].
  cbn [forallb flat_map fst snd] in *. apply andb_true_iff in H as [Hv Ho].
  apply Forall_app. split; [|auto].
  clear - Hv. induction (values_of v) as [|x xs IHx]; [constructor|].
  cbn [forallb map] in *. apply andb_true_iff in Hv as [Hx Hxs].
  constructor; auto.
Qed.

Lemma pairs_of_ok (o : object) :
  wf_object o -> object_no_bom o = true -> Forall pair_ok (pairs_of o).
Proof.
  intros Hwf Hbom. apply pairs_of_text in Hwf. apply pairs_of_no_bom in Hbom.
  rewrite Forall_forall in *. intros p Hp. split; auto.
Qed.

Lemma pairs_bytes_ok (ps : list (jsstring * jsstring)) :
  Forall pair_text ps -> bytes_ok (pairs_bytes ps).
Proof.
  induction 1 as [|[k v] ps [(c & Hk & Hc) [Hva _]] _ IH]; [reflexivity|].
  cbn [fst snd] in *. subst k.
  change (pairs_bytes (([c], v) :: ps))
    with ([SUBFIELD_DELIMITER; c] ++ encode v ++ pairs_bytes ps).
  apply bytes_ok_app. split; [|apply bytes_ok_app; auto using encode_bytes_ok].
  apply bytes_ok_cons. split; [unfold SUBFIELD_DELIMITER; lia|].
  apply bytes_ok_cons. split; [assumption|reflexivity].
Qed.

Lemma Uint8Array_from_bytes (l : list N) : bytes_ok l -> Uint8Array_from l = l.
Proof.
  unfold Uint8Array_from. induction l as [|x l IH]; [reflexivity|].
  rewrite bytes_ok_cons. intros [Hx Hl]. cbn [map].
  rewrite N.mod_small, IH by (assumption || lia). reflexivity.
Qed.

Lemma ascii_bytes_ok (l : list N) : ascii l -> bytes_ok l.
Proof.
  induction l as [|x l IH]; [reflexivity|].
  rewrite ascii_cons, bytes_ok_cons. intros [Hx Hl]. split; [lia|auto].
Qed.

(** Reading the subfields that [rebuildRecord] writes for a well-formed
    object gives the object back. *)
Lemma parseSubfields_subfield_parts (o : object) :
  wf_object o -> object_no_bom o = true ->
  parseSubfields (subfield_parts o) = o.
Proof.
  intros H Hbom. unfold parseSubfields. rewrite subfield_parts_pairs.
  rewrite parseSubfields_loop_pairs by (auto using pairs_of_ok).
  now apply replay_pairs_of.
Qed.

(** *** What the parser reads *)

Lemma bytes_ok_In (l : list byte) (x : byte) :
  bytes_ok l -> In x l -> x < 256.
Proof.
  unfold bytes_ok. rewrite forallb_forall. intros H Hx.
  now apply N.ltb_lt, H.
Qed.

Lemma bytes_ok_firstn (l : list byte) (n : nat) :
  bytes_ok l -> bytes_ok (firstn n l).
Proof.
  intros H. rewrite <- (firstn_skipn n l) in H.
  now apply bytes_ok_app in H.
Qed.

Lemma bytes_ok_skipn (l : list byte) (n : nat) :
  bytes_ok l -> bytes_ok (skipn n l).
Proof.
  intros H. rewrite <- (firstn_skipn n l) in H.
  now apply bytes_ok_app in H.
Qed.

Lemma slice_bytes_ok (data : list byte) (a b : option Z) :
  bytes_ok data -> bytes_ok (slice data a b).
Proof. intros H. unfold slice. now apply bytes_ok_firstn, bytes_ok_skipn. Qed.

Lemma slice_from_bytes_ok (data : list byte) (a : Z) :
  bytes_ok data -> bytes_ok (slice_from data a).
Proof. intros H. unfold slice_from. now apply bytes_ok_skipn. Qed.

Lemma nth_error_bytes_ok (data : list byte) (n : nat) (x : byte) :
  bytes_ok data -> nth_error data n = Some x -> x < 256.
Proof. intros H Hn. eapply bytes_ok_In; eauto using nth_error_In. Qed.

Lemma parseField_good (data : list byte) (startOffset : Z)
    (baseAddress : option Z) (directoryOffset : Z) (f : Field) :
  bytes_ok data ->
  parseField data startOffset baseAddress directoryOffset = Some f ->
  good_field f.
Proof.
  intros Hd. unfold parseField.
  match goal with
  | |- context [slice_from ?fd 2] => set (fieldData := fd)
  end.
  assert (Hfd : bytes_ok fieldData) by now apply slice_bytes_ok.
  destruct (is_directory_end _); [discriminate|]. intros [= <-].
  unfold good_field. cbn [tag body].
  destruct (starts_with_00 _) eqn:E.
  - split; [reflexivity|]. apply decode_usv.
  - split; [reflexivity|].
    assert (Hkey : forall n, key_ok (fromCharCode (nth_error fieldData n))).
    { intros n. apply fromCharCode_key. intros x Hx.
      eapply nth_error_bytes_ok; eauto. }
    split; [exact (Hkey 0%nat)|]. split; [exact (Hkey 1%nat)|].
    now apply parseSubfields_wf, slice_from_bytes_ok.
Qed.

Lemma directory_loop_good (data : list byte) (startOffset : Z)
    (baseAddress directoryEnd : option Z) (fuel : nat) :
  bytes_ok data ->
  forall directoryOffset fields,
    Forall good_field fields ->
    Forall good_field
      (directory_loop fuel data startOffset baseAddress directoryOffset
                      directoryEnd fields).
Proof.
  intros Hd. induction fuel as [|fuel IH]; intros off fs Hfs; [exact Hfs|].
  cbn [directory_loop]. destruct (num_lt _ _); [|exact Hfs].
  destruct (parseField _ _ _ _) as [f|] eqn:E; [|exact Hfs].
  apply IH. apply Forall_app. split; [exact Hfs|].
  constructor; [|constructor]. eapply parseField_good; eauto.
Qed.

Lemma parseRecord_good (data : list byte) (offset : Z) (r : MarcRecord) :
  bytes_ok data ->
  parseRecord data offset = Some r ->
  good_record r /\ (offset < endOffset r)%Z.
Proof.
  intros Hd. unfold parseRecord.
  destruct (parseInt _) as [recordLength|]; [|discriminate].
  destruct (Z.leb_spec recordLength 0); [discriminate|].
  intros [= <-]. cbn [endOffset]. split; [|lia].
  unfold good_record. cbn [fields].
  apply directory_loop_good; [assumption|constructor].
Qed.

Lemma parse_loop_good (data : list byte) (fuel : nat) :
  bytes_ok data ->
  forall offset records,
    Forall good_record records ->
    Forall good_record (parse_loop fuel data offset records).
Proof.
  intros Hd. induction fuel as [|fuel IH]; intros off rs Hrs; [exact Hrs|].
  cbn [parse_loop].
  destruct (Z.ltb_spec off (Z.of_nat (List.length data))); [|exact Hrs].
  destruct (nth _ data 0 =? 0); [exact Hrs|]. cbn [orb].
  destruct (Z.leb_spec (Z.of_nat (List.length data)) (off + 24));
    [exact Hrs|].
  destruct (parseRecord data off) as [r|] eqn:E; [|exact Hrs].
  apply parseRecord_good in E as [Hr Hend]; [|assumption].
  apply IH. apply Forall_app. split; [exact Hrs|].
  constructor; [exact Hr|constructor].
Qed.

Lemma parse_good (buf : list byte) :
  bytes_ok buf -> Forall good_record (records (parse (new buf))).
Proof.
  intros H. unfold parse, new. cbn [records data].
  apply parse_loop_good; [assumption|constructor].
Qed.

(** *** The loops end by their own guards

    Each loop of the parser is given as much fuel as it can use; more fuel
    changes nothing. *)

Lemma scan_value_length (bytes : list byte) :
  (List.length (snd (scan_value bytes)) <= List.length bytes)%nat.
Proof.
  induction bytes as [|b rest IH]; cbn [scan_value]; [cbn; lia|].
  destruct ((b =? SUBFIELD_DELIMITER) || (b =? FIELD_TERMINATOR));
    [cbn; lia|].
  destruct (scan_value rest) as [v after]. cbn [snd List.length] in *. lia.
Qed.

Lemma parseSubfields_loop_fuel (fuel : nat) :
  forall fuel' bytes acc,
    (List.length bytes <= fuel)%nat -> (List.length bytes <= fuel')%nat ->
    parseSubfields_loop fuel bytes acc = parseSubfields_loop fuel' bytes acc.
Proof.
  induction fuel as [|fuel IH]; intros fuel' bytes acc H H'.
  - destruct bytes; [|cbn in H; lia]. destruct fuel'; reflexivity.
  - destruct bytes as [|b rest]; [destruct fuel'; reflexivity|].
    destruct fuel' as [|fuel']; [cbn in H'; lia|].
    cbn [parseSubfields_loop List.length] in *.
    destruct (b =? SUBFIELD_DELIMITER).
    + pose proof (scan_value_length (tl rest)) as Hlen.
      destruct (scan_value (tl rest)) as [v after]. cbn [snd] in Hlen.
      assert (List.length (tl rest) <= List.length rest)%nat
        by (destruct rest; cbn; lia).
      apply IH; lia.
    + apply IH; lia.
Qed.

Lemma directory_loop_fuel (data : list byte) (startOffset : Z)
    (baseAddress : option Z) (directoryEnd : Z) (fuel : nat) :
  forall fuel' directoryOffset fields,
    (directoryEnd - directoryOffset <= Z.of_nat fuel)%Z ->
    (directoryEnd - directoryOffset <= Z.of_nat fuel')%Z ->
    directory_loop fuel data startOffset baseAddress directoryOffset
                   (Some directoryEnd) fields
    = directory_loop fuel' data startOffset baseAddress directoryOffset
                     (Some directoryEnd) fields.
Proof.
  induction fuel as [|fuel IH]; intros fuel' off fs H H'.
  - destruct fuel' as [|fuel']; [reflexivity|].
    cbn [directory_loop num_lt].
    destruct (Z.ltb_spec off directoryEnd); [lia|reflexivity].
  - destruct fuel' as [|fuel'].
    + cbn [directory_loop num_lt].
      destruct (Z.ltb_spec off directoryEnd); [lia|reflexivity].
    + cbn [directory_loop num_lt].
      destruct (Z.ltb_spec off directoryEnd); [|reflexivity].
      destruct (parseField data startOffset baseAddress off); [|reflexivity].
      apply IH; lia.
Qed.

Lemma parse_loop_fuel (data : list byte) (fuel : nat) :
  forall fuel' offset records,
    (Z.of_nat (List.length data) - offset <= Z.of_nat fuel)%Z ->
    (Z.of_nat (List.length data) - offset <= Z.of_nat fuel')%Z ->
    parse_loop fuel data offset records = parse_loop fuel' data offset records.
Proof.
  induction fuel as [|fuel IH]; intros fuel' off rs H H'.
  - destruct fuel' as [|fuel']; [reflexivity|].
    cbn [parse_loop].
    destruct (Z.ltb_spec off (Z.of_nat (List.length data)));
      [lia|reflexivity].
  - destruct fuel' as [|fuel'].
    + cbn [parse_loop].
      destruct (Z.ltb_spec off (Z.of_nat (List.length data)));
        [lia|reflexivity].
    + cbn [parse_loop].
      destruct (Z.ltb_spec off (Z.of_nat (List.length data)));
        [|reflexivity].
      destruct (_ || _); [reflexivity|].
      destruct (parseRecord data off) as [r|] eqn:E; [|reflexivity].
      assert (off < endOffset r)%Z.
      { unfold parseRecord in E.
        destruct (parseInt _) as [recordLength|]; [|discriminate].
        destruct (Z.leb_spec recordLength 0); [discriminate|].
        injection E as <-. cbn [endOffset]. lia. }
      apply IH; lia.
Qed.

(** *** The layout of a rebuilt record *)

Lemma good_field_data (f : Field) :
  good_field f ->
  exists fieldData, field_data f = Some fieldData /\ bytes_ok fieldData.
Proof.
  unfold good_field, field_data. intros Hb.
  destruct (body f) as [d|ind1 ind2 sf raw].
  - destruct Hb as [-> Hd]. exists (encode d). auto using encode_bytes_ok.
  - destruct Hb as (-> & (c1 & -> & H1) & (c2 & -> & H2) & Hsf).
    cbn [charCodeAt0 hd].
    assert (Ha : bytes_ok ([c1; c2] ++ subfield_parts sf)).
    { apply bytes_ok_app. split.
      - apply bytes_ok_cons. split; [assumption|].
        apply bytes_ok_cons. split; [assumption|reflexivity].
      - rewrite subfield_parts_pairs.
        apply pairs_bytes_ok, pairs_of_text, Hsf. }
    rewrite Uint8Array_from_bytes by assumption. eauto.
Qed.

Lemma field_bytes_length (f : Field) :
  good_field f -> List.length (field_bytes f) = field_length f.
Proof.
  intros H. destruct (good_field_data f H) as (d & E & _).
  unfold field_bytes, field_length. rewrite E, length_app. cbn. lia.
Qed.

Lemma rebuild_fields_layout (fs : list Field) :
  Forall good_field fs ->
  forall parts entries currentOffset,
    rebuild_fields fs parts entries currentOffset
    = Some (parts ++ map field_bytes fs,
            entries ++ entries_from fs currentOffset).
Proof.
  induction 1 as [|f fs Hf _ IH]; intros parts entries c.
  - cbn. now rewrite !app_nil_r.
  - cbn [rebuild_fields map entries_from].
    destruct (good_field_data f Hf) as (d & E & _).
    assert (Eb : field_bytes f = d ++ [FIELD_TERMINATOR])
      by (unfold field_bytes; now rewrite E).
    assert (El : field_length f = List.length (d ++ [FIELD_TERMINATOR]))
      by (unfold field_length; rewrite E, length_app; cbn; lia).
    rewrite E, IH, Eb, El, <- !app_assoc. reflexivity.
Qed.

Lemma firstn_length_app {A} (a x : list A) :
  firstn (List.length a) (a ++ x) = a.
Proof.
  induction a as [|y a IH]; cbn [List.length firstn app].
  - now destruct x.
  - now rewrite IH.
Qed.

Lemma skipn_length_app {A} (a x : list A) (n : nat) :
  skipn (List.length a + n) (a ++ x) = skipn n x.
Proof. induction a as [|y a IH]; cbn [List.length skipn app Nat.add]; auto. Qed.

Lemma typed_set_middle (a b c s : list byte) :
  List.length b = List.length s ->
  typed_set (a ++ b ++ c) s (List.length a) = Some (a ++ s ++ c).
Proof.
  intros H. unfold typed_set. rewrite !length_app.
  destruct (Nat.leb_spec (List.length s + List.length a)
              (List.length a + (List.length b + List.length c))); [|lia].
  rewrite firstn_length_app, skipn_length_app, <- H.
  rewrite <- (Nat.add_0_r (List.length b)), skipn_length_app. reflexivity.
Qed.

Lemma typed_set_start (b c s : list byte) :
  List.length b = List.length s ->
  typed_set (b ++ c) s 0 = Some (s ++ c).
Proof. apply (typed_set_middle [] b c s). Qed.

Lemma set_entries_layout (entries : list (list byte)) :
  Forall (fun e => List.length e = 12%nat) entries ->
  forall pre,
    set_entries (pre ++ repeat 0 (List.length entries * 12 + 1)) entries
                (List.length pre)
    = Some (pre ++ List.concat entries ++ [FIELD_TERMINATOR]).
Proof.
  induction 1 as [|e es He _ IH]; intros pre.
  - cbn [set_entries List.length Nat.mul Nat.add repeat List.concat app].
    rewrite <- (app_nil_r (pre ++ [0])), <- app_assoc.
    rewrite typed_set_middle by reflexivity. reflexivity.
  - cbn [set_entries List.length List.concat].
    replace (S (List.length es) * 12 + 1)%nat
      with (12 + (List.length es * 12 + 1))%nat by lia.
    rewrite repeat_app, typed_set_middle by (rewrite repeat_length; lia).
    replace (List.length pre + 12)%nat with (List.length (pre ++ e))
      by (rewrite length_app; lia).
    rewrite app_assoc, IH, <- !app_assoc. reflexivity.
Qed.

Lemma field_fits_spec (f : Field) :
  field_fits f = true ->
  List.length (tag f) = 3%nat /\ ascii (tag f)
  /\ N.of_nat (field_length f) <= 9999 /\ field_no_bom f = true.
Proof.
  unfold field_fits. rewrite !andb_true_iff, Nat.eqb_eq, N.leb_le.
  intros [[[H1 H2] H3] H4]. auto.
Qed.

Lemma directory_entry_canonical (t : jsstring) (len off : N) :
  ascii t -> List.length t = 3%nat -> len < 10000 -> off < 100000 ->
  directory_entry t len off
  = t ++ padStart 4 48 (String_of_N len) ++ padStart 5 48 (String_of_N off)
  /\ List.length (directory_entry t len off) = 12%nat.
Proof.
  intros Ht Hl Hlen Hoff.
  destruct (decimal_field_4 len Hlen) as (L4 & A4 & _).
  destruct (decimal_field_5 off Hoff) as (L5 & A5 & _).
  assert (E : directory_entry t len off
              = t ++ padStart 4 48 (String_of_N len)
                  ++ padStart 5 48 (String_of_N off)).
  { unfold directory_entry, padEnd. rewrite Hl. cbn [Nat.sub repeat].
    rewrite app_nil_r, encode_ascii by (rewrite !ascii_app; auto).
    reflexivity. }
  split; [exact E|]. rewrite E, !length_app. lia.
Qed.

Lemma entries_from_length (fs : list Field) :
  forallb field_fits fs = true ->
  forall c,
    c + N.of_nat (list_sum (map field_length fs)) < 100000 ->
    Forall (fun e => List.length e = 12%nat) (entries_from fs c).
Proof.
  induction fs as [|f fs IH]; intros Hfit c Hc; [constructor|].
  cbn [forallb] in Hfit. apply andb_true_iff in Hfit as [Hf Hfs].
  apply field_fits_spec in Hf as (Hl & Ht & H9 & _).
  cbn [map list_sum fold_right] in Hc. cbn [entries_from]. constructor.
  - apply directory_entry_canonical; auto; lia.
  - apply IH; [assumption|unfold list_sum in *; lia].
Qed.

Lemma substring_length (a b : nat) (s : jsstring) :
  (b <= List.length s)%nat -> List.length (substring a b s) = (b - a)%nat.
Proof.
  intros H. unfold substring. rewrite length_firstn, length_skipn. lia.
Qed.

Lemma substring_ascii (a b : nat) (s : jsstring) :
  ascii s -> ascii (substring a b s).
Proof. intros H. unfold substring. now apply ascii_firstn, ascii_skipn. Qed.

Lemma build_leader_canonical (leader : jsstring) (recordLength baseAddress : N) :
  ascii leader -> List.length leader = 24%nat ->
  recordLength < 100000 -> baseAddress < 100000 ->
  build_leader leader recordLength baseAddress
  = leader_text leader recordLength baseAddress
  /\ List.length (leader_text leader recordLength baseAddress) = 24%nat
  /\ ascii (leader_text leader recordLength baseAddress).
Proof.
  intros Ha Hl Hr Hb.
  destruct (decimal_field_5 recordLength Hr) as (Lr & Ar & _).
  destruct (decimal_field_5 baseAddress Hb) as (Lb & Ab & _).
  assert (Hlen : List.length (leader_text leader recordLength baseAddress)
                 = 24%nat).
  { unfold leader_text. rewrite !length_app, Lr, Lb.
    rewrite !substring_length by lia. reflexivity. }
  assert (Hascii : ascii (leader_text leader recordLength baseAddress)).
  { unfold leader_text. rewrite !ascii_app.
    repeat split; auto using substring_ascii. }
  split; [|auto].
  unfold build_leader. cbn [List.concat]. rewrite app_nil_r.
  fold (leader_text leader recordLength baseAddress).
  unfold padEnd. rewrite Hlen. cbn [Nat.sub repeat]. rewrite app_nil_r.
  unfold substring at 1. cbn [skipn Nat.sub].
  rewrite <- Hlen at 1. rewrite firstn_all. now apply encode_ascii.
Qed.

Lemma list_sum_field_bytes (fs : list Field) :
  Forall good_field fs ->
  List.length (List.concat (map field_bytes fs))
  = list_sum (map field_length fs).
Proof.
  induction 1 as [|f fs Hf _ IH]; [reflexivity|].
  cbn [map List.concat list_sum fold_right].
  rewrite length_app, field_bytes_length by assumption.
  unfold list_sum in IH. now rewrite IH.
Qed.

Lemma length_concat_12 (entries : list (list byte)) :
  Forall (fun e => List.length e = 12%nat) entries ->
  List.length (List.concat entries) = (List.length entries * 12)%nat.
Proof.
  induction 1 as [|e es He _ IH]; [reflexivity|].
  cbn [List.concat List.length]. rewrite length_app, IH. lia.
Qed.

Lemma entries_from_count (fs : list Field) (c : N) :
  List.length (entries_from fs c) = List.length fs.
Proof.
  revert c. induction fs as [|f fs IH]; intros c; [reflexivity|].
  cbn [entries_from List.length]. now rewrite IH.
Qed.

Lemma record_fits_spec (r : MarcRecord) :
  record_fits r = true ->
  forallb field_fits (fields r) = true /\ N.of_nat (record_length r) <= 99999
  /\ List.length (leader r) = 24%nat /\ ascii (leader r).
Proof.
  unfold record_fits. rewrite !andb_true_iff, Nat.eqb_eq, N.leb_le.
  intros [[[H1 H2] H3] H4]. auto.
Qed.

(** A record that the parser has read and that fits is
    rebuilt as leader, directory, fields and terminator, one after the
    other. *)
Lemma rebuildRecord_layout (r : MarcRecord) :
  good_record r -> record_fits r = true ->
  rebuildRecord r
  = Some (leader_text (leader r) (N.of_nat (record_length r))
                      (N.of_nat (base_address r))
            ++ rebuilt_directory r ++ rebuilt_fieldData r
            ++ [RECORD_TERMINATOR])
  /\ List.length (rebuilt_directory r) = (List.length (fields r) * 12 + 1)%nat
  /\ List.length (rebuilt_fieldData r) = list_sum (map field_length (fields r)).
Proof.
  intros Hfs Hfit. unfold good_record in Hfs.
  apply record_fits_spec in Hfit as (Hff & Hrl & Hll & Hla).
  unfold record_length, base_address in Hrl.
  assert (H12 : Forall (fun e => List.length e = 12%nat)
                       (entries_from (fields r) 0))
    by (apply entries_from_length; auto; lia).
  assert (Hdir : List.length (rebuilt_directory r)
                 = (List.length (fields r) * 12 + 1)%nat).
  { unfold rebuilt_directory.
    rewrite length_app, length_concat_12, entries_from_count by assumption.
    reflexivity. }
  assert (Hfd : List.length (rebuilt_fieldData r)
                = list_sum (map field_length (fields r)))
    by now apply list_sum_field_bytes.
  split; [|auto].
  unfold rebuildRecord.
  rewrite (rebuild_fields_layout (fields r) Hfs [] [] 0). cbn [app].
  fold (rebuilt_fieldData r). unfold build_directory.
  pose proof (set_entries_layout (entries_from (fields r) 0) H12 []) as Hset.
  cbn [app List.length] in Hset. rewrite Hset.
  fold (rebuilt_directory r). rewrite Hdir, Hfd.
  fold (base_address r). fold (record_length r).
  destruct (build_leader_canonical (leader r) (N.of_nat (record_length r))
              (N.of_nat (base_address r)) Hla Hll)
    as (-> & Hlen & _); [unfold record_length, base_address; lia ..|].
  set (L := leader_text _ _ _) in *.
  set (D := rebuilt_directory r) in *.
  set (F := rebuilt_fieldData r) in *.
  assert (Hzero : repeat 0 (record_length r)
                  = repeat 0 24 ++ repeat 0 (List.length D)
                      ++ repeat 0 (List.length F) ++ repeat 0 1).
  { rewrite <- !repeat_app. f_equal.
    unfold record_length, base_address. lia. }
  rewrite Hzero.
  rewrite typed_set_start by (rewrite repeat_length; lia).
  rewrite <- Hlen.
  rewrite typed_set_middle by (rewrite repeat_length; lia).
  replace (base_address r) with (List.length (L ++ D))
    by (rewrite length_app; unfold base_address; lia).
  rewrite app_assoc.
  rewrite typed_set_middle by (rewrite repeat_length; lia).
  replace (record_length r - 1)%nat with (List.length ((L ++ D) ++ F))
    by (rewrite !length_app; unfold record_length, base_address; lia).
  rewrite app_assoc, <- (app_nil_r (repeat 0 1)).
  rewrite typed_set_middle by reflexivity.
  rewrite <- !app_assoc. reflexivity.
Qed.

(** *** Reading a rebuilt record *)

Lemma slice_Z (data : list byte) (x y : Z) :
  (0 <= x <= y)%Z ->
  slice data (Some x) (Some y)
  = firstn (Z.to_nat (y - x)) (skipn (Z.to_nat x) data).
Proof.
  intros H.
  replace x with (Z.of_nat (Z.to_nat x)) at 1 by lia.
  replace y with (Z.of_nat (Z.to_nat x) + Z.of_nat (Z.to_nat (y - x)))%Z at 1
    by lia.
  apply slice_nat.
Qed.

Lemma skipn_at {A} (data pre rest : list A) (x n : nat) :
  skipn x data = pre ++ rest -> n = List.length pre ->
  skipn (x + n) data = rest.
Proof.
  intros H ->. rewrite Nat.add_comm, <- skipn_skipn, H.
  rewrite <- (Nat.add_0_r (List.length pre)), skipn_length_app. reflexivity.
Qed.

Lemma firstn_at {A} (data pre rest : list A) (x n : nat) :
  skipn x data = pre ++ rest -> n = List.length pre ->
  firstn n (skipn x data) = pre.
Proof. intros -> ->. apply firstn_length_app. Qed.

Lemma is_directory_end_3 (t : jsstring) :
  List.length t = 3%nat -> is_directory_end t = false.
Proof.
  destruct t as [|a [|b [|c [|d t]]]]; try discriminate. intros _.
  unfold is_directory_end. cbn [jsstring_eqb]. now rewrite andb_false_r.
Qed.

Lemma key_ok_fromCharCode (c : N) : c < 256 -> fromCharCode (Some c) = [c].
Proof. intros H. cbn [fromCharCode]. rewrite N.mod_small by lia. reflexivity. Qed.

Lemma slice_from_2 (a b : byte) (l : list byte) :
  slice_from (a :: b :: l) 2 = l.
Proof.
  unfold slice_from.
  assert (relative_index (Z.of_nat (List.length (a :: b :: l))) 2 = 2%Z) as ->.
  { unfold relative_index. cbn [List.length].
    destruct (Z.ltb_spec 2 0); lia. }
  reflexivity.
Qed.

(** The content that the parser reads from the bytes of a field. *)
Lemma field_body_rebuilt (f : Field) (d : list byte) :
  good_field f -> field_no_bom f = true -> field_data f = Some d ->
  field_content
    {| tag := tag f; offset := None; flength := None;
       body := if starts_with_00 (tag f) then ControlField (decode d)
               else DataField (fromCharCode (nth_error d 0))
                              (fromCharCode (nth_error d 1))
                              (parseSubfields (slice_from d 2)) d;
       element := None |}
  = field_content f.
Proof.
  unfold good_field, field_no_bom, field_data, field_content.
  intros Hb Hbom. cbn [body tag].
  destruct (body f) as [x|ind1 ind2 sf raw].
  - destruct Hb as [-> Hx]. intros [= <-]. now rewrite decode_encode.
  - destruct Hb as (-> & (c1 & -> & H1) & (c2 & -> & H2) & Hsf).
    cbn [charCodeAt0 hd].
    assert (Ha : bytes_ok ([c1; c2] ++ subfield_parts sf)).
    { apply bytes_ok_app. split.
      - apply bytes_ok_cons. split; [assumption|].
        apply bytes_ok_cons. split; [assumption|reflexivity].
      - rewrite subfield_parts_pairs.
        apply pairs_bytes_ok, pairs_of_text, Hsf. }
    rewrite Uint8Array_from_bytes by assumption. intros [= <-].
    cbn [app nth_error]. rewrite !key_ok_fromCharCode by assumption.
    now rewrite slice_from_2, parseSubfields_subfield_parts.
Qed.

Lemma parseField_rebuilt (data : list byte) (off base dirOff : nat)
    (f : Field) (c : N) (tailD tailF : list byte) :
  good_field f -> field_fits f = true -> c < 100000 ->
  skipn dirOff data
  = directory_entry (tag f) (N.of_nat (field_length f)) c ++ tailD ->
  skipn (off + base + N.to_nat c) data = field_bytes f ++ tailF ->
  exists f',
    parseField data (Z.of_nat off) (Some (Z.of_nat base)) (Z.of_nat dirOff)
    = Some f'
    /\ field_content f' = field_content f.
Proof.
  intros Hf Hfit Hc HD HF.
  apply field_fits_spec in Hfit as (Hl & Ht & H9 & Hbom).
  destruct (directory_entry_canonical (tag f) (N.of_nat (field_length f)) c)
    as [E _]; auto; [lia|]. rewrite E, <- !app_assoc in HD.
  destruct (decimal_field_4 (N.of_nat (field_length f))) as (L4 & A4 & P4);
    [lia|].
  destruct (decimal_field_5 c Hc) as (L5 & A5 & P5).
  destruct (good_field_data f Hf) as (d & Ed & Had).
  assert (Elen : field_length f = S (List.length d))
    by (unfold field_length; now rewrite Ed).
  unfold field_bytes in HF. rewrite Ed, <- app_assoc in HF.
  unfold parseField.
  rewrite !slice_Z by lia.
  replace (Z.to_nat (Z.of_nat dirOff + 3 - Z.of_nat dirOff)) with 3%nat by lia.
  replace (Z.to_nat (Z.of_nat dirOff + 7 - (Z.of_nat dirOff + 3)))
    with 4%nat by lia.
  replace (Z.to_nat (Z.of_nat dirOff + 12 - (Z.of_nat dirOff + 7)))
    with 5%nat by lia.
  replace (Z.to_nat (Z.of_nat dirOff + 3)) with (dirOff + 3)%nat by lia.
  replace (Z.to_nat (Z.of_nat dirOff + 7)) with (dirOff + 3 + 4)%nat by lia.
  rewrite Nat2Z.id.
  rewrite (firstn_at data _ _ dirOff 3 HD (eq_sym Hl)).
  pose proof (skipn_at data _ _ dirOff 3 HD (eq_sym Hl)) as HD1.
  rewrite (firstn_at data _ _ (dirOff + 3) 4 HD1 (eq_sym L4)).
  pose proof (skipn_at data _ _ (dirOff + 3) 4 HD1 (eq_sym L4)) as HD2.
  rewrite (firstn_at data _ _ (dirOff + 3 + 4) 5 HD2 (eq_sym L5)).
  rewrite !decode_ascii by assumption.
  rewrite P4, P5, is_directory_end_3 by assumption.
  cbn [num_add].
  rewrite slice_Z by lia.
  replace (Z.to_nat (Z.of_nat off + Z.of_nat base + Z.of_N c
                     + Z.of_N (N.of_nat (field_length f)) + -1
                     - (Z.of_nat off + Z.of_nat base + Z.of_N c)))
    with (List.length d) by lia.
  replace (Z.to_nat (Z.of_nat off + Z.of_nat base + Z.of_N c))
    with (off + base + N.to_nat c)%nat by lia.
  rewrite (firstn_at data _ _ _ (List.length d) HF eq_refl).
  eexists. split; [reflexivity|].
  rewrite <- (field_body_rebuilt f d Hf Hbom Ed). reflexivity.
Qed.

Lemma directory_loop_rebuilt (data : list byte) (off base : nat)
    (tailD tailF : list byte) (fs : list Field) :
  Forall good_field fs ->
  forall c dirOff fuel acc,
    forallb field_fits fs = true ->
    c + N.of_nat (list_sum (map field_length fs)) < 100000 ->
    skipn dirOff data = List.concat (entries_from fs c) ++ tailD ->
    skipn (off + base + N.to_nat c) data
    = List.concat (map field_bytes fs) ++ tailF ->
    (List.length fs <= fuel)%nat ->
    exists fs',
      directory_loop fuel data (Z.of_nat off) (Some (Z.of_nat base))
        (Z.of_nat dirOff) (Some (Z.of_nat (dirOff + 12 * List.length fs)))
        acc
      = acc ++ fs'
      /\ map field_content fs' = map field_content fs.
Proof.
  induction 1 as [|f fs Hf Hfs IH]; intros c dirOff fuel acc Hfit Hc HD HF Hfuel.
  - exists []. rewrite app_nil_r. split; [|reflexivity].
    destruct fuel; [reflexivity|]. cbn [directory_loop num_lt List.length].
    destruct (Z.ltb_spec (Z.of_nat dirOff) (Z.of_nat (dirOff + 12 * 0)));
      [lia|reflexivity].
  - cbn [forallb] in Hfit. apply andb_true_iff in Hfit as [Hff Hfit].
    cbn [map list_sum fold_right] in Hc. fold (list_sum (map field_length fs)) in Hc.
    cbn [entries_from map List.concat] in HD, HF.
    rewrite <- app_assoc in HD, HF.
    destruct (parseField_rebuilt data off base dirOff f c _ _ Hf Hff
                ltac:(lia) HD HF) as (f' & Ef & Hcontent).
    pose proof (field_fits_spec f Hff) as (Hl & Ht & H9 & _).
    destruct (directory_entry_canonical (tag f) (N.of_nat (field_length f)) c)
      as [_ H12]; [assumption|assumption|lia|lia|].
    destruct fuel as [|fuel]; [cbn in Hfuel; lia|].
    cbn [directory_loop num_lt List.length].
    destruct (Z.ltb_spec (Z.of_nat dirOff)
                (Z.of_nat (dirOff + 12 * S (List.length fs)))); [|lia].
    rewrite Ef.
    destruct (IH (c + N.of_nat (field_length f)) (dirOff + 12)%nat fuel
                 (acc ++ [f']) Hfit)
      as (fs' & Eloop & Hcontents).
    + lia.
    + now apply (skipn_at data _ _ dirOff 12 HD).
    + replace (off + base + N.to_nat (c + N.of_nat (field_length f)))%nat
        with (off + base + N.to_nat c + field_length f)%nat by lia.
      apply (skipn_at data _ _ _ _ HF).
      symmetry. now apply field_bytes_length.
    + cbn [List.length] in Hfuel. lia.
    + exists (f' :: fs'). split.
      * replace (Z.of_nat dirOff + 12)%Z with (Z.of_nat (dirOff + 12)) by lia.
        replace (dirOff + 12 * S (List.length fs))%nat
          with (dirOff + 12 + 12 * List.length fs)%nat by lia.
        rewrite Eloop, <- app_assoc. reflexivity.
      * cbn [map]. now rewrite Hcontent, Hcontents.
Qed.

Lemma substring_mid (a b c d : jsstring) (x y : nat) :
  x = (List.length a + List.length b)%nat ->
  y = (x + List.length c)%nat ->
  substring x y (a ++ b ++ c ++ d) = c.
Proof.
  intros -> ->. unfold substring.
  rewrite skipn_length_app.
  rewrite <- (Nat.add_0_r (List.length b)), skipn_length_app. cbn [skipn].
  replace (List.length a + (List.length b + 0) + List.length c
           - (List.length a + (List.length b + 0)))%nat
    with (List.length c) by lia.
  apply firstn_length_app.
Qed.

Lemma rebuilt_bytes_length (r : MarcRecord) :
  good_record r -> record_fits r = true ->
  List.length (rebuilt_bytes r) = record_length r.
Proof.
  intros Hg Hfit.
  destruct (rebuildRecord_layout r Hg Hfit) as (_ & Hd & Hf).
  apply record_fits_spec in Hfit as (_ & Hrl & Hll & Hla).
  destruct (build_leader_canonical (leader r) (N.of_nat (record_length r))
              (N.of_nat (base_address r)) Hla Hll) as (_ & Hlen & _);
    [unfold record_length, base_address in *; lia ..|].
  unfold rebuilt_bytes. rewrite !length_app, Hlen, Hd, Hf.
  unfold record_length, base_address. cbn [List.length]. lia.
Qed.

Lemma parseRecord_rebuilt (data : list byte) (off : nat) (r : MarcRecord)
    (rest : list byte) :
  good_record r -> record_fits r = true ->
  skipn off data = rebuilt_bytes r ++ rest ->
  exists r',
    parseRecord data (Z.of_nat off) = Some r'
    /\ record_content r' = record_content r
    /\ endOffset r' = Z.of_nat (off + record_length r).
Proof.
  intros Hg Hfit Hdata. pose proof Hg as Hfs. unfold good_record in Hfs.
  destruct (rebuildRecord_layout r Hg Hfit) as (_ & Hd & Hf).
  pose proof (record_fits_spec r Hfit) as (Hff & Hrl & Hll & Hla).
  destruct (build_leader_canonical (leader r) (N.of_nat (record_length r))
              (N.of_nat (base_address r)) Hla Hll) as (_ & Hlen & Hascii);
    [unfold record_length, base_address in *; lia ..|].
  destruct (decimal_field_5 (N.of_nat (record_length r))) as (Lr & Ar & Pr);
    [lia|].
  destruct (decimal_field_5 (N.of_nat (base_address r))) as (Lb & Ab & Pb);
    [unfold record_length in *; lia|].
  unfold rebuilt_bytes in Hdata. rewrite <- !app_assoc in Hdata.
  set (L := leader_text _ _ _) in *.
  unfold parseRecord.
  rewrite slice_Z by lia.
  replace (Z.to_nat (Z.of_nat off + 24 - Z.of_nat off)) with 24%nat by lia.
  rewrite Nat2Z.id.
  rewrite (firstn_at data _ _ off 24 Hdata (eq_sym Hlen)).
  rewrite decode_ascii by assumption.
  assert (E5 : substring 0 5 L
               = padStart 5 48 (String_of_N (N.of_nat (record_length r)))).
  { unfold substring, L, leader_text. cbn [skipn Nat.sub].
    rewrite <- Lr at 1. apply firstn_length_app. }
  assert (E17 : substring 12 17 L
                = padStart 5 48 (String_of_N (N.of_nat (base_address r)))).
  { unfold L, leader_text. apply substring_mid.
    - rewrite Lr, substring_length by lia. reflexivity.
    - now rewrite Lb. }
  rewrite E5, E17, Pr, Pb.
  destruct (Z.leb_spec (Z.of_N (N.of_nat (record_length r))) 0);
    [unfold record_length in *; lia|].
  cbn [num_add to_integer].
  pose proof (skipn_at data _ _ off 24 Hdata (eq_sym Hlen)) as Hdir.
  unfold rebuilt_directory in Hdir. rewrite <- app_assoc in Hdir.
  assert (H12 : Forall (fun e => List.length e = 12%nat)
                       (entries_from (fields r) 0))
    by (apply entries_from_length; auto; unfold record_length in *; lia).
  assert (Hfield : skipn (off + base_address r + N.to_nat 0) data
                   = List.concat (map field_bytes (fields r))
                       ++ [RECORD_TERMINATOR] ++ rest).
  { replace (off + base_address r + N.to_nat 0)%nat
      with (off + (24 + List.length (rebuilt_directory r)))%nat
      by (rewrite Hd; unfold base_address; lia).
    rewrite Nat.add_assoc.
    apply (skipn_at data (rebuilt_directory r) _ (off + 24)); [|reflexivity].
    rewrite (skipn_at data _ _ off 24 Hdata (eq_sym Hlen)).
    reflexivity. }
  destruct (directory_loop_rebuilt data off (base_address r) _ _ (fields r) Hfs
              0 (off + 24)%nat
              (Z.to_nat (Z.of_nat off + Z.of_N (N.of_nat (base_address r)) + -1
                         - (Z.of_nat off + 24)))
              [] Hff ltac:(unfold record_length in *; lia) Hdir Hfield
              ltac:(unfold base_address; lia))
    as (fs' & Eloop & Hcontents).
  eexists. split; [reflexivity|]. split.
  - unfold record_content. cbn [fields].
    replace (Z.of_nat off + 24)%Z with (Z.of_nat (off + 24)) by lia.
    replace (Z.of_N (N.of_nat (base_address r))) with (Z.of_nat (base_address r))
      by lia.
    replace (Z.of_nat off + Z.of_nat (base_address r) + -1)%Z
      with (Z.of_nat (off + 24 + 12 * List.length (fields r)))
      by (unfold base_address; lia).
    replace (Z.of_nat (off + 24 + 12 * List.length (fields r))
             - Z.of_nat (off + 24))%Z
      with (Z.of_nat off + Z.of_N (N.of_nat (base_address r)) + -1
            - (Z.of_nat off + 24))%Z
      by (unfold base_address; lia).
    rewrite Eloop. exact Hcontents.
  - cbn [endOffset]. lia.
Qed.

Lemma decimal_field_5_head (n : N) :
  n < 100000 -> hd 0 (padStart 5 48 (String_of_N n)) <> 0.
Proof.
  intros H.
  pose proof (all_from_spec _ _ 0 n decimal_field_5_all) as Hok.
  rewrite N2Nat.id in Hok. specialize (Hok ltac:(lia) ltac:(lia)).
  unfold decimal_field_ok in Hok.
  apply andb_true_iff in Hok as [Hok _].
  apply andb_true_iff in Hok as [Hlen Hdigits].
  destruct (padStart 5 48 (String_of_N n)) as [|c s]; [discriminate|].
  cbn [forallb] in Hdigits. apply andb_true_iff in Hdigits as [Hc _].
  unfold is_digit, in_range in Hc. apply andb_true_iff in Hc as [Hc _].
  apply N.leb_le in Hc. cbn [hd]. lia.
Qed.

Lemma nth_skipn_hd {A} (l : list A) (n : nat) (d : A) :
  nth n l d = hd d (skipn n l).
Proof.
  revert l. induction n as [|n IH]; intros [|x l]; cbn [nth skipn hd]; auto.
Qed.

Lemma parse_loop_rebuilt (data : list byte) (rs : list MarcRecord) :
  Forall good_record rs ->
  forall off fuel acc,
    forallb record_fits rs = true ->
    skipn off data = List.concat (map rebuilt_bytes rs) ->
    (List.length rs <= fuel)%nat ->
    exists rs',
      parse_loop fuel data (Z.of_nat off) acc = acc ++ rs'
      /\ map record_content rs' = map record_content rs.
Proof.
  induction 1 as [|r rs Hg Hrs IH]; intros off fuel acc Hfit Hdata Hfuel.
  - exists []. rewrite app_nil_r. split; [|reflexivity].
    destruct fuel; [reflexivity|]. cbn [parse_loop].
    assert (Hlen : (List.length data <= off)%nat).
    { apply (f_equal (@List.length N)) in Hdata.
      rewrite length_skipn in Hdata. cbn in Hdata. lia. }
    destruct (Z.ltb_spec (Z.of_nat off) (Z.of_nat (List.length data)));
      [lia|reflexivity].
  - cbn [forallb] in Hfit. apply andb_true_iff in Hfit as [Hf Hfit].
    cbn [map List.concat] in Hdata.
    pose proof (rebuilt_bytes_length r Hg Hf) as Hlen.
    pose proof (record_fits_spec r Hf) as (_ & Hrl & _).
    assert (H26 : (26 <= record_length r)%nat)
      by (unfold record_length, base_address; lia).
    assert (Hbig : (off + record_length r <= List.length data)%nat).
    { apply (f_equal (@List.length N)) in Hdata.
      rewrite length_skipn, length_app, Hlen in Hdata. lia. }
    destruct (parseRecord_rebuilt data off r _ Hg Hf Hdata)
      as (r' & Er & Hcontent & Hend).
    destruct fuel as [|fuel]; [cbn in Hfuel; lia|].
    cbn [parse_loop]. rewrite Nat2Z.id.
    destruct (Z.ltb_spec (Z.of_nat off) (Z.of_nat (List.length data)));
      [|lia].
    assert (Hhd : nth off data 0 <> 0).
    { rewrite nth_skipn_hd, Hdata. unfold rebuilt_bytes, leader_text.
      pose proof (decimal_field_5_head (N.of_nat (record_length r))
                    ltac:(lia)) as Hh.
      destruct (padStart 5 48 (String_of_N (N.of_nat (record_length r))));
        [now cbn in Hh|exact Hh]. }
    destruct (N.eqb_spec (nth off data 0) 0); [contradiction|].
    destruct (Z.leb_spec (Z.of_nat (List.length data)) (Z.of_nat off + 24));
      [lia|].
    cbn [orb]. rewrite Er, Hend.
    destruct (IH (off + record_length r)%nat fuel (acc ++ [r']) Hfit)
      as (rs' & Eloop & Hcontents).
    + now apply (skipn_at data _ _ off _ Hdata).
    + cbn [List.length] in Hfuel. lia.
    + exists (r' :: rs'). split.
      * rewrite Eloop, <- app_assoc. reflexivity.
      * cbn [map]. now rewrite Hcontent, Hcontents.
Qed.

Lemma rebuild_all_layout (rs : list MarcRecord) :
  Forall good_record rs ->
  forallb record_fits rs = true ->
  rebuild_all rs = Some (map rebuilt_bytes rs).
Proof.
  induction 1 as [|r rs Hg _ IH]; intros Hfit; [reflexivity|].
  cbn [forallb] in Hfit. apply andb_true_iff in Hfit as [Hf Hfit].
  cbn [rebuild_all map].
  destruct (rebuildRecord_layout r Hg Hf) as (-> & _).
  fold (rebuilt_bytes r). now rewrite IH.
Qed.

Lemma rebuilt_count (rs : list MarcRecord) :
  Forall good_record rs ->
  forallb record_fits rs = true ->
  (List.length rs <= List.length (List.concat (map rebuilt_bytes rs)))%nat.
Proof.
  induction 1 as [|r rs Hg _ IH]; intros Hfit; [cbn; lia|].
  cbn [forallb] in Hfit. apply andb_true_iff in Hfit as [Hf Hfit].
  cbn [map List.concat List.length].
  rewrite length_app, rebuilt_bytes_length by assumption.
  specialize (IH Hfit). unfold record_length, base_address. lia.
Qed.

(** *** The round trip *)

Lemma directory_consistent_rebuilt (fs : list Field) :
  Forall good_field fs ->
  forall c,
    forallb field_fits fs = true ->
    c + N.of_nat (list_sum (map field_length fs)) < 100000 ->
    directory_consistent fs
      (List.concat (entries_from fs c) ++ [FIELD_TERMINATOR]) (N.to_nat c).
Proof.
  induction 1 as [|f fs Hf _ IH]; intros c Hfit Hc; [reflexivity|].
  cbn [forallb] in Hfit. apply andb_true_iff in Hfit as [Hff Hfit].
  cbn [map list_sum fold_right] in Hc.
  fold (list_sum (map field_length fs)) in Hc.
  pose proof (field_fits_spec f Hff) as (Hl & Ht & H9 & _).
  destruct (directory_entry_canonical (tag f) (N.of_nat (field_length f)) c)
    as [E _]; [assumption|assumption|lia|lia|].
  destruct (decimal_field_4 (N.of_nat (field_length f))) as (L4 & A4 & P4);
    [lia|].
  destruct (decimal_field_5 c) as (L5 & A5 & P5); [lia|].
  cbn [directory_consistent entries_from List.concat].
  exists (tag f), (padStart 4 48 (String_of_N (N.of_nat (field_length f)))),
    (padStart 5 48 (String_of_N c)),
    (List.concat (entries_from fs (c + N.of_nat (field_length f)))
       ++ [FIELD_TERMINATOR]).
  rewrite E, <- !app_assoc, !decode_ascii by assumption.
  rewrite field_bytes_length by assumption.
  repeat split; auto.
  - rewrite P4. f_equal; lia.
  - rewrite P5. f_equal; lia.
  - replace (N.to_nat c + field_length f)%nat
      with (N.to_nat (c + N.of_nat (field_length f))) by lia.
    apply IH; [assumption|lia].
Qed.

Lemma rebuilt_consistent (r : MarcRecord) :
  good_record r -> record_fits r = true ->
  record_consistent r (rebuilt_bytes r).
Proof.
  intros Hg Hfit. pose proof Hg as Hfs. unfold good_record in Hfs.
  destruct (rebuildRecord_layout r Hg Hfit) as (_ & Hd & Hf).
  pose proof (record_fits_spec r Hfit) as (Hff & Hrl & Hll & Hla).
  pose proof (rebuilt_bytes_length r Hg Hfit) as Hlen.
  destruct (build_leader_canonical (leader r) (N.of_nat (record_length r))
              (N.of_nat (base_address r)) Hla Hll) as (_ & HL & Hascii);
    [unfold record_length, base_address in *; lia ..|].
  destruct (decimal_field_5 (N.of_nat (record_length r))) as (Lr & Ar & Pr);
    [lia|].
  destruct (decimal_field_5 (N.of_nat (base_address r))) as (Lb & Ab & Pb);
    [unfold record_length in *; lia|].
  exists (leader_text (leader r) (N.of_nat (record_length r))
                      (N.of_nat (base_address r))),
    (rebuilt_directory r).
  cbv zeta. fold (rebuilt_fieldData r).
  split; [reflexivity|]. split; [exact HL|].
  split; [|split; [|split]].
  - change (firstn 5 ?l) with (substring 0 5 l).
    assert (substring 0 5 (leader_text (leader r) (N.of_nat (record_length r))
                                       (N.of_nat (base_address r)))
            = padStart 5 48 (String_of_N (N.of_nat (record_length r)))) as ->.
    { unfold substring, leader_text. cbn [skipn Nat.sub].
      rewrite <- Lr at 1. apply firstn_length_app. }
    rewrite decode_ascii, Pr, Hlen by assumption. f_equal; lia.
  - change (firstn 5 (skipn 12 ?l)) with (substring 12 17 l).
    assert (substring 12 17 (leader_text (leader r)
                               (N.of_nat (record_length r))
                               (N.of_nat (base_address r)))
            = padStart 5 48 (String_of_N (N.of_nat (base_address r)))) as ->.
    { unfold leader_text. apply substring_mid.
      - rewrite Lr, substring_length by lia. reflexivity.
      - now rewrite Lb. }
    rewrite decode_ascii, Pb, Hd by assumption.
    f_equal; unfold base_address; lia.
  - rewrite Hlen, Hd, Hf. unfold record_length, base_address. lia.
  - unfold rebuilt_directory.
    apply (directory_consistent_rebuilt (fields r) Hfs 0 Hff).
    unfold record_length in *. lia.
Qed.

(** C1, as the code has it: for every buffer of bytes whose decoded
    records fit the format (the leader has 24 characters and every tag
    three, each of them one byte long; no control field and no subfield
    value starts with a byte order mark; every rebuilt field has a length
    of at most four digits and every rebuilt record a length of at most
    five), rebuilding succeeds, every rebuilt record is consistent, and
    decoding the output again gives the same tags, indicators, subfield
    codes and values in the same order.  Identity of the bytes is not
    claimed. *)
Theorem rebuild_round_trip_fits (buf : list byte) :
  bytes_ok buf ->
  forallb record_fits (records (parse (new buf))) = true ->
  rebuild_round_trip buf.
Proof.
  intros Hbytes Hfit. unfold rebuild_round_trip. cbv zeta.
  pose proof (parse_good buf Hbytes) as Hgood.
  set (rs := records (parse (new buf))) in *.
  exists (List.concat (map rebuilt_bytes rs)).
  split; [|split].
  - unfold exportBinary. fold rs. now rewrite rebuild_all_layout.
  - intros r Hr. exists (rebuilt_bytes r).
    rewrite Forall_forall in Hgood. rewrite forallb_forall in Hfit.
    split.
    + now apply rebuildRecord_layout; auto.
    + apply rebuilt_consistent; auto.
  - unfold parse, new. cbn [records data].
    destruct (parse_loop_rebuilt (List.concat (map rebuilt_bytes rs)) rs Hgood
                0%nat (List.length (List.concat (map rebuilt_bytes rs))) []
                Hfit eq_refl (rebuilt_count rs Hgood Hfit))
      as (rs' & E & Hcontents).
    cbn [Z.of_nat app] in E. rewrite E. exact Hcontents.
Qed.

Example bronte_record_parsed :
  map record_content (records (parse (new bronte_record)))
  = [[ControlContent (js "001") (js "67890");
      DataContent (js "100") (js "1") (js " ")
        [(js "a", SStr (js "Bront" ++ [235] ++ js ", Charlotte,"));
         (js "d", SStr (js "1816-1855"))]]].
Proof. reflexivity. Qed.

(** A witness for C1: the two sample records, one after the other. *)
Lemma rebuild_round_trip_fits_witness :
  rebuild_round_trip (woolf_record ++ bronte_record).
Proof.
  apply rebuild_round_trip_fits.
  - reflexivity.
  - vm_compute. reflexivity.
Defined.

(** C1 as stated does not hold: the buffer decodes to two records, the
    second with a field whose tag is the two characters that were there;
    rebuilding pads the tag to three characters, so that the field reads
    back under another tag. *)
Lemma rebuild_round_trip_counterexample :
  map record_content (records (parse (new cut_in_tag)))
  = [[ControlContent (js "001") (js "12345");
      DataContent (js "100") (js "1") (js " ")
        [(js "a", SStr (js "Woolf, Virginia,"));
         (js "d", SStr (js "1882-1941"))]];
     [ControlContent (js "001") [];
      DataContent (js "10") [0] [0] []]]
  /\ exists out,
      exportBinary (parse (new cut_in_tag)) = Some out
      /\ map record_content (records (parse (new out)))
         = [[ControlContent (js "001") (js "12345");
             DataContent (js "100") (js "1") (js " ")
               [(js "a", SStr (js "Woolf, Virginia,"));
                (js "d", SStr (js "1882-1941"))]];
            [ControlContent (js "001") [];
             DataContent (js "10 ") [0] [0] []]]
      /\ map record_content (records (parse (new out)))
         <> map record_content (records (parse (new cut_in_tag))).
Proof.
  split; [reflexivity|].
  eexists. split; [vm_compute; reflexivity|].
  split; [reflexivity|]. vm_compute. discriminate.
Qed.

Example rebuild_round_trip_bom :
  map record_content (records (parse (new bom_record)))
  = [[ControlContent (js "001") [65279]]]
  /\ exists out,
      exportBinary (parse (new bom_record)) = Some out
      /\ map record_content (records (parse (new out)))
         = [[ControlContent (js "001") []]].
Proof.
  split; [reflexivity|].
  eexists. split; [vm_compute; reflexivity|]. reflexivity.
Qed.

(** * Further properties *)

(** ** A sample run *)

Example woolf_run_report :
  exists result,
    snd woolf_run = Returned result
    /\ outputFilename result = js "woolf_enhanced.mrc"
    /\ fieldsUpdated (report result) = 1
    /\ map lccnUri (details (report result))
       = [Some (js "http://id.loc.gov/authorities/names/n79041870")].
Proof. eexists. split; [vm_compute; reflexivity|]. repeat split. Qed.

(** ** [levenshteinDistance] *)

(** A cell of the recurrence depends on the characters before it only. *)
Lemma lev_at_ext (s t s' t' : jsstring) (i : nat) :
  forall j,
    (forall k, (k < i)%nat -> nth k s 0 = nth k s' 0) ->
    (forall k, (k < j)%nat -> nth k t 0 = nth k t' 0) ->
    lev_at s t i j = lev_at s' t' i j.
Proof.
  induction i as [|i IHi]; intros j Hs Ht; [reflexivity|].
  induction j as [|j IHj]; [reflexivity|].
  rewrite !lev_at_step.
  rewrite (IHi (S j)), IHj, (IHi j), (Hs i), (Ht j); auto.
Qed.

Lemma edit_distance_snoc (s t : jsstring) (a b : N) :
  edit_distance (s ++ [a]) (t ++ [b])
  = min3 (edit_distance s (t ++ [b]) + 1)
         (edit_distance (s ++ [a]) t + 1)
         (edit_distance s t + if a =? b then 0 else 1).
Proof.
  unfold edit_distance. rewrite !length_app. cbn [List.length].
  rewrite !Nat.add_1_r, lev_at_step.
  rewrite !app_nth2, !Nat.sub_diag by lia. cbn [nth].
  f_equal; (apply (f_equal (fun x => x + _)));
    apply lev_at_ext; intros k Hk;
    rewrite ?app_nth1 by (rewrite ?length_app; cbn [List.length]; lia);
    reflexivity.
Qed.

(** X1.  [levenshteinDistance] is the edit distance of the classic
    recurrence: from or to the empty string it is the length of the other
    string, and for two strings that end in [a] and [b] it is the least of
    the distance after a deletion plus 1, after an insertion plus 1, and
    after a substitution plus 1 when [a] and [b] differ. *)
Theorem levenshteinDistance_recurrence :
  (forall t, levenshteinDistance [] t = N.of_nat (List.length t))
  /\ (forall s, levenshteinDistance s [] = N.of_nat (List.length s))
  /\ (forall s t a b,
         levenshteinDistance (s ++ [a]) (t ++ [b])
         = N.min (N.min (levenshteinDistance s (t ++ [b]) + 1)
                        (levenshteinDistance (s ++ [a]) t + 1))
                 (levenshteinDistance s t + if a =? b then 0 else 1)).
Proof.
  split; [|split].
  - intros t. rewrite levenshteinDistance_edit_distance.
    apply edit_distance_nil_l.
  - intros s. rewrite levenshteinDistance_edit_distance.
    apply edit_distance_nil_r.
  - intros s t a b. rewrite !levenshteinDistance_edit_distance.
    apply edit_distance_snoc.
Qed.

Lemma lev_at_zero (s t : jsstring) (i : nat) :
  forall j,
    lev_at s t i j = 0 ->
    i = j /\ forall k, (k < i)%nat -> nth k s 0 = nth k t 0.
Proof.
  induction i as [|i IHi]; intros j H.
  - cbn [lev_at] in H. split; [lia|]. intros k Hk. lia.
  - destruct j as [|j]; [rewrite lev_at_0 in H; lia|].
    rewrite lev_at_step in H.
    destruct (N.eqb_spec (nth i s 0) (nth j t 0)) as [E|E];
      [|unfold min3 in H; lia].
    assert (H0 : lev_at s t i j = 0) by (unfold min3 in H; lia).
    destruct (IHi j H0) as [<- Hk]. split; [reflexivity|].
    intros k Hlt. destruct (Nat.eq_dec k i) as [->|]; [exact E|].
    apply Hk. lia.
Qed.

Lemma lev_at_lower (s t : jsstring) (i : nat) :
  forall j,
    N.of_nat i <= lev_at s t i j + N.of_nat j
    /\ N.of_nat j <= lev_at s t i j + N.of_nat i.
Proof.
  induction i as [|i IHi]; intros j; [cbn [lev_at]; lia|].
  induction j as [|j IHj]; [rewrite lev_at_0; lia|].
  rewrite lev_at_step.
  pose proof (IHi (S j)). pose proof (IHi j).
  destruct (nth i s 0 =? nth j t 0); unfold min3; lia.
Qed.

Lemma lev_at_upper (s t : jsstring) (i : nat) :
  forall j, lev_at s t i j <= N.of_nat (Nat.max i j).
Proof.
  induction i as [|i IHi]; intros j; [cbn [lev_at]; lia|].
  destruct j as [|j]; [rewrite lev_at_0; lia|].
  rewrite lev_at_step. pose proof (IHi j).
  destruct (nth i s 0 =? nth j t 0); unfold min3; lia.
Qed.

(** X3.  The distance is at least the difference of the two lengths and at
    most the greater length. *)
Theorem levenshteinDistance_bounds (str1 str2 : jsstring) :
  let len1 := N.of_nat (List.length str1) in
  let len2 := N.of_nat (List.length str2) in
  len1 - len2 <= levenshteinDistance str1 str2
  /\ len2 - len1 <= levenshteinDistance str1 str2
  /\ levenshteinDistance str1 str2 <= N.max len1 len2.
Proof.
  cbv zeta. rewrite levenshteinDistance_edit_distance. unfold edit_distance.
  pose proof (lev_at_lower str1 str2 (List.length str1) (List.length str2)).
  pose proof (lev_at_upper str1 str2 (List.length str1) (List.length str2)).
  lia.
Qed.

Lemma lev_at_triangle (s t u : jsstring) (i : nat) :
  forall j k, lev_at s u i k <= lev_at s t i j + lev_at t u j k.
Proof.
  induction i as [|i IHi]; intros j k.
  - pose proof (lev_at_lower t u j k). cbn [lev_at]. lia.
  - induction j as [|j IHj] in k |- *.
    + pose proof (lev_at_upper s u (S i) k).
      rewrite lev_at_0. cbn [lev_at] in *. lia.
    + induction k as [|k IHk].
      * pose proof (lev_at_lower s t (S i) (S j)). rewrite !lev_at_0. lia.
      * pose proof (IHi (S j) (S k)). pose proof (IHi j (S k)).
        pose proof (IHi j k). pose proof (IHj (S k)). pose proof (IHj k).
        rewrite !lev_at_step in *.
        destruct (N.eqb_spec (nth i s 0) (nth j t 0));
          destruct (N.eqb_spec (nth j t 0) (nth k u 0));
          destruct (N.eqb_spec (nth i s 0) (nth k u 0));
          try congruence; unfold min3 in *; lia.
Qed.

(** X2.  The distance is a metric on strings: it is 0 exactly between a
    string and itself, it does not depend on the order of its arguments,
    and it obeys the triangle inequality. *)
Theorem levenshteinDistance_metric :
  (forall str1 str2, levenshteinDistance str1 str2 = 0 <-> str1 = str2)
  /\ (forall str1 str2,
         levenshteinDistance str1 str2 = levenshteinDistance str2 str1)
  /\ (forall str1 str2 str3,
         levenshteinDistance str1 str3
         <= levenshteinDistance str1 str2 + levenshteinDistance str2 str3).
Proof.
  split; [|split].
  - intros str1 str2. rewrite levenshteinDistance_edit_distance. split.
    + unfold edit_distance. intros H.
      apply lev_at_zero in H as [Hlen Hnth].
      apply (nth_ext _ _ 0 0 Hlen). exact Hnth.
    + intros ->. apply edit_distance_refl.
  - intros str1 str2. rewrite !levenshteinDistance_edit_distance.
    apply edit_distance_sym.
  - intros str1 str2 str3. rewrite !levenshteinDistance_edit_distance.
    apply lev_at_triangle.
Qed.

(** ** [normalizeString] *)

Lemma insert_sorted_permutation (c : N) (l : list N) :
  Permutation (insert_sorted c l) (c :: l).
Proof.
  induction l as [|x l IH]; cbn [insert_sorted]; [reflexivity|].
  destruct (c <=? x); [reflexivity|].
  rewrite IH. apply perm_swap.
Qed.

Lemma sort_chars_permutation (l : list N) : Permutation (sort_chars l) l.
Proof.
  induction l as [|x l IH]; [reflexivity|].
  cbn [sort_chars fold_right]. fold (sort_chars l).
  rewrite insert_sorted_permutation. now constructor.
Qed.

Lemma insert_sorted_sorted (c : N) (l : list N) :
  StronglySorted N.le l -> StronglySorted N.le (insert_sorted c l).
Proof.
  induction 1 as [|x l Hl IH Hx]; cbn [insert_sorted].
  - repeat constructor.
  - destruct (N.leb_spec c x).
    + constructor; [now constructor|].
      constructor; [assumption|].
      eapply Forall_impl; [|exact Hx]. cbn. intros; lia.
    + constructor; [assumption|].
      rewrite insert_sorted_permutation. constructor; [lia|assumption].
Qed.

Lemma sort_chars_sorted (l : list N) : StronglySorted N.le (sort_chars l).
Proof.
  induction l as [|x l IH]; [constructor|].
  cbn [sort_chars fold_right]. now apply insert_sorted_sorted.
Qed.

Lemma sort_chars_id (l : list N) : StronglySorted N.le l -> sort_chars l = l.
Proof.
  induction 1 as [|x l Hl IH Hx]; [reflexivity|].
  cbn [sort_chars fold_right]. fold (sort_chars l). rewrite IH.
  destruct l as [|y l]; [reflexivity|]. cbn [insert_sorted].
  inversion Hx; subst. destruct (N.leb_spec x y); [reflexivity|lia].
Qed.

Lemma search_some (p : N -> bool) (s : jsstring) (i : nat) :
  search p s = Some i ->
  exists c, s = firstn i s ++ c :: skipn (S i) s
            /\ skipn i s = c :: skipn (S i) s
            /\ p c = true
            /\ forallb (fun x => negb (p x)) (firstn i s) = true.
Proof.
  revert i. induction s as [|x s IH]; intros i; [discriminate|].
  cbn [search]. destruct (p x) eqn:E.
  - intros [= <-]. exists x. cbn. auto.
  - destruct (search p s) as [k|]; [|discriminate]. cbn [option_map].
    intros [= <-]. destruct (IH k eq_refl) as (c & E1 & E2 & Hc & Hall).
    exists c. change (skipn (S (S k)) (x :: s)) with (skipn (S k) s).
    change (skipn (S k) (x :: s)) with (skipn k s).
    cbn [firstn forallb app]. rewrite E. cbn [negb andb].
    split; [now f_equal|]. auto.
Qed.

Lemma search_none (p : N -> bool) (s : jsstring) :
  search p s = None -> forallb (fun x => negb (p x)) s = true.
Proof.
  induction s as [|x s IH]; [reflexivity|].
  cbn [search forallb]. destruct (p x); [discriminate|].
  destruct (search p s); [discriminate|]. auto.
Qed.

Lemma substring_0 (i : nat) (s : jsstring) : substring 0 i s = firstn i s.
Proof. unfold substring. cbn [skipn]. now rewrite Nat.sub_0_r. Qed.

Lemma letters_first_permutation (l : jsstring) :
  Permutation (letters_first l) l.
Proof.
  unfold letters_first. destruct (search is_lower l) as [i|]; [|reflexivity].
  rewrite substring_0. unfold substring_from.
  rewrite Permutation_app_comm. now rewrite firstn_skipn.
Qed.

(** Punctuation is neither a letter, nor a digit, nor white space. *)
Lemma is_punctuation_class (c : N) :
  is_punctuation c = true ->
  is_lower c = false /\ is_upper c = false /\ is_digit c = false
  /\ is_whitespace c = false.
Proof.
  unfold is_punctuation. rewrite existsb_exists.
  intros (p & Hin & E). apply N.eqb_eq in E. subst p.
  vm_compute in Hin.
  repeat (destruct Hin as [<-|Hin]; [repeat split; reflexivity|]).
  contradiction.
Qed.

Lemma ascii_lower_lt (c : N) : c < 128 -> ascii_lower c < 128.
Proof.
  unfold ascii_lower, is_upper, in_range. intros H.
  destruct (N.leb_spec 65 c), (N.leb_spec c 90); cbn [andb]; lia.
Qed.

Lemma ascii_lower_not_upper (c : N) : is_upper (ascii_lower c) = false.
Proof.
  unfold ascii_lower, is_upper, in_range.
  destruct (N.leb_spec 65 c), (N.leb_spec c 90); cbn [andb];
    rewrite andb_false_iff, !N.leb_gt; lia.
Qed.

Lemma ascii_lower_id (c : N) : is_upper c = false -> ascii_lower c = c.
Proof. unfold ascii_lower. now intros ->. Qed.

Lemma ascii_lower_punctuation (c : N) :
  is_punctuation (ascii_lower c) = is_punctuation c.
Proof.
  unfold ascii_lower. destruct (is_upper c) eqn:E; [|reflexivity].
  destruct (is_punctuation c) eqn:Ep.
  - apply is_punctuation_class in Ep. destruct Ep as (_ & Hu & _). congruence.
  - destruct (is_punctuation (c + 32)) eqn:Ep'; [|reflexivity].
    apply is_punctuation_class in Ep'. destruct Ep' as (Hl & _).
    unfold is_upper, is_lower, in_range in *.
    rewrite andb_true_iff, !N.leb_le in E.
    rewrite andb_false_iff, !N.leb_gt in Hl. lia.
Qed.

(** The steps of [normalizeString] on an ASCII string. *)
Lemma normalizeString_ascii_steps (U : UnicodeData) (s : jsstring) :
  forallb is_ascii s = true ->
  normalizeString s
  = letters_first
      (sort_chars
         (filter (fun c => negb (is_whitespace c))
                 (map ascii_lower
                      (filter (fun c => negb (is_punctuation c)) s)))).
Proof.
  intros H. rewrite normalizeString_ascii by assumption.
  unfold normalizeString, letters_first.
  rewrite (@normalize_NFKD_ascii ascii_unicode) by now apply forallb_filter.
  rewrite (forallb_filter_id is_ascii) by now apply forallb_filter.
  reflexivity.
Qed.

Section KeyFacts.
Context {U : UnicodeData}.

(** What is sorted: ASCII, lower case, no white space. *)
Lemma normalizeString_sorted_part (s : jsstring) :
  exists l,
    normalizeString s = letters_first (sort_chars l)
    /\ Forall (fun c => c < 128 /\ is_whitespace c = false
                        /\ is_upper c = false) l.
Proof.
  unfold normalizeString. fold (letters_first).
  set (a := filter is_ascii _).
  assert (Ha : forallb is_ascii a = true) by apply forallb_filter_self.
  rewrite toLowerCase_ascii by exact Ha.
  eexists. split; [reflexivity|].
  apply Forall_forall. intros c Hc.
  apply filter_In in Hc as [Hc Hws]. apply in_map_iff in Hc as (x & <- & Hx).
  rewrite forallb_forall in Ha. specialize (Ha x Hx).
  apply is_ascii_lt in Ha. apply negb_true_iff in Hws.
  auto using ascii_lower_lt, ascii_lower_not_upper.
Qed.

End KeyFacts.

Lemma normalizeString_Forall (U : UnicodeData) (str : jsstring) :
  Forall (fun c => c < 128 /\ is_whitespace c = false /\ is_upper c = false)
         (normalizeString str).
Proof.
  destruct (normalizeString_sorted_part str) as (l & -> & Hl).
  rewrite Forall_forall in *. intros c Hc.
  apply (Permutation_in _ (letters_first_permutation _)) in Hc.
  apply (Permutation_in _ (sort_chars_permutation _)) in Hc.
  auto.
Qed.

(** X4.  Every character of a key is an ASCII character that is neither
    white space nor an upper-case letter, whatever the input and the
    Unicode data of the platform. *)
Theorem normalizeString_characters (U : UnicodeData) (str : jsstring) (c : N) :
  In c (normalizeString str) ->
  c < 128 /\ is_whitespace c = false /\ is_upper c = false.
Proof.
  pose proof (normalizeString_Forall U str) as H.
  rewrite Forall_forall in H. apply H.
Qed.

(** The letter h in the key of the name H. D. *)
Lemma normalizeString_characters_witness :
  In 104 (@normalizeString ascii_unicode (js "H. D."))
  /\ 104 < 128 /\ is_whitespace 104 = false /\ is_upper 104 = false.
Proof.
  assert (H : In 104 (@normalizeString ascii_unicode (js "H. D.")))
    by (vm_compute; auto).
  split; [exact H|].
  exact (normalizeString_characters ascii_unicode (js "H. D.") 104 H).
Defined.

Lemma StronglySorted_app_inv (a b : list N) :
  StronglySorted N.le (a ++ b) ->
  StronglySorted N.le a /\ StronglySorted N.le b
  /\ forall x y, In x a -> In y b -> x <= y.
Proof.
  induction a as [|c a IH]; cbn [app].
  - intros H. split; [constructor|]. split; [exact H|]. intros ? ? [].
  - intros H. inversion H as [|? ? Hs Hall]; subst.
    destruct (IH Hs) as (Ha & Hb & Hab).
    apply Forall_app in Hall as [Hca Hcb]. rewrite Forall_forall in Hcb.
    split; [now constructor|]. split; [exact Hb|].
    intros x y [<-|Hx] Hy; auto.
Qed.

Lemma letters_first_shape (l : jsstring) :
  StronglySorted N.le l ->
  (forallb (fun c => negb (is_lower c)) (letters_first l) = true
   /\ letters_first l = l)
  \/ (exists c hi lo,
         letters_first l = c :: hi ++ lo
         /\ l = lo ++ c :: hi
         /\ is_lower c = true
         /\ Forall (fun x => x < 97) lo).
Proof.
  intros Hs. unfold letters_first.
  destruct (search is_lower l) as [i|] eqn:E.
  - right. destruct (search_some _ _ _ E) as (c & El & Esk & Hc & Hlo).
    exists c, (skipn (S i) l), (firstn i l).
    rewrite substring_0. unfold substring_from. rewrite Esk.
    split; [reflexivity|]. split; [exact El|]. split; [exact Hc|].
    rewrite El in Hs. apply StronglySorted_app_inv in Hs as (_ & _ & Hle).
    apply Forall_forall. intros x Hx.
    specialize (Hle x c Hx (or_introl eq_refl)).
    rewrite forallb_forall in Hlo. specialize (Hlo x Hx).
    unfold is_lower, in_range in *.
    apply negb_true_iff, andb_false_iff in Hlo.
    apply andb_true_iff in Hc. rewrite !N.leb_le in Hc.
    rewrite !N.leb_gt in Hlo. lia.
  - left. split; [|reflexivity]. now apply search_none.
Qed.

(** X5.  A key that holds a lower-case letter starts with its letters: it
    is the part from the first letter on, in ascending order, followed by
    the characters below the letter a (the digits among them), in ascending
    order.  A key without a letter is in ascending order. *)
Theorem normalizeString_letters_first (U : UnicodeData) (str : jsstring) :
  (forallb (fun c => negb (is_lower c)) (normalizeString str) = true
   /\ StronglySorted N.le (normalizeString str))
  \/ (exists c hi lo,
         normalizeString str = c :: hi ++ lo
         /\ is_lower c = true
         /\ StronglySorted N.le (c :: hi)
         /\ StronglySorted N.le lo
         /\ Forall (fun x => x < 97) lo).
Proof.
  destruct (normalizeString_sorted_part str) as (l & -> & _).
  pose proof (sort_chars_sorted l) as Hs.
  destruct (letters_first_shape _ Hs) as [[Hno E]|(c & hi & lo & E & El & Hc & Hlo)].
  - left. split; [exact Hno|]. now rewrite E.
  - right. exists c, hi, lo. rewrite El in Hs.
    apply StronglySorted_app_inv in Hs as (Hslo & Hshi & _). auto.
Qed.

Lemma filter_map_commute (f : N -> N) (p : N -> bool) (l : list N) :
  (forall x, p (f x) = p x) ->
  filter p (map f l) = map f (filter p l).
Proof.
  intros H. induction l as [|x l IH]; [reflexivity|].
  cbn [map filter]. rewrite H. destruct (p x); cbn [map]; now rewrite IH.
Qed.

Lemma filter_filter (p q : N -> bool) (l : list N) :
  filter p (filter q l) = filter (fun x => q x && p x) l.
Proof.
  induction l as [|x l IH]; [reflexivity|].
  cbn [filter]. destruct (q x); cbn [filter andb]; [|exact IH].
  destruct (p x); now rewrite IH.
Qed.

Lemma map_id_on (f : N -> N) (l : list N) :
  Forall (fun x => f x = x) l -> map f l = l.
Proof. induction 1 as [|x l Hx _ IH]; cbn [map]; congruence. Qed.

(** The key of an ASCII string holds no punctuation. *)
Lemma normalizeString_ascii_no_punctuation (U : UnicodeData) (s : jsstring) :
  forallb is_ascii s = true ->
  forallb (fun c => negb (is_punctuation c)) (normalizeString s) = true.
Proof.
  intros H. rewrite normalizeString_ascii_steps by assumption.
  apply forallb_forall. intros c Hc.
  apply (Permutation_in _ (letters_first_permutation _)) in Hc.
  apply (Permutation_in _ (sort_chars_permutation _)) in Hc.
  apply filter_In in Hc as [Hc _]. apply in_map_iff in Hc as (x & <- & Hx).
  apply filter_In in Hx as [_ Hx]. now rewrite ascii_lower_punctuation.
Qed.

(** X6.  The key of an ASCII string is its own key: normalizing twice
    changes nothing. *)
Theorem normalizeString_idempotent (U : UnicodeData) (str : jsstring) :
  forallb is_ascii str = true ->
  normalizeString (normalizeString str) = normalizeString str.
Proof.
  intros H.
  pose proof (normalizeString_ascii_no_punctuation U str H) as Hnp.
  assert (Hchars : Forall (fun c => c < 128 /\ is_whitespace c = false
                                    /\ is_upper c = false)
                          (normalizeString str))
    by apply normalizeString_Forall.
  assert (Hascii : forallb is_ascii (normalizeString str) = true).
  { apply forallb_forall. intros c Hc. rewrite Forall_forall in Hchars.
    apply is_ascii_lt. now apply Hchars. }
  rewrite (normalizeString_ascii_steps U (normalizeString str)) by assumption.
  rewrite (forallb_filter_id _ _ Hnp).
  rewrite map_id_on
    by (eapply Forall_impl; [|exact Hchars]; cbn;
        intros c (_ & _ & Hu); now apply ascii_lower_id).
  rewrite forallb_filter_id
    by (apply forallb_forall; intros c Hc; rewrite Forall_forall in Hchars;
        apply negb_true_iff; now apply Hchars).
  destruct (normalizeString_sorted_part str) as (l & E & _).
  rewrite E at 1.
  rewrite (sort_chars_perm _ _ (letters_first_permutation _)).
  rewrite sort_chars_id by apply sort_chars_sorted.
  now rewrite E.
Qed.

Lemma normalizeString_idempotent_witness :
  @normalizeString ascii_unicode
    (@normalizeString ascii_unicode (js "Woolf, Virginia, 1882-1941"))
  = @normalizeString ascii_unicode (js "Woolf, Virginia, 1882-1941").
Proof.
  apply (normalizeString_idempotent ascii_unicode). reflexivity.
Defined.

(** X7.  On ASCII strings the key ignores case, punctuation and white
    space: two strings that are equal once lower-cased and stripped of
    punctuation and white space have the same key. *)
Theorem normalizeString_ascii_insensitive (U : UnicodeData)
    (s s' : jsstring) :
  forallb is_ascii s = true ->
  forallb is_ascii s' = true ->
  filter (fun c => negb (is_punctuation c || is_whitespace c))
         (map ascii_lower s)
  = filter (fun c => negb (is_punctuation c || is_whitespace c))
           (map ascii_lower s') ->
  normalizeString s = normalizeString s'.
Proof.
  intros Hs Hs' E.
  rewrite !normalizeString_ascii_steps by assumption.
  rewrite <- !(filter_map_commute ascii_lower
                 (fun c => negb (is_punctuation c)))
    by (intros x; now rewrite ascii_lower_punctuation).
  rewrite !filter_filter.
  assert (Hext : forall l,
             filter (fun x => negb (is_punctuation x)
                              && negb (is_whitespace x)) l
             = filter (fun c => negb (is_punctuation c || is_whitespace c)) l).
  { intros l. apply filter_ext. intros x. now rewrite negb_orb. }
  now rewrite !Hext, E.
Qed.

Lemma normalizeString_ascii_insensitive_witness :
  @normalizeString ascii_unicode (js "Woolf, Virginia")
  = @normalizeString ascii_unicode (js "WOOLF VIRGINIA!").
Proof.
  apply (normalizeString_ascii_insensitive ascii_unicode);
    vm_compute; reflexivity.
Defined.

(** ** [extractNameFromSubfields] *)

Lemma obj_get_Some_In (o : object) (k : jsstring) (v : sfvalue) :
  obj_get o k = Some v -> In (k, v) o.
Proof.
  induction o as [|[k' v'] o IH]; [discriminate|]. cbn [obj_get].
  destruct (jsstring_eqb k' k) eqn:E.
  - apply jsstring_eqb_eq in E. intros [= ->]. subst. now left.
  - intros H. right. auto.
Qed.

Lemma obj_get_In (o : object) (k : jsstring) (v : sfvalue) :
  NoDup (map fst o) -> In (k, v) o -> obj_get o k = Some v.
Proof.
  induction o as [|[k' v'] o IH]; [intros _ []|].
  cbn [map fst]. intros Hnd Hin. inversion Hnd as [|? ? Hk Hnd']; subst.
  cbn [obj_get]. destruct (jsstring_eqb k' k) eqn:E.
  - apply jsstring_eqb_eq in E. subst k'.
    destruct Hin as [[= ->]|Hin]; [reflexivity|].
    exfalso. apply Hk. apply in_map_iff. now exists (k, v).
  - destruct Hin as [[= -> ->]|Hin]; [now rewrite jsstring_eqb_refl in E|].
    auto.
Qed.

Lemma obj_get_permutation (o o' : object) (k : jsstring) :
  NoDup (map fst o) -> Permutation o o' -> obj_get o k = obj_get o' k.
Proof.
  intros Hnd Hp.
  assert (Hnd' : NoDup (map fst o'))
    by (eapply Permutation_NoDup; [apply Permutation_map, Hp|exact Hnd]).
  destruct (obj_get o k) as [v|] eqn:E.
  - symmetry. apply obj_get_In; [exact Hnd'|].
    eapply Permutation_in; [exact Hp|]. now apply obj_get_Some_In.
  - destruct (obj_get o' k) as [v|] eqn:E'; [|reflexivity].
    apply obj_get_Some_In in E'.
    apply (Permutation_in _ (Permutation_sym Hp)) in E'.
    apply (obj_get_In _ _ _ Hnd) in E'. congruence.
Qed.

(** X8.  The name does not depend on the order in which the subfields
    occur in the field: two objects with the same entries, each code once,
    give the same name, pieced together in the order a, b, c, q, d, g. *)
Theorem extractNameFromSubfields_order (subfields subfields' : object) :
  NoDup (map fst subfields) ->
  Permutation subfields subfields' ->
  extractNameFromSubfields subfields = extractNameFromSubfields subfields'.
Proof.
  intros Hnd Hp. unfold extractNameFromSubfields.
  do 3 f_equal. apply flat_map_ext. intros code.
  now rewrite (obj_get_permutation _ _ code Hnd Hp).
Qed.

Lemma extractNameFromSubfields_order_witness :
  extractNameFromSubfields
    [(js "a", SStr (js "Woolf, Virginia,")); (js "d", SStr (js "1882-1941"))]
  = extractNameFromSubfields
      [(js "d", SStr (js "1882-1941")); (js "a", SStr (js "Woolf, Virginia,"))].
Proof.
  apply extractNameFromSubfields_order.
  - repeat constructor; cbn; intuition discriminate.
  - apply perm_swap.
Defined.

Lemma trimStart_head (s : jsstring) (c : N) (r : jsstring) :
  trimStart s = c :: r -> is_whitespace c = false.
Proof.
  induction s as [|x s IH]; [discriminate|]. cbn [trimStart].
  destruct (is_whitespace x) eqn:E; [exact IH|]. now intros [= <- <-].
Qed.

Lemma trimStart_suffix (s : jsstring) :
  exists pre, s = pre ++ trimStart s.
Proof.
  induction s as [|x s [pre IH]]; [now exists []|]. cbn [trimStart].
  destruct (is_whitespace x).
  - exists (x :: pre). cbn [app]. now f_equal.
  - now exists [].
Qed.

Lemma trim_ends (s : jsstring) :
  (forall c r, trim s = c :: r -> is_whitespace c = false)
  /\ (forall c r, trim s = r ++ [c] -> is_whitespace c = false).
Proof.
  unfold trim. set (t := trimStart s).
  set (u := trimStart (rev t)). split.
  - intros c r E.
    assert (Eu : u = rev r ++ [c]) by (rewrite <- (rev_involutive u), E; reflexivity).
    destruct (trimStart_suffix (rev t)) as [pre Hpre]. fold u in Hpre.
    rewrite Eu, app_assoc in Hpre.
    apply (f_equal (@rev N)) in Hpre.
    rewrite rev_involutive, rev_app_distr in Hpre. cbn [rev app] in Hpre.
    exact (trimStart_head s c _ Hpre).
  - intros c r E.
    assert (Eu : u = c :: rev r).
    { rewrite <- (rev_involutive u), E, rev_app_distr. reflexivity. }
    exact (trimStart_head _ c _ Eu).
Qed.

(** X9.  The name neither starts nor ends with white space. *)
Theorem extractNameFromSubfields_trimmed (subfields : object) :
  (forall c r, extractNameFromSubfields subfields = c :: r ->
               is_whitespace c = false)
  /\ (forall c r, extractNameFromSubfields subfields = r ++ [c] ->
                  is_whitespace c = false).
Proof. unfold extractNameFromSubfields. apply trim_ends. Qed.

Lemma obj_replace_get_other (o : object) (k k' : jsstring) (v : sfvalue) :
  k' <> k -> obj_get (obj_replace o k v) k' = obj_get o k'.
Proof.
  intros Hk. induction o as [|[x w] o IH]; [reflexivity|].
  cbn [obj_replace]. destruct (jsstring_eqb x k) eqn:E; cbn [obj_get].
  - apply jsstring_eqb_eq in E. subst x.
    destruct (jsstring_eqb k k') eqn:E'; [|reflexivity].
    apply jsstring_eqb_eq in E'. congruence.
  - now rewrite IH.
Qed.

Lemma obj_insert_index_get_other (o : object) (i : N) (k k' : jsstring)
    (v : sfvalue) :
  k' <> k -> obj_get (obj_insert_index o i k v) k' = obj_get o k'.
Proof.
  intros Hk.
  assert (Hne : jsstring_eqb k k' = false).
  { destruct (jsstring_eqb k k') eqn:E; [|reflexivity].
    apply jsstring_eqb_eq in E. congruence. }
  induction o as [|[x w] o IH]; cbn [obj_insert_index obj_get].
  - now rewrite Hne.
  - destruct (array_index x) as [j|]; [destruct (j <? i)|];
      cbn [obj_get]; rewrite ?Hne, ?IH; reflexivity.
Qed.

Lemma obj_app_get_other (o : object) (k k' : jsstring) (v : sfvalue) :
  k' <> k -> obj_get (o ++ [(k, v)]) k' = obj_get o k'.
Proof.
  intros Hk. induction o as [|[x w] o IH]; cbn [app obj_get].
  - destruct (jsstring_eqb k k') eqn:E; [|reflexivity].
    apply jsstring_eqb_eq in E. congruence.
  - now rewrite IH.
Qed.

Lemma obj_set_get_other (o : object) (k k' : jsstring) (v : sfvalue) :
  k' <> k -> obj_get (obj_set o k v) k' = obj_get o k'.
Proof.
  intros Hk. unfold obj_set.
  destruct (obj_get o k); [now apply obj_replace_get_other|].
  destruct (array_index k);
    [now apply obj_insert_index_get_other|now apply obj_app_get_other].
Qed.

Lemma obj_replace_get_same (o : object) (k : jsstring) (v w : sfvalue) :
  obj_get o k = Some w -> obj_get (obj_replace o k v) k = Some v.
Proof.
  induction o as [|[x u] o IH]; [discriminate|]. cbn [obj_get obj_replace].
  destruct (jsstring_eqb x k) eqn:E; cbn [obj_get]; rewrite E; auto.
Qed.

Lemma obj_insert_index_get_same (o : object) (i : N) (k : jsstring)
    (v : sfvalue) :
  obj_get o k = None -> obj_get (obj_insert_index o i k v) k = Some v.
Proof.
  induction o as [|[x u] o IH]; cbn [obj_insert_index obj_get].
  - now rewrite jsstring_eqb_refl.
  - destruct (jsstring_eqb x k) eqn:E; [discriminate|]. intros H.
    destruct (array_index x) as [j|]; [destruct (j <? i)|];
      cbn [obj_get]; rewrite ?E, ?jsstring_eqb_refl; auto.
Qed.

Lemma obj_app_get_same (o : object) (k : jsstring) (v : sfvalue) :
  obj_get o k = None -> obj_get (o ++ [(k, v)]) k = Some v.
Proof.
  induction o as [|[x u] o IH]; cbn [app obj_get].
  - now rewrite jsstring_eqb_refl.
  - destruct (jsstring_eqb x k); [discriminate|auto].
Qed.

Lemma obj_set_get_same (o : object) (k : jsstring) (v : sfvalue) :
  obj_get (obj_set o k v) k = Some v.
Proof.
  unfold obj_set. destruct (obj_get o k) eqn:E.
  - eapply obj_replace_get_same; eauto.
  - destruct (array_index k);
      [now apply obj_insert_index_get_same|now apply obj_app_get_same].
Qed.

(** X10.  Writing subfield 0 does not change the name of the field: the
    name is made of the codes a, b, c, q, d and g only. *)
Theorem extractNameFromSubfields_after_update (subfields : object)
    (uri : jsstring) :
  extractNameFromSubfields (obj_set subfields (js "0") (SStr uri))
  = extractNameFromSubfields subfields.
Proof.
  unfold extractNameFromSubfields, name_subfield_order.
  cbn [flat_map]. rewrite !obj_set_get_other by discriminate. reflexivity.
Qed.

(** ** [convertLCCN] and [createLCCNUri] *)

Lemma String_of_N_inj (n m : N) : String_of_N n = String_of_N m -> n = m.
Proof.
  intros H. apply (f_equal decimal_value) in H.
  now rewrite !decimal_value_String_of_N in H.
Qed.

(** The prefixed form: the prefix of the first digit, then the other
    digits. *)
Lemma convertLCCN_form (n : N) (converted : jsstring) :
  convertLCCN n = Some converted ->
  exists d rest prefix,
    String_of_N n = d :: rest
    /\ spec_prefix d = Some prefix
    /\ converted = prefix ++ rest.
Proof.
  destruct (String_of_N n) as [|d rest] eqn:E;
    [now apply String_of_N_nonempty in E|].
  unfold convertLCCN. rewrite E. intros H. exists d, rest.
  revert H. unfold spec_prefix, prefixMap, assoc, js.
  cbn -[N.eqb]. rewrite !andb_true_r, !(N.eqb_sym _ d).
  repeat (destruct (d =? _); [intros [= <-]; eexists; split; [reflexivity|];
                              split; reflexivity|]).
  discriminate.
Qed.

Lemma spec_prefix_parse (d d' : N) (p p' rest rest' : jsstring) :
  spec_prefix d = Some p -> spec_prefix d' = Some p' ->
  forallb is_digit rest = true -> forallb is_digit rest' = true ->
  p ++ rest = p' ++ rest' -> d = d' /\ rest = rest'.
Proof.
  unfold spec_prefix. intros Hp Hp' Hr Hr' E.
  repeat match type of Hp with
         | (if ?x =? ?c then _ else _) = _ =>
             destruct (N.eqb_spec x c); [subst x; injection Hp as <-|]
         end; try discriminate;
  repeat match type of Hp' with
         | (if ?x =? ?c then _ else _) = _ =>
             destruct (N.eqb_spec x c); [subst x; injection Hp' as <-|]
         end; try discriminate;
  cbn in E; injection E as E; subst;
  try (split; reflexivity);
  try discriminate;
  cbn [forallb] in *;
  try (destruct rest; [discriminate|injection E as -> ->; discriminate]);
  try (destruct rest'; [discriminate|injection E as <- <-; discriminate]);
  try (injection E as ->; split; reflexivity).
Qed.

(** X11.  Two identifiers with the same URI are the same identifier. *)
Theorem createLCCNUri_injective (n m : N) (uri : jsstring) :
  n <= MAX_SAFE_INTEGER -> m <= MAX_SAFE_INTEGER ->
  createLCCNUri n = Some uri -> createLCCNUri m = Some uri -> n = m.
Proof.
  intros _ _. unfold createLCCNUri.
  destruct (convertLCCN n) as [c|] eqn:En; [|discriminate].
  destruct (convertLCCN m) as [c'|] eqn:Em; [|discriminate].
  destruct (nonempty c); [|discriminate].
  destruct (nonempty c'); [|discriminate].
  intros [= <-] [= E]. subst c'.
  apply convertLCCN_form in En as (d & rest & p & Sn & Hp & ->).
  apply convertLCCN_form in Em as (d' & rest' & p' & Sm & Hp' & E).
  pose proof (String_of_N_digits n) as Dn.
  pose proof (String_of_N_digits m) as Dm.
  rewrite Sn in Dn. rewrite Sm in Dm. cbn [forallb] in Dn, Dm.
  apply andb_true_iff in Dn as [_ Dn]. apply andb_true_iff in Dm as [_ Dm].
  destruct (spec_prefix_parse d d' p p' rest rest' Hp Hp' Dn Dm E) as [-> ->].
  apply String_of_N_inj. congruence.
Qed.

Lemma createLCCNUri_injective_witness :
  createLCCNUri 179041849
  = Some (js "http://id.loc.gov/authorities/names/nb79041849")
  /\ 179041849 = 179041849.
Proof.
  split; [reflexivity|].
  apply (createLCCNUri_injective 179041849 179041849
           (js "http://id.loc.gov/authorities/names/nb79041849"));
    vm_compute; (reflexivity || discriminate).
Defined.

(** ** The resolver *)

Section ResolverMore.
Context {U : UnicodeData}.

Lemma best_loop_item (name : jsstring) (items : list (N * jsstring)) :
  forall bestItem bestDistance,
    best_loop (normalize_for_distance name) items
      (option_map (candidate_match name) bestItem) bestDistance
    = option_map (candidate_match name)
        (best_item_loop (normalize_for_distance name) items
                        bestItem bestDistance).
Proof.
  induction items as [|[l lab] items IH]; intros bestItem bestDistance;
    [reflexivity|].
  cbn [best_loop best_item_loop snd].
  destruct (lt_best _ bestDistance); [|apply IH].
  apply (IH (Some (l, lab))).
Qed.

End ResolverMore.

(** X12.  The search page and the MARC pipeline choose the same candidate:
    [findBestLCCNMatch] answers the item that [findBestMatch] answers, with
    its distance. *)
Theorem findBestMatch_agrees (U : UnicodeData) (name : jsstring)
    (items : list (N * jsstring)) :
  findBestLCCNMatch name (Candidates items)
  = option_map (candidate_match name) (findBestMatch name items).
Proof. exact (best_loop_item name items None None). Qed.

(** X13.  A candidate whose label is the name, up to case and to the
    characters outside a-z and 0-9, wins with distance 0; of several such
    candidates the first wins. *)
Theorem findBestLCCNMatch_exact (U : UnicodeData) (name : jsstring)
    (items : list (N * jsstring)) (k : nat) (c : N * jsstring) :
  nth_error items k = Some c ->
  normalize_for_distance (snd c) = normalize_for_distance name ->
  (forall j c', (j < k)%nat -> nth_error items j = Some c' ->
                normalize_for_distance (snd c') <> normalize_for_distance name) ->
  findBestLCCNMatch name (Candidates items)
  = Some {| lccn := fst c; label := Some (snd c); distance := 0 |}.
Proof.
  intros Hk Hc Hfirst.
  assert (Hne : items <> []) by (intros ->; destruct k; discriminate).
  destruct (findBestLCCNMatch_first_minimum name items Hne)
    as (k' & c' & (Hk' & Hmin & Hbefore) & E).
  assert (Hd : candidate_distance name (snd c) = 0).
  { unfold candidate_distance. rewrite Hc, levenshteinDistance_edit_distance.
    apply edit_distance_refl. }
  assert (Hd' : candidate_distance name (snd c') = 0).
  { pose proof (Hmin k c Hk). lia. }
  assert (Hc' : normalize_for_distance (snd c') = normalize_for_distance name).
  { unfold candidate_distance in Hd'.
    rewrite levenshteinDistance_edit_distance in Hd'.
    unfold edit_distance in Hd'. apply lev_at_zero in Hd' as [Hlen Hnth].
    symmetry. apply (nth_ext _ _ 0 0 Hlen). exact Hnth. }
  assert (k' = k) as ->.
  { destruct (Nat.lt_trichotomy k' k) as [Hlt|[->|Hgt]]; [|reflexivity|].
    - now destruct (Hfirst k' c' Hlt Hk').
    - pose proof (Hbefore k c Hgt Hk). lia. }
  assert (c' = c) as -> by congruence.
  rewrite E. unfold candidate_match. now rewrite Hd.
Qed.

Lemma findBestLCCNMatch_exact_witness :
  @findBestLCCNMatch ascii_unicode (js "S. E. A.")
    (Candidates [(2, js "Esa"); (1, js "sea"); (3, js "S.E.A.")])
  = Some {| lccn := 1; label := Some (js "sea"); distance := 0 |}.
Proof.
  apply (findBestLCCNMatch_exact ascii_unicode (js "S. E. A.") _ 1 (1, js "sea")).
  - reflexivity.
  - reflexivity.
  - intros [|j] c' Hj Hn; [|lia]. injection Hn as <-. vm_compute. discriminate.
Defined.

(** ** [BinaryMARCParser.parse] *)

Lemma parseRecord_offsets (data : list byte) (offset : Z) (r : MarcRecord) :
  parseRecord data offset = Some r ->
  startOffset r = offset /\ (offset < endOffset r)%Z.
Proof.
  unfold parseRecord.
  destruct (parseInt _) as [recordLength|]; [|discriminate].
  destruct (Z.leb_spec recordLength 0); [discriminate|].
  intros [= <-]. cbn [startOffset endOffset]. split; [reflexivity|lia].
Qed.

Lemma parse_loop_tiles (data : list byte) (fuel : nat) :
  forall offset acc,
    exists more,
      parse_loop fuel data offset acc = acc ++ more
      /\ tiles data offset more.
Proof.
  induction fuel as [|fuel IH]; intros off acc.
  - exists []. now rewrite app_nil_r.
  - cbn [parse_loop].
    destruct (Z.ltb_spec off (Z.of_nat (List.length data)));
      [|exists []; now rewrite app_nil_r].
    destruct (N.eqb_spec (nth (Z.to_nat off) data 0) 0);
      [exists []; now rewrite app_nil_r|].
    destruct (Z.leb_spec (Z.of_nat (List.length data)) (off + 24));
      [exists []; now rewrite app_nil_r|].
    cbn [orb].
    destruct (parseRecord data off) as [r|] eqn:E;
      [|exists []; now rewrite app_nil_r].
    destruct (parseRecord_offsets _ _ _ E) as [Hs He].
    destruct (IH (endOffset r) (acc ++ [r])) as (more & Em & Ht).
    exists (r :: more). rewrite Em, <- app_assoc. split; [reflexivity|].
    cbn [tiles]. auto.
Qed.

(** X14.  The records that [parse] returns tile the buffer from offset 0:
    the first starts at 0, each starts where the one before it ends, every
    record ends after its start, and every record starts more than 24 bytes
    before the end of the buffer, on a byte that is not NUL. *)
Theorem parse_tiles (buf : list byte) :
  tiles buf 0 (records (parse (new buf))).
Proof.
  unfold parse, new. cbn [records data].
  destruct (parse_loop_tiles buf (List.length buf) 0 []) as (more & -> & H).
  exact H.
Qed.

(** ** [BinaryMARCParser.parseSubfields] *)

Lemma StronglySorted_before_NoDup (ks : list jsstring) :
  StronglySorted before ks -> NoDup ks.
Proof.
  induction 1 as [|k ks Hs IH Hk]; constructor; [|exact IH].
  intros Hin. rewrite Forall_forall in Hk. destruct (Hk k Hin) as [Hne _].
  now apply Hne.
Qed.

(** X15.  In the object that [parseSubfields] reads from bytes, every code
    is one character made from one byte, no code occurs twice, every value
    is well-formed text without delimiter or terminator, and a code holds
    an array only when it has at least two values, the first of them not
    empty. *)
Theorem parseSubfields_well_formed (bytes : list byte) :
  bytes_ok bytes ->
  NoDup (map fst (parseSubfields bytes))
  /\ Forall (fun e => key_ok (fst e) /\ value_ok (snd e))
            (parseSubfields bytes).
Proof.
  intros H. destruct (parseSubfields_wf bytes H) as [Hall Hsorted].
  split; [now apply StronglySorted_before_NoDup|exact Hall].
Qed.

Lemma parseSubfields_well_formed_witness :
  NoDup (map fst (parseSubfields repeated_a))
  /\ Forall (fun e => key_ok (fst e) /\ value_ok (snd e))
            (parseSubfields repeated_a).
Proof. apply parseSubfields_well_formed. reflexivity. Defined.

Lemma pairs_of_app (o1 o2 : object) :
  pairs_of (o1 ++ o2) = pairs_of o1 ++ pairs_of o2.
Proof. unfold pairs_of. apply flat_map_app. Qed.

Lemma pairs_of_cons (k : jsstring) (v : sfvalue) (o : object) :
  pairs_of ((k, v) :: o) = map (pair k) (values_of v) ++ pairs_of o.
Proof. reflexivity. Qed.

Lemma obj_get_split (o : object) (k : jsstring) (w : sfvalue) :
  obj_get o k = Some w ->
  exists o1 o2,
    o = o1 ++ (k, w) :: o2
    /\ forall w', obj_replace o k w' = o1 ++ (k, w') :: o2.
Proof.
  induction o as [|[x u] o IH]; [discriminate|]. cbn [obj_get obj_replace].
  destruct (jsstring_eqb x k) eqn:E.
  - apply jsstring_eqb_eq in E. subst x. intros [= ->].
    exists [], o. split; [reflexivity|]. intros w'. reflexivity.
  - intros H. destruct (IH H) as (o1 & o2 & -> & Hr).
    exists ((x, u) :: o1), o2. split; [reflexivity|].
    intros w'. cbn [app]. now rewrite Hr.
Qed.

Lemma obj_insert_index_split (o : object) (i : N) (k : jsstring)
    (v : sfvalue) :
  exists o1 o2, o = o1 ++ o2 /\ obj_insert_index o i k v = o1 ++ (k, v) :: o2.
Proof.
  induction o as [|[x u] o (o1 & o2 & E & Hr)]; cbn [obj_insert_index].
  - now exists [], [].
  - destruct (array_index x) as [j|]; [destruct (j <? i)|].
    + exists ((x, u) :: o1), o2. cbn [app]. rewrite Hr. split; now f_equal.
    + now exists [], ((x, u) :: o).
    + now exists [], ((x, u) :: o).
Qed.

Lemma obj_get_no_empty (o : object) (k : jsstring) :
  no_empty_value o -> obj_get o k <> Some (SStr []).
Proof.
  intros Ho H. apply obj_get_Some_In in H.
  unfold no_empty_value in Ho. rewrite Forall_forall in Ho.
  now apply (Ho _ H).
Qed.

Lemma no_empty_value_set (o : object) (k : jsstring) (v : sfvalue) :
  no_empty_value o -> v <> SStr [] -> no_empty_value (obj_set o k v).
Proof.
  unfold no_empty_value, obj_set. intros Ho Hv.
  destruct (obj_get o k) as [w|] eqn:E.
  - destruct (obj_get_split _ _ _ E) as (o1 & o2 & -> & Hr). rewrite Hr.
    apply Forall_app in Ho as [H1 H2]. inversion H2; subst.
    apply Forall_app. split; [assumption|]. constructor; assumption.
  - destruct (array_index k) as [i|].
    + destruct (obj_insert_index_split o i k v) as (o1 & o2 & -> & ->).
      apply Forall_app in Ho as [H1 H2].
      apply Forall_app. split; [assumption|]. constructor; assumption.
    + apply Forall_app. split; [assumption|]. constructor; [assumption|constructor].
Qed.

Lemma pairs_of_set_new (o : object) (k : jsstring) (v : sfvalue) :
  obj_get o k = None ->
  Permutation (pairs_of (obj_set o k v))
              (pairs_of o ++ map (pair k) (values_of v)).
Proof.
  intros E. unfold obj_set. rewrite E. destruct (array_index k) as [i|].
  - destruct (obj_insert_index_split o i k v) as (o1 & o2 & -> & ->).
    rewrite !pairs_of_app, pairs_of_cons, <- app_assoc.
    apply Permutation_app_head, Permutation_app_comm.
  - rewrite pairs_of_app, pairs_of_cons. cbn [pairs_of flat_map].
    now rewrite app_nil_r.
Qed.

Lemma pairs_of_set_more (o : object) (k : jsstring) (w : sfvalue)
    (l : list jsstring) (v : jsstring) :
  obj_get o k = Some w -> values_of w = l ->
  Permutation (pairs_of (obj_set o k (SArr (l ++ [v]))))
              (pairs_of o ++ [(k, v)]).
Proof.
  intros E Hl. unfold obj_set. rewrite E.
  destruct (obj_get_split _ _ _ E) as (o1 & o2 & -> & Hr). rewrite Hr.
  rewrite !pairs_of_app, !pairs_of_cons. cbn [values_of].
  rewrite Hl, map_app, <- !app_assoc. cbn [map].
  apply Permutation_app_head, Permutation_app_head.
  change ((k, v) :: pairs_of o2) with ([(k, v)] ++ pairs_of o2).
  apply Permutation_app_comm.
Qed.

Lemma add_subfield_pairs (o : object) (k v : jsstring) :
  no_empty_value o -> v <> [] ->
  Permutation (pairs_of (add_subfield o k v)) (pairs_of o ++ [(k, v)])
  /\ no_empty_value (add_subfield o k v).
Proof.
  intros Ho Hv. unfold add_subfield.
  pose proof (obj_get_no_empty o k Ho) as Hne.
  destruct (obj_get o k) as [[[|c s]|l]|] eqn:E.
  - congruence.
  - split.
    + now apply (pairs_of_set_more o k (SStr (c :: s)) [c :: s] v).
    + apply no_empty_value_set; [assumption|discriminate].
  - split.
    + now apply (pairs_of_set_more o k (SArr l) l v).
    + apply no_empty_value_set; [assumption|discriminate].
  - split.
    + now apply (pairs_of_set_new o k (SStr v)).
    + apply no_empty_value_set; [assumption|congruence].
Qed.

Lemma replay_pairs (ps : list (jsstring * jsstring)) :
  forall acc,
    no_empty_value acc ->
    Forall (fun p => snd p <> []) ps ->
    Permutation (pairs_of (replay ps acc)) (pairs_of acc ++ ps).
Proof.
  induction ps as [|[k v] ps IH]; intros acc Hacc Hps.
  - cbn. now rewrite app_nil_r.
  - inversion Hps as [|? ? Hv Hps']; subst. cbn [snd] in Hv.
    rewrite replay_cons. cbn [fst snd].
    destruct (add_subfield_pairs acc k v Hacc Hv) as [Hp Hne].
    rewrite (IH _ Hne Hps'), Hp, <- app_assoc. reflexivity.
Qed.

(** X16.  Reading the subfields that [rebuildRecord] writes loses and adds
    nothing when no value is empty: the pairs of code and value that are
    read are those that were written, each as often as it was written.
    (Their order may change: the values of one code are brought together,
    and a code that is a digit goes first.) *)
Theorem parseSubfields_keeps_pairs (ps : list (jsstring * jsstring)) :
  Forall pair_ok ps ->
  Forall (fun p => snd p <> []) ps ->
  Permutation (pairs_of (parseSubfields (pairs_bytes ps))) ps.
Proof.
  intros Hok Hne. unfold parseSubfields.
  rewrite parseSubfields_loop_pairs by (auto; lia).
  rewrite replay_pairs by (auto; constructor). reflexivity.
Qed.

Lemma parseSubfields_keeps_pairs_witness :
  Permutation
    (pairs_of (parseSubfields
                 (pairs_bytes [(js "a", js "Smith"); (js "0", js "n1");
                               (js "a", js "Jones")])))
    [(js "a", js "Smith"); (js "0", js "n1"); (js "a", js "Jones")].
Proof.
  apply parseSubfields_keeps_pairs.
  - repeat constructor;
      solve [eexists; split; [reflexivity|vm_compute; reflexivity]
            |apply ascii_usv; reflexivity].
  - repeat constructor; discriminate.
Defined.

(** An empty value is lost when its code comes again. *)
Example parseSubfields_loses_empty :
  parseSubfields (pairs_bytes [(js "a", []); (js "a", js "Jones")])
  = [(js "a", SStr (js "Jones"))].
Proof. reflexivity. Qed.

(** ** The pipeline: the report *)

Lemma nonempty_true (s : jsstring) : nonempty s = true -> s <> [].
Proof. destruct s; [discriminate|discriminate]. Qed.

Lemma createLCCNUri_base (n : N) (uri : jsstring) :
  createLCCNUri n = Some uri -> exists converted, uri = LCCN_URI_BASE ++ converted.
Proof.
  unfold createLCCNUri. destruct (convertLCCN n) as [c|]; [|discriminate].
  destruct (nonempty c); [|discriminate]. intros [= <-]. now exists c.
Qed.

Section ReportFacts.
Context {U : UnicodeData}.
Variable MARCXML_parse : jsstring -> option (list MarcRecord).
Variable MARCXML_serialize : list MarcRecord -> jsstring.
Variable trie_lookup : jsstring -> Z.
Variable lookupDecoder : LookupDecoder.t.

Lemma process_field_report_step fileType i f report f' report' :
  process_field trie_lookup lookupDecoder fileType i f report
  = Returned (f', report') ->
  report_step i f report report'.
Proof.
  unfold process_field.
  destruct (includes nameFieldTags (tag f)) eqn:Htag; cbn [negb];
    [|intros [= <- <-]; constructor].
  destruct (field_subfields f) as [subfields|] eqn:Hsub;
    [|intros [= <- <-]; constructor].
  destruct (nonempty (extractNameFromSubfields subfields)) eqn:Hname;
    cbn [negb]; [|intros [= <- <-]; constructor].
  apply nonempty_true in Hname.
  set (name := extractNameFromSubfields subfields) in *.
  destruct (trie_lookup (normalizeString name) =? -1)%Z.
  { intros [= <- <-]. apply step_not_found; auto; discriminate. }
  destruct (LookupDecoder.get lookupDecoder (trie_lookup (normalizeString name)))
    as [data|].
  2:{ intros [= <- <-]. apply step_not_found; auto; discriminate. }
  destruct (lccnData_truthy (Some data)); cbn [negb].
  2:{ intros [= <- <-]. apply step_not_found; auto; discriminate. }
  destruct (findBestLCCNMatch name data) as [m|]; [|discriminate].
  unfold apply_match.
  destruct (MAX_LEVENSHTEIN_DISTANCE <? distance m) eqn:Hd.
  { apply N.ltb_lt in Hd. intros [= <- <-].
    now apply (step_poor_match _ _ _ _ (distance m)). }
  apply N.ltb_ge in Hd.
  destruct (createLCCNUri (lccn m)) as [uri|] eqn:Huri.
  2:{ intros [= <- <-]. apply step_not_found; auto; discriminate. }
  destruct (createLCCNUri_base _ _ Huri) as [converted ->].
  destruct (if jsstring_eqb fileType (js "xml") then _ else _) as [f''|];
    [|discriminate].
  intros [= <- <-].
  now apply (step_updated _ _ _ _ converted (distance m)).
Qed.

Lemma count_status_app (s : jsstring) (ds : list Detail) (d : Detail) :
  count_status s (ds ++ [d])
  = count_status s ds + if jsstring_eqb (status d) s then 1 else 0.
Proof.
  unfold count_status. rewrite filter_app, length_app. cbn [filter].
  destruct (jsstring_eqb (status d) s); cbn [List.length]; lia.
Qed.

Lemma report_step_consistent i f r r' :
  report_step i f r r' -> report_consistent r -> report_consistent r'.
Proof.
  unfold report_consistent.
  intros Hstep (Hu & Hp & Hn & Hsum & Hle).
  destruct Hstep as [| |d Hs|d dist Hs|d converted dist Hs];
    cbn [push_detail count_processed count_notFound count_poorMatch
         count_updated fieldsUpdated fieldsPoorMatch fieldsNotFound
         totalFieldsProcessed details];
    rewrite ?count_status_app, ?length_app; cbn [List.length];
    try (destruct Hs as [Hs|Hs]); rewrite ?Hs;
    repeat match goal with
           | |- context [jsstring_eqb (js ?a) (js ?b)] =>
               let v := eval vm_compute in (jsstring_eqb (js a) (js b)) in
               change (jsstring_eqb (js a) (js b)) with v
           end;
    repeat split; lia.
Qed.

Lemma includes_In (l : list jsstring) (x : jsstring) :
  includes l x = true -> In x l.
Proof.
  unfold includes. intros H. apply existsb_exists in H as (y & Hin & Hy).
  apply jsstring_eqb_eq in Hy. now subst y.
Qed.

Lemma report_step_details n i f r r' :
  report_step i f r r' -> i + 1 <= n ->
  Forall (detail_ok n) (details r) -> Forall (detail_ok n) (details r').
Proof.
  intros Hstep Hi Hall.
  destruct Hstep as [| |d|d dist|d converted dist]; try exact Hall;
    cbn [push_detail details]; apply Forall_app; (split; [exact Hall|]);
    constructor; [|constructor| |constructor| |constructor];
    unfold detail_ok;
    (split; [apply (includes_In nameFieldTags); congruence|]);
    (split; [lia|]);
    (split; [assumption|]).
  - right. right. auto.
  - right. left. eauto.
  - left. eauto 10.
Qed.

Lemma report_step_totalRecords i f r r' :
  report_step i f r r' -> totalRecords r' = totalRecords r.
Proof. now destruct 1. Qed.

Lemma process_fields_invariant fileType n i fs :
  i + 1 <= n ->
  forall report fs' report',
    process_fields trie_lookup lookupDecoder fileType i fs report
    = Returned (fs', report') ->
    report_invariant n report -> report_invariant n report'.
Proof.
  intros Hi. induction fs as [|f fs IH]; intros report fs' report';
    cbn [process_fields].
  - now intros [= <- <-].
  - destruct (process_field _ _ _ _ _ _) as [[f1 r1]|] eqn:E; [|discriminate].
    destruct (process_fields _ _ _ _ _ _) as [[fs1 r2]|] eqn:E';
      [|discriminate].
    intros [= <- <-] (Hc & Hd & Hn).
    apply process_field_report_step in E.
    apply (IH _ _ _ E'). split; [|split].
    + eapply report_step_consistent; eauto.
    + eapply report_step_details; eauto.
    + erewrite report_step_totalRecords; eauto.
Qed.

Lemma process_records_invariant fileType n rs :
  forall i report events rs' report',
    i + N.of_nat (List.length rs) <= n ->
    process_records trie_lookup lookupDecoder fileType n i rs report
    = (events, Returned (rs', report')) ->
    report_invariant n report -> report_invariant n report'.
Proof.
  induction rs as [|r rs IH]; intros i report events rs' report' Hi;
    cbn [process_records].
  - now intros [= <- <- <-].
  - cbn [List.length] in Hi.
    destruct (process_fields _ _ _ _ _ _) as [[fs r1]|] eqn:E; [|discriminate].
    destruct (process_records _ _ _ _ _ _ _) as [ev [[rs1 r2]|]] eqn:E';
      [|discriminate].
    intros [= <- <- <-] Hinv.
    eapply IH; [|exact E'|]; [lia|].
    eapply process_fields_invariant; [|exact E|exact Hinv]. lia.
Qed.

Lemma processMARCFile_report_invariant (file : File) events result :
  processMARCFile MARCXML_parse MARCXML_serialize trie_lookup lookupDecoder
                  file
  = (events, Returned result) ->
  report_invariant (totalRecords (report result)) (report result).
Proof.
  unfold processMARCFile.
  destruct (read_and_parse _ _ _) as [ev [records|]]; [|discriminate].
  destruct (process_records _ _ _ _ _ _ _) as [ev' [[rs r]|]] eqn:E;
    [|discriminate].
  assert (Hinv : report_invariant (N.of_nat (List.length records)) r).
  { eapply process_records_invariant; [|exact E|]; [lia|].
    split; [|split]; [|constructor|reflexivity].
    unfold report_consistent. cbn. repeat split; lia. }
  unfold finalize.
  destruct (jsstring_eqb _ (js "xml")).
  - destruct rs; [discriminate|]. intros [= <- <-]. cbn [report].
    destruct Hinv as (Hc & Hd & Hn).
    split; [|split]; [exact Hc|now rewrite Hn|reflexivity].
  - destruct (exportBinary _); [|discriminate]. intros [= <- <-].
    cbn [report]. destruct Hinv as (Hc & Hd & Hn).
    split; [|split]; [exact Hc|now rewrite Hn|reflexivity].
Qed.

End ReportFacts.

(** X17.  The counters of the report that the pipeline returns agree with
    its entries: [fieldsUpdated] counts the entries of status updated,
    [fieldsPoorMatch] those of status poor_match, [fieldsNotFound] those of
    status not_found or error; the three add up to the number of entries,
    which is at most [totalFieldsProcessed]. *)
Theorem processMARCFile_counters (U : UnicodeData)
    (MARCXML_parse : jsstring -> option (list MarcRecord))
    (MARCXML_serialize : list MarcRecord -> jsstring)
    (trie_lookup : jsstring -> Z) (lookupDecoder : LookupDecoder.t)
    (file : File) (events : list Event) (result : Result) :
  processMARCFile MARCXML_parse MARCXML_serialize trie_lookup lookupDecoder
                  file
  = (events, Returned result) ->
  report_consistent (report result).
Proof.
  intros H. now apply processMARCFile_report_invariant in H as (? & _).
Qed.

Lemma processMARCFile_counters_witness :
  exists result,
    snd woolf_run = Returned result /\ report_consistent (report result).
Proof.
  eexists. split; [vm_compute; reflexivity|].
  apply (processMARCFile_counters ascii_unicode (fun _ => None) (fun _ => [])
           woolf_trie woolf_table woolf_file (fst woolf_run)).
  vm_compute. reflexivity.
Defined.

(** X18.  Every entry of the report that the pipeline returns is about a
    field 100, 110, 700 or 710 with a name, in a record numbered from 1 to
    [totalRecords].  An entry of status updated has a URI under the base
    and a distance of at most 10; an entry of status poor_match has a
    distance above 10 and no URI; an entry of status not_found or error
    has a reason and neither URI nor distance.  There is no other
    status. *)
Theorem processMARCFile_details (U : UnicodeData)
    (MARCXML_parse : jsstring -> option (list MarcRecord))
    (MARCXML_serialize : list MarcRecord -> jsstring)
    (trie_lookup : jsstring -> Z) (lookupDecoder : LookupDecoder.t)
    (file : File) (events : list Event) (result : Result) :
  processMARCFile MARCXML_parse MARCXML_serialize trie_lookup lookupDecoder
                  file
  = (events, Returned result) ->
  Forall (detail_ok (totalRecords (report result)))
         (details (report result)).
Proof.
  intros H. now apply processMARCFile_report_invariant in H as (_ & ? & _).
Qed.

Lemma processMARCFile_details_witness :
  exists result,
    snd woolf_run = Returned result
    /\ Forall (detail_ok (totalRecords (report result)))
              (details (report result)).
Proof.
  eexists. split; [vm_compute; reflexivity|].
  apply (processMARCFile_details ascii_unicode (fun _ => None) (fun _ => [])
           woolf_trie woolf_table woolf_file (fst woolf_run)).
  vm_compute. reflexivity.
Defined.

(** ** The pipeline: the records *)

Section FrameFacts.
Context {U : UnicodeData}.
Variable trie_lookup : jsstring -> Z.
Variable lookupDecoder : LookupDecoder.t.

Lemma process_field_field_frame fileType i f report f' report' :
  process_field trie_lookup lookupDecoder fileType i f report
  = Returned (f', report') ->
  field_frame f f'.
Proof.
  unfold process_field.
  destruct (includes nameFieldTags (tag f)) eqn:Htag; cbn [negb];
    [|intros [= <- <-]; now left].
  destruct (field_subfields f) as [subfields|] eqn:Hsub;
    [|intros [= <- <-]; now left].
  destruct (nonempty _); cbn [negb]; [|intros [= <- <-]; now left].
  destruct (_ =? -1)%Z; [intros [= <- <-]; now left|].
  destruct (LookupDecoder.get _ _) as [data|]; [|intros [= <- <-]; now left].
  destruct (lccnData_truthy _); cbn [negb]; [|intros [= <- <-]; now left].
  destruct (findBestLCCNMatch _ data) as [m|]; [|discriminate].
  unfold apply_match.
  destruct (_ <? distance m); [intros [= <- <-]; now left|].
  destruct (createLCCNUri (lccn m)) as [uri|] eqn:Huri;
    [|intros [= <- <-]; now left].
  unfold field_subfields in Hsub.
  destruct (body f) as [|ind1 ind2 sf raw] eqn:Hbody; [discriminate|].
  injection Hsub as ->.
  destruct (jsstring_eqb fileType (js "xml")).
  - unfold MARCXMLParser.updateSubfieldZero. rewrite Hbody.
    destruct (element f) as [e|]; [|discriminate].
    intros [= <- <-]. right. split; [exact Htag|].
    exists ind1, ind2, subfields, raw, (lccn m), uri. cbn. auto 10.
  - intros [= <- <-]. right. split; [exact Htag|].
    exists ind1, ind2, subfields, raw, (lccn m), uri.
    unfold set_subfields. rewrite Hbody. cbn. auto 10.
Qed.

Lemma process_fields_frame fileType i fs :
  forall report fs' report',
    process_fields trie_lookup lookupDecoder fileType i fs report
    = Returned (fs', report') ->
    Forall2 field_frame fs fs'.
Proof.
  induction fs as [|f fs IH]; intros report fs' report';
    cbn [process_fields].
  - intros [= <- <-]. constructor.
  - destruct (process_field _ _ _ _ _ _) as [[f1 r1]|] eqn:E; [|discriminate].
    destruct (process_fields _ _ _ _ _ _) as [[fs1 r2]|] eqn:E';
      [|discriminate].
    intros [= <- <-]. constructor; eauto using process_field_field_frame.
Qed.

Lemma process_records_frame fileType n rs :
  forall i report events rs' report',
    process_records trie_lookup lookupDecoder fileType n i rs report
    = (events, Returned (rs', report')) ->
    Forall2 record_frame rs rs'.
Proof.
  induction rs as [|r rs IH]; intros i report events rs' report';
    cbn [process_records].
  - intros [= <- <- <-]. constructor.
  - destruct (process_fields _ _ _ _ _ _) as [[fs r1]|] eqn:E; [|discriminate].
    destruct (process_records _ _ _ _ _ _ _) as [ev [[rs1 r2]|]] eqn:E';
      [|discriminate].
    intros [= <- <- <-]. constructor; [|eauto].
    unfold record_frame, with_fields. cbn.
    repeat split. eapply process_fields_frame, E.
Qed.

End FrameFacts.

(** X19.  The loop over the records keeps what it does not enhance: it
    returns as many records, each with its leader, its offsets, its raw
    data and as many fields in the same order; every field is returned as
    it was, or, if it is a data field 100, 110, 700 or 710, with subfield 0
    set to the URI of an identifier and nothing else changed. *)
Theorem process_records_keeps (U : UnicodeData)
    (trie_lookup : jsstring -> Z) (lookupDecoder : LookupDecoder.t)
    (fileType : jsstring) (n i : N) (rs rs' : list MarcRecord)
    (report report' : Report) (events : list Event) :
  process_records trie_lookup lookupDecoder fileType n i rs report
  = (events, Returned (rs', report')) ->
  Forall2 record_frame rs rs'.
Proof.
  intros H. eapply process_records_frame. exact H.
Qed.

Lemma process_records_keeps_witness :
  exists events rs' report',
    @process_records ascii_unicode woolf_trie woolf_table (js "binary") 1 0
      (records (parse (new woolf_record))) empty_report
    = (events, Returned (rs', report'))
    /\ Forall2 record_frame (records (parse (new woolf_record))) rs'.
Proof.
  eexists _, _, _. split; [vm_compute; reflexivity|].
  eapply (process_records_keeps ascii_unicode woolf_trie woolf_table
            (js "binary") 1 0 (records (parse (new woolf_record))) _
            empty_report).
  vm_compute. reflexivity.
Defined.

(** ** The pipeline: the binary output *)

Lemma spec_prefix_printable (d : N) (p : jsstring) :
  spec_prefix d = Some p -> forallb printable p = true.
Proof.
  unfold spec_prefix.
  repeat (destruct (d =? _); [intros [= <-]; reflexivity|]). discriminate.
Qed.

Lemma is_digit_printable (l : list N) :
  forallb is_digit l = true -> forallb printable l = true.
Proof.
  rewrite !forallb_forall. intros H c Hc. specialize (H c Hc).
  unfold is_digit, printable, in_range in *.
  apply andb_true_iff in H as [H1 H2]. apply N.leb_le in H1, H2.
  rewrite andb_true_iff, N.leb_le, N.ltb_lt. lia.
Qed.

Lemma createLCCNUri_printable (n : N) (uri : jsstring) :
  createLCCNUri n = Some uri ->
  forallb printable uri = true /\ uri <> [].
Proof.
  unfold createLCCNUri. destruct (convertLCCN n) as [c|] eqn:E; [|discriminate].
  destruct (nonempty c); [|discriminate]. intros H.
  assert (Hu : uri = LCCN_URI_BASE ++ c) by congruence. clear H. subst uri.
  split; [|discriminate].
  apply convertLCCN_form in E as (d & rest & p & Sn & Hp & ->).
  pose proof (String_of_N_digits n) as Dn. rewrite Sn in Dn.
  cbn [forallb] in Dn. apply andb_true_iff in Dn as [_ Dn].
  rewrite !forallb_app.
  rewrite (spec_prefix_printable _ _ Hp), (is_digit_printable _ Dn).
  reflexivity.
Qed.

Lemma printable_text (s : jsstring) :
  forallb printable s = true -> text_ok s /\ no_bom s = true.
Proof.
  intros H. split; [split|].
  - apply ascii_usv. unfold ascii. rewrite forallb_forall in *.
    intros c Hc. specialize (H c Hc). unfold printable in H.
    apply andb_true_iff in H as [_ H]. apply N.ltb_lt in H.
    apply is_ascii_lt. lia.
  - unfold no_delimiter. rewrite forallb_forall in *.
    intros c Hc. specialize (H c Hc). unfold printable in H.
    apply andb_true_iff in H as [H _]. apply N.leb_le in H.
    unfold is_delimiter, SUBFIELD_DELIMITER, FIELD_TERMINATOR.
    rewrite negb_true_iff, orb_false_iff, !N.eqb_neq. lia.
  - destruct s as [|c s]; [reflexivity|]. cbn [forallb] in H.
    apply andb_true_iff in H as [H _]. unfold printable in H.
    apply andb_true_iff in H as [_ H]. apply N.ltb_lt in H.
    unfold no_bom. cbn [hd]. rewrite negb_true_iff, N.eqb_neq. lia.
Qed.

Lemma key_ok_zero : key_ok (js "0").
Proof. exists 48. split; [reflexivity|lia]. Qed.

Lemma field_frame_good (f f' : Field) :
  field_frame f f' -> good_field f -> good_field f'.
Proof.
  intros [->|(_ & ind1 & ind2 & sf & raw & n & uri & Hb & Hu & Ht & _ & _ & Hb')];
    [auto|].
  unfold good_field. rewrite Hb, Hb', Ht.
  intros (H00 & H1 & H2 & Hwf). repeat split; try assumption; try apply Hwf.
  - destruct (obj_set_wf sf (js "0") (SStr uri) Hwf key_ok_zero) as [Ha _];
      [|exact Ha].
    apply createLCCNUri_printable in Hu as [Hu _].
    now apply printable_text in Hu as [Hu _].
  - destruct (obj_set_wf sf (js "0") (SStr uri) Hwf key_ok_zero) as [_ Hs];
      [|exact Hs].
    apply createLCCNUri_printable in Hu as [Hu _].
    now apply printable_text in Hu as [Hu _].
Qed.

Lemma record_frame_good (r r' : MarcRecord) :
  record_frame r r' -> good_record r -> good_record r'.
Proof.
  unfold good_record. intros (_ & _ & _ & _ & Hf) Hg.
  induction Hf as [|f f' fs fs' Hff _ IH]; [constructor|].
  inversion Hg; subst. constructor; eauto using field_frame_good.
Qed.

Lemma records_frame_good (rs rs' : list MarcRecord) :
  Forall2 record_frame rs rs' -> Forall good_record rs ->
  Forall good_record rs'.
Proof.
  induction 1 as [|r r' rs rs' Hr _ IH]; [constructor|].
  intros Hg. inversion Hg; subst.
  constructor; eauto using record_frame_good.
Qed.

(** Records that are well formed and fit are written and read back. *)
Lemma exportBinary_parse (d : list byte) (rs : list MarcRecord) :
  Forall good_record rs -> forallb record_fits rs = true ->
  exists out,
    exportBinary {| data := d; records := rs |} = Some out
    /\ map record_content (records (parse (new out)))
       = map record_content rs.
Proof.
  intros Hgood Hfit. exists (List.concat (map rebuilt_bytes rs)). split.
  - unfold exportBinary. cbn [records]. now rewrite rebuild_all_layout.
  - unfold parse, new. cbn [records data].
    destruct (parse_loop_rebuilt (List.concat (map rebuilt_bytes rs)) rs Hgood
                0%nat (List.length (List.concat (map rebuilt_bytes rs))) []
                Hfit eq_refl (rebuilt_count rs Hgood Hfit))
      as (rs' & E & Hcontents).
    cbn [Z.of_nat app] in E. rewrite E. exact Hcontents.
Qed.

(** X20.  The enhanced binary file decodes to the records of the input,
    enhanced: when the pipeline returns for a binary file, its output is
    the serialization of records that are those decoded from the input,
    each field as it was or with subfield 0 set to the URI; and if these
    records fit the format, decoding the output gives exactly their tags,
    indicators, subfield codes and values. *)
Theorem processMARCFile_binary_output (U : UnicodeData)
    (MARCXML_parse : jsstring -> option (list MarcRecord))
    (MARCXML_serialize : list MarcRecord -> jsstring)
    (trie_lookup : jsstring -> Z) (lookupDecoder : LookupDecoder.t)
    (file : File) (buf : list byte) (events : list Event) (result : Result) :
  detectFileType file = js "binary" ->
  arrayBuffer file = Some buf ->
  bytes_ok buf ->
  processMARCFile MARCXML_parse MARCXML_serialize trie_lookup lookupDecoder
                  file
  = (events, Returned result) ->
  exists enhanced out,
    Forall2 record_frame (records (parse (new buf))) enhanced
    /\ outputBlob result = BinaryBlob out
    /\ exportBinary {| data := buf; records := enhanced |} = Some out
    /\ (forallb record_fits enhanced = true ->
        map record_content (records (parse (new out)))
        = map record_content enhanced).
Proof.
  intros Htype Hbuf Hbytes. unfold processMARCFile, read_and_parse.
  rewrite Htype, Hbuf.
  change (jsstring_eqb (js "binary") (js "binary")) with true. cbv iota.
  destruct (process_records _ _ _ _ _ _ _) as [ev' [[rs r]|]] eqn:E;
    [|discriminate].
  unfold finalize. rewrite Hbuf.
  change (jsstring_eqb (js "binary") (js "xml")) with false. cbv iota.
  destruct (exportBinary _) as [out|] eqn:Eout; [|discriminate].
  intros [= <- <-]. cbn [outputBlob].
  pose proof (process_records_frame _ _ _ _ _ _ _ _ _ _ E) as Hframe.
  exists rs, out. split; [exact Hframe|]. split; [reflexivity|].
  split; [exact Eout|]. intros Hfit.
  pose proof (records_frame_good _ _ Hframe (parse_good buf Hbytes)) as Hgood.
  destruct (exportBinary_parse buf rs Hgood Hfit) as (out' & Eout' & Hc).
  rewrite Eout in Eout'. injection Eout' as <-. exact Hc.
Qed.

Lemma processMARCFile_binary_output_witness :
  exists result enhanced out,
    snd woolf_run = Returned result
    /\ Forall2 record_frame (records (parse (new woolf_record))) enhanced
    /\ outputBlob result = BinaryBlob out
    /\ exportBinary {| data := woolf_record; records := enhanced |} = Some out.
Proof.
  eexists. 
  destruct (processMARCFile_binary_output ascii_unicode (fun _ => None)
              (fun _ => []) woolf_trie woolf_table woolf_file woolf_record
              (fst woolf_run) _ eq_refl eq_refl eq_refl
              ltac:(vm_compute; reflexivity))
    as (enhanced & out & Hf & Hb & He & _).
  exists enhanced, out. split; [vm_compute; reflexivity|]. auto.
Defined.

(** ** Subfield 0 *)

Lemma obj_insert_index_zero (o : object) (k : jsstring) (v : sfvalue) :
  obj_insert_index o 0 k v = (k, v) :: o.
Proof.
  destruct o as [|[x u] o]; [reflexivity|]. cbn [obj_insert_index].
  destruct (array_index x) as [j|]; [|reflexivity].
  destruct (N.ltb_spec j 0); [lia|reflexivity].
Qed.

Lemma obj_set_zero_new (o : object) (v : sfvalue) :
  obj_get o (js "0") = None -> obj_set o (js "0") v = (js "0", v) :: o.
Proof.
  intros E. unfold obj_set. rewrite E.
  change (array_index (js "0")) with (Some 0).
  apply obj_insert_index_zero.
Qed.

(** X21.  In the binary output a new subfield 0 is the first subfield of
    its field: when the field had no subfield 0, the bytes of the enhanced
    field are the two indicators, then the delimiter, the code 0 and the
    URI, then the subfields that were there. *)
Theorem field_data_zero_first (f : Field) (ind1 ind2 : jsstring)
    (subfields : object) (rawData : list byte) (uri : jsstring) :
  body f = DataField ind1 ind2 subfields rawData ->
  starts_with_00 (tag f) = false ->
  obj_get subfields (js "0") = None ->
  field_data (set_subfields f (obj_set subfields (js "0") (SStr uri)))
  = Some (Uint8Array_from
            ([charCodeAt0 ind1; charCodeAt0 ind2]
               ++ [SUBFIELD_DELIMITER; 48] ++ encode uri
               ++ subfield_parts subfields)).
Proof.
  intros Hb H00 Hget. unfold field_data, set_subfields. rewrite Hb.
  cbn [tag body]. rewrite H00, obj_set_zero_new by assumption.
  unfold subfield_parts. cbn [flat_map values_of].
  rewrite app_nil_r, <- !app_assoc. reflexivity.
Qed.

Lemma field_data_zero_first_witness :
  field_data (set_subfields sample_field
                (obj_set [(js "a", SStr (js "abcdefghijk"))] (js "0")
                         (SStr (js "http://id.loc.gov/authorities/names/n1"))))
  = Some (Uint8Array_from
            ([charCodeAt0 (js "1"); charCodeAt0 (js " ")]
               ++ [SUBFIELD_DELIMITER; 48]
               ++ encode (js "http://id.loc.gov/authorities/names/n1")
               ++ subfield_parts [(js "a", SStr (js "abcdefghijk"))])).
Proof.
  apply (field_data_zero_first sample_field (js "1") (js " ") _ []);
    reflexivity.
Defined.

Lemma pairs_of_filter_other (o : object) (k : jsstring) :
  ~ In k (map fst o) ->
  filter (fun p => jsstring_eqb (fst p) k) (pairs_of o) = [].
Proof.
  induction o as [|[x u] o IH]; [reflexivity|]. cbn [map fst].
  intros Hk. rewrite pairs_of_cons, filter_app, IH by (intros H; apply Hk; now right).
  rewrite app_nil_r.
  assert (Hx : jsstring_eqb x k = false).
  { destruct (jsstring_eqb x k) eqn:E; [|reflexivity].
    apply jsstring_eqb_eq in E. exfalso. apply Hk. now left. }
  induction (values_of u) as [|y ys IHy]; [reflexivity|].
  cbn [map filter fst]. now rewrite Hx.
Qed.

(** X22.  After the update a field holds exactly one subfield 0, the URI:
    the values that subfield 0 had before, however many, are replaced. *)
Theorem obj_set_zero_only (subfields : object) (uri : jsstring) :
  NoDup (map fst subfields) ->
  filter (fun p => jsstring_eqb (fst p) (js "0"))
         (pairs_of (obj_set subfields (js "0") (SStr uri)))
  = [(js "0", uri)].
Proof.
  intros Hnd. destruct (obj_get subfields (js "0")) as [w|] eqn:E.
  - unfold obj_set. rewrite E.
    destruct (obj_get_split _ _ _ E) as (o1 & o2 & -> & Hr). rewrite Hr.
    rewrite map_app in Hnd. cbn [map fst] in Hnd.
    pose proof (NoDup_remove_2 _ _ _ Hnd) as Hnot.
    rewrite pairs_of_app, pairs_of_cons, !filter_app.
    rewrite !pairs_of_filter_other
      by (intros H; apply Hnot, in_or_app; auto).
    reflexivity.
  - rewrite obj_set_zero_new by assumption.
    rewrite pairs_of_cons, filter_app, pairs_of_filter_other.
    + reflexivity.
    + intros H. apply in_map_iff in H as ([k v] & Hk & Hin).
      cbn [fst] in Hk. subst k.
      apply (obj_get_In _ _ _ Hnd) in Hin. congruence.
Qed.

Lemma obj_set_zero_only_witness :
  filter (fun p => jsstring_eqb (fst p) (js "0"))
         (pairs_of (obj_set [(js "0", SArr [js "x"; js "y"]);
                             (js "a", SStr (js "Smith"))]
                            (js "0") (SStr (js "z"))))
  = [(js "0", js "z")].
Proof.
  apply obj_set_zero_only. repeat constructor; cbn; intuition discriminate.
Defined.

(** ** [MARCXMLParser.updateSubfieldZero] *)

Import MARCXMLParser.

Lemma has_code_zero_false (sf : option jsstring * jsstring) :
  fst sf <> Some (js "0") -> has_code_zero sf = false.
Proof.
  unfold has_code_zero. destruct (fst sf) as [code|]; [|reflexivity].
  intros H. destruct (jsstring_eqb code (js "0")) eqn:E; [|reflexivity].
  apply jsstring_eqb_eq in E. congruence.
Qed.

(** The loop stops at the first child with code 0; the children after it
    are not looked at. *)
Lemma replace_zero_first (before after : Element) (old uri : jsstring) :
  Forall (fun sf => fst sf <> Some (js "0")) before ->
  replace_zero (before ++ (Some (js "0"), old) :: after) uri
  = Some (before ++ (Some (js "0"), uri) :: after).
Proof.
  induction 1 as [|sf before Hsf _ IH]; [reflexivity|].
  cbn [app replace_zero]. rewrite (has_code_zero_false sf Hsf), IH.
  reflexivity.
Qed.

Lemma replace_zero_absent (e : Element) (uri : jsstring) :
  Forall (fun sf => fst sf <> Some (js "0")) e -> replace_zero e uri = None.
Proof.
  induction 1 as [|sf e Hsf _ IH]; [reflexivity|].
  cbn [replace_zero]. rewrite (has_code_zero_false sf Hsf), IH. reflexivity.
Qed.

(** A list of children either has a first child with code 0 or none. *)
Lemma first_code_zero (e : Element) :
  (exists before old after,
      e = before ++ (Some (js "0"), old) :: after
      /\ Forall (fun sf => fst sf <> Some (js "0")) before)
  \/ Forall (fun sf => fst sf <> Some (js "0")) e.
Proof.
  induction e as [|[code text] e IH]; [right; constructor|].
  destruct (has_code_zero (code, text)) eqn:Hz.
  - left. exists [], text, e. split; [|constructor].
    unfold has_code_zero in Hz. cbn [fst] in Hz.
    destruct code as [c|]; [|discriminate].
    apply jsstring_eqb_eq in Hz. now subst.
  - assert (Hn : fst (code, text) <> Some (js "0")).
    { cbn [fst]. intros ->. discriminate Hz. }
    destruct IH as [(before & old & after & -> & Hb)|Hall].
    + left. exists ((code, text) :: before), old, after.
      split; [reflexivity|now constructor].
    + right. now constructor.
Qed.

Lemma obj_set_twice (o : object) (k : jsstring) (v : sfvalue) :
  obj_set (obj_set o k v) k v = obj_set o k v.
Proof.
  unfold obj_set at 1. rewrite obj_set_get_same.
  unfold obj_set. destruct (obj_get o k) as [w|] eqn:E.
  - destruct (obj_get_split _ _ _ E) as (o1 & o2 & Ho & Hr).
    assert (E' : obj_get (obj_replace o k v) k = Some v)
      by (eapply obj_replace_get_same; eauto).
    destruct (obj_get_split _ _ _ E') as (p1 & p2 & Hp & Hr').
    rewrite Hr'. now rewrite <- Hp.
  - assert (E' : obj_get (obj_set o k v) k = Some v) by apply obj_set_get_same.
    unfold obj_set in E'. rewrite E in E'.
    destruct (array_index k) as [i|];
      destruct (obj_get_split _ _ _ E') as (p1 & p2 & Hp & Hr');
      rewrite Hr'; now rewrite <- Hp.
Qed.

(** X23.  [updateSubfieldZero] on a MARCXML data field: the first child
    with code 0 gets the URI as its text, and the children before and after
    it, a later child with code 0 among them, stay as they are; if no child
    has code 0, a child with code 0 and the URI is appended as the last
    child.  The field's own subfields then hold the URI under code 0, and
    updating again with the same URI changes nothing. *)
Theorem updateSubfieldZero_element (field field' : Field) (uri : jsstring) :
  updateSubfieldZero field uri = Some field' ->
  exists e e' subfields,
    element field = Some e /\ element field' = Some e'
    /\ field_subfields field = Some subfields
    /\ (forall before old after,
          e = before ++ (Some (js "0"), old) :: after ->
          Forall (fun sf => fst sf <> Some (js "0")) before ->
          e' = before ++ (Some (js "0"), uri) :: after)
    /\ (Forall (fun sf => fst sf <> Some (js "0")) e ->
        e' = e ++ [(Some (js "0"), uri)])
    /\ field_subfields field'
       = Some (obj_set subfields (js "0") (SStr uri))
    /\ tag field' = tag field
    /\ updateSubfieldZero field' uri = Some field'.
Proof.
  unfold updateSubfieldZero, field_subfields.
  destruct (element field) as [e|]; [|discriminate].
  destruct (body field) as [|ind1 ind2 sf raw]; [discriminate|].
  intros [= <-]. cbn [element body tag offset flength].
  rewrite obj_set_twice.
  exists e.
  destruct (first_code_zero e) as [(before & old & after & -> & Hb)|Hall].
  - rewrite (replace_zero_first before after old uri Hb).
    exists (before ++ (Some (js "0"), uri) :: after), sf.
    rewrite (replace_zero_first before after uri uri Hb).
    repeat split; auto.
    + intros before' old' after' E Hb'.
      pose proof (replace_zero_first before after old uri Hb) as H1.
      rewrite E, (replace_zero_first before' after' old' uri Hb') in H1.
      congruence.
    + intros Hall. apply Forall_app in Hall as [_ Hall].
      inversion Hall as [|? ? Hz _]. now destruct Hz.
  - rewrite (replace_zero_absent e uri Hall).
    exists (e ++ [(Some (js "0"), uri)]), sf.
    rewrite (replace_zero_first e [] uri uri Hall).
    repeat split; auto.
    intros before old after E Hb.
    rewrite E in Hall. apply Forall_app in Hall as [_ Hall].
    inversion Hall as [|? ? Hz _]. now destruct Hz.
Qed.

(** A field with two children of code 0: the first gets the URI, the
    second keeps its text. *)
Lemma updateSubfieldZero_element_witness :
  exists field',
    updateSubfieldZero
      {| tag := js "100"; offset := None; flength := None;
         body := DataField (js "1") (js " ")
                   [(js "0", SArr [js "x"; js "y"]);
                    (js "a", SStr (js "Smith"))] [];
         element := Some [(Some (js "a"), js "Smith");
                          (Some (js "0"), js "x");
                          (Some (js "0"), js "y")] |}
      (js "u")
    = Some field'
    /\ element field' = Some [(Some (js "a"), js "Smith");
                              (Some (js "0"), js "u");
                              (Some (js "0"), js "y")].
Proof.
  eexists. split; [reflexivity|].
  destruct (updateSubfieldZero_element
              {| tag := js "100"; offset := None; flength := None;
                 body := DataField (js "1") (js " ")
                           [(js "0", SArr [js "x"; js "y"]);
                            (js "a", SStr (js "Smith"))] [];
                 element := Some [(Some (js "a"), js "Smith");
                                  (Some (js "0"), js "x");
                                  (Some (js "0"), js "y")] |}
              _ (js "u") eq_refl)
    as (e & e' & sf & He & He' & _ & Hfirst & _).
  injection He as <-. rewrite He'. f_equal.
  apply (Hfirst [(Some (js "a"), js "Smith")] (js "x")
                [(Some (js "0"), js "y")]); [reflexivity|].
  repeat constructor. discriminate.
Defined.

(** ** [BinaryMARCParser.rebuildRecord]: the leader *)

Lemma substring_app_at (a c d : list N) (x y : nat) :
  x = List.length a -> y = (x + List.length c)%nat ->
  substring x y (a ++ c ++ d) = c.
Proof.
  intros -> ->. unfold substring.
  pose proof (skipn_length_app a (c ++ d) 0) as Hs.
  rewrite Nat.add_0_r in Hs. cbn [skipn] in Hs. rewrite Hs.
  replace (List.length a + List.length c - List.length a)%nat
    with (List.length c) by lia.
  apply firstn_length_app.
Qed.

(** X24.  The leader of a rebuilt record keeps positions 5 to 11 (status,
    type, level, encoding, counts) and 17 to 19 of the leader that was
    read, and its entry map, positions 20 to 23, is always 4500; the
    record ends with the record terminator. *)
Theorem rebuildRecord_leader (r : MarcRecord) :
  good_record r -> record_fits r = true ->
  exists bytes,
    rebuildRecord r = Some bytes
    /\ substring 5 12 bytes = substring 5 12 (leader r)
    /\ substring 17 20 bytes = substring 17 20 (leader r)
    /\ substring 20 24 bytes = js "4500"
    /\ last bytes 0 = RECORD_TERMINATOR.
Proof.
  intros Hg Hfit.
  destruct (rebuildRecord_layout r Hg Hfit) as (E & _ & _).
  pose proof (record_fits_spec r Hfit) as (_ & Hrl & Hll & _).
  destruct (decimal_field_5 (N.of_nat (record_length r))) as (Lr & _ & _);
    [lia|].
  destruct (decimal_field_5 (N.of_nat (base_address r))) as (Lb & _ & _);
    [unfold record_length in *; lia|].
  eexists. split; [exact E|]. unfold leader_text.
  set (p1 := padStart 5 48 (String_of_N (N.of_nat (record_length r)))) in *.
  set (p2 := padStart 5 48 (String_of_N (N.of_nat (base_address r)))) in *.
  assert (L1 : List.length (substring 5 12 (leader r)) = 7%nat)
    by (rewrite substring_length; lia).
  assert (L2 : List.length (substring 17 20 (leader r)) = 3%nat)
    by (rewrite substring_length; lia).
  split; [|split; [|split]].
  - rewrite <- !app_assoc. apply substring_app_at; lia.
  - rewrite <- !app_assoc.
    rewrite (app_assoc p1), (app_assoc (p1 ++ _) p2).
    apply substring_app_at; rewrite ?length_app; lia.
  - rewrite <- !app_assoc.
    rewrite (app_assoc p1), (app_assoc (p1 ++ _) p2),
      (app_assoc ((p1 ++ _) ++ p2)).
    apply substring_app_at; rewrite ?length_app;
      change (List.length (js "4500")) with 4%nat; lia.
  - rewrite !app_assoc. apply last_last.
Qed.

Lemma rebuildRecord_leader_witness :
  exists bytes,
    rebuildRecord (hd {| startOffset := 0; endOffset := 0; leader := [];
                         fields := []; recordData := [] |}
                      (records (parse (new woolf_record))))
    = Some bytes
    /\ substring 5 12 bytes = js "nam a22"
    /\ substring 20 24 bytes = js "4500".
Proof.
  destruct (rebuildRecord_leader
              (hd {| startOffset := 0; endOffset := 0; leader := [];
                     fields := []; recordData := [] |}
                  (records (parse (new woolf_record)))))
    as (bytes & E & H1 & _ & H3 & _).
  - pose proof (parse_good woolf_record eq_refl) as H.
    inversion H; assumption.
  - vm_compute. reflexivity.
  - exists bytes. split; [exact E|]. split; [rewrite H1; reflexivity|exact H3].
Defined.

(** ** The pipeline: files without records, sizes and names *)

Lemma parse_no_record (buf : list byte) :
  (List.length buf <= 24)%nat \/ hd_error buf = Some 0 ->
  records (parse (new buf)) = [].
Proof.
  intros H. unfold parse, new. cbn [records data].
  destruct buf as [|b buf]; [reflexivity|].
  cbn [List.length parse_loop]. cbn [Z.to_nat nth].
  destruct H as [H|H].
  - destruct (Z.ltb_spec 0 (Z.of_nat (S (List.length buf)))); [|reflexivity].
    destruct (Z.leb_spec (Z.of_nat (S (List.length buf))) (0 + 24));
      [now rewrite orb_true_r|].
    cbn [List.length] in H. lia.
  - injection H as ->. cbn [N.eqb orb].
    now destruct (_ <? _)%Z.
Qed.

Section EdgeFacts.
Context {U : UnicodeData}.
Variable MARCXML_parse : jsstring -> option (list MarcRecord).
Variable MARCXML_serialize : list MarcRecord -> jsstring.
Variable trie_lookup : jsstring -> Z.
Variable lookupDecoder : LookupDecoder.t.

Lemma processMARCFile_XmlTooLarge (file : File) :
  snd (processMARCFile MARCXML_parse MARCXML_serialize trie_lookup
                       lookupDecoder file)
  = Thrown XmlTooLarge ->
  detectFileType file = js "xml" /\ 524288000 < size file.
Proof.
  unfold processMARCFile.
  destruct (read_and_parse _ _ _) as [ev [records|e]] eqn:E.
  - destruct (process_records _ _ _ _ _ _ _) as [ev' [[rs r]|e]] eqn:E'.
    + destruct (finalize _ _ _ _ _) as [res|e] eqn:Ef; cbn [snd];
        [discriminate|].
      intros [= ->]. exfalso. revert Ef. unfold finalize.
      repeat match goal with
             | |- context [match ?x with _ => _ end] => destruct x
             end; discriminate.
    + cbn [snd]. intros [= ->].
      assert (H : snd (process_records trie_lookup lookupDecoder
                         (detectFileType file)
                         (N.of_nat (List.length records)) 0 records
                         {| totalRecords := N.of_nat (List.length records);
                            totalFieldsProcessed := 0; fieldsUpdated := 0;
                            fieldsNotFound := 0; fieldsPoorMatch := 0;
                            details := [] |})
                  = Thrown XmlTooLarge) by now rewrite E'.
      apply process_records_thrown in H. discriminate.
  - cbn [snd]. intros [= ->]. revert E. unfold read_and_parse.
    destruct (detectFileType_cases file) as [Ht|Ht]; rewrite Ht.
    + change (jsstring_eqb (js "xml") (js "binary")) with false.
      change (jsstring_eqb (js "xml") (js "xml")) with true. cbv iota.
      destruct (N.ltb_spec 524288000 (size file)); [auto|].
      repeat match goal with
             | |- context [match ?x with _ => _ end] => destruct x
             end; discriminate.
    + change (jsstring_eqb (js "binary") (js "binary")) with true. cbv iota.
      destruct (arrayBuffer file); discriminate.
Qed.

End EdgeFacts.

(** X25.  A binary file of at most 24 bytes, or one that starts with a NUL
    byte, holds no record: the pipeline returns an empty output and a
    report of zeros. *)
Theorem processMARCFile_binary_no_record (U : UnicodeData)
    (MARCXML_parse : jsstring -> option (list MarcRecord))
    (MARCXML_serialize : list MarcRecord -> jsstring)
    (trie_lookup : jsstring -> Z) (lookupDecoder : LookupDecoder.t)
    (file : File) (buf : list byte) :
  detectFileType file = js "binary" ->
  arrayBuffer file = Some buf ->
  (List.length buf <= 24)%nat \/ hd_error buf = Some 0 ->
  exists result,
    snd (processMARCFile MARCXML_parse MARCXML_serialize trie_lookup
                         lookupDecoder file)
    = Returned result
    /\ outputBlob result = BinaryBlob []
    /\ report result = zero_report.
Proof.
  intros Htype Hbuf Hshort. unfold processMARCFile, read_and_parse.
  rewrite Htype, Hbuf.
  change (jsstring_eqb (js "binary") (js "binary")) with true. cbv iota.
  rewrite (parse_no_record buf Hshort). cbn [List.length process_records].
  unfold finalize. rewrite Hbuf.
  change (jsstring_eqb (js "binary") (js "xml")) with false. cbv iota.
  cbn [exportBinary records rebuild_all option_map List.concat snd].
  eexists. split; [reflexivity|]. split; reflexivity.
Qed.

Lemma processMARCFile_binary_no_record_witness :
  exists result,
    snd (@processMARCFile ascii_unicode (fun _ => None) (fun _ => [])
           woolf_trie woolf_table
           {| name := js "empty.mrc"; size := 0;
              arrayBuffer := Some []; text := None |})
    = Returned result
    /\ outputBlob result = BinaryBlob []
    /\ report result = zero_report.
Proof.
  apply (processMARCFile_binary_no_record ascii_unicode _ _ _ _ _ []);
    [reflexivity|reflexivity|left; cbn; lia].
Defined.

(** X26.  A MARCXML document without record elements makes the pipeline
    fail: after the records (none) are processed, [serialize] reads the
    element of the first record, and the pipeline raises a [TypeError]
    instead of returning an output. *)
Theorem processMARCFile_xml_no_record (U : UnicodeData)
    (MARCXML_parse : jsstring -> option (list MarcRecord))
    (MARCXML_serialize : list MarcRecord -> jsstring)
    (trie_lookup : jsstring -> Z) (lookupDecoder : LookupDecoder.t)
    (file : File) (t : jsstring) :
  detectFileType file = js "xml" ->
  size file <= 524288000 ->
  text file = Some t -> t <> [] ->
  MARCXML_parse t = Some [] ->
  snd (processMARCFile MARCXML_parse MARCXML_serialize trie_lookup
                       lookupDecoder file)
  = Thrown TypeError.
Proof.
  intros Htype Hsize Htext Ht Hparse. unfold processMARCFile, read_and_parse.
  rewrite Htype, Htext, Hparse.
  change (jsstring_eqb (js "xml") (js "binary")) with false.
  change (jsstring_eqb (js "xml") (js "xml")) with true. cbv iota.
  destruct (N.ltb_spec 524288000 (size file)); [lia|].
  destruct t; [congruence|]. cbn [nonempty negb].
  cbn [List.length process_records]. unfold finalize.
  change (jsstring_eqb (js "xml") (js "xml")) with true. reflexivity.
Qed.

Lemma processMARCFile_xml_no_record_witness :
  snd (@processMARCFile ascii_unicode (fun _ => Some []) (fun _ => [])
         woolf_trie woolf_table
         {| name := js "empty.xml"; size := 13;
            arrayBuffer := None; text := Some (js "<collection/>") |})
  = Thrown TypeError.
Proof.
  apply (processMARCFile_xml_no_record ascii_unicode _ _ _ _ _
           (js "<collection/>"));
    [reflexivity|vm_compute; discriminate|reflexivity|discriminate|reflexivity].
Defined.

(** X27.  The pipeline fails with the too-large error exactly for a file
    taken for MARCXML whose size exceeds 500 * 1024 * 1024 bytes; it then
    has sent the first progress notification only: the text is not read
    and no parser is built.  A binary file is never refused for its
    size. *)
Theorem processMARCFile_size_limit (U : UnicodeData)
    (MARCXML_parse : jsstring -> option (list MarcRecord))
    (MARCXML_serialize : list MarcRecord -> jsstring)
    (trie_lookup : jsstring -> Z) (lookupDecoder : LookupDecoder.t)
    (file : File) :
  let run := processMARCFile MARCXML_parse MARCXML_serialize trie_lookup
                             lookupDecoder file in
  (snd run = Thrown XmlTooLarge
   <-> detectFileType file = js "xml" /\ 500 * 1024 * 1024 < size file)
  /\ (snd run = Thrown XmlTooLarge ->
      fst run = [Progress (js "reading") (Some 0)]).
Proof.
  cbv zeta.
  assert (Hif : detectFileType file = js "xml" /\ 524288000 < size file ->
                processMARCFile MARCXML_parse MARCXML_serialize trie_lookup
                                lookupDecoder file
                = ([Progress (js "reading") (Some 0)], Thrown XmlTooLarge)).
  { intros [Ht Hs]. unfold processMARCFile, read_and_parse. rewrite Ht.
    change (jsstring_eqb (js "xml") (js "binary")) with false.
    change (jsstring_eqb (js "xml") (js "xml")) with true. cbv iota.
    destruct (N.ltb_spec 524288000 (size file)); [reflexivity|lia]. }
  change (500 * 1024 * 1024) with 524288000.
  split; [split|].
  - apply processMARCFile_XmlTooLarge.
  - intros H. now rewrite (Hif H).
  - intros H. apply processMARCFile_XmlTooLarge in H. now rewrite (Hif H).
Qed.

Lemma ends_with_split (suffix s : jsstring) :
  ends_with suffix s = true ->
  s = firstn (List.length s - List.length suffix) s ++ suffix.
Proof.
  unfold ends_with. rewrite andb_true_iff, jsstring_eqb_eq.
  intros [_ E].
  pose proof (firstn_skipn (List.length s - List.length suffix) s) as H.
  rewrite E in H. now symmetry.
Qed.

Lemma replace_suffix_cases (suffix replacement s : jsstring) :
  (exists stem, s = stem ++ suffix
                /\ replace_suffix suffix replacement s = stem ++ replacement)
  \/ (ends_with suffix s = false
      /\ replace_suffix suffix replacement s = s).
Proof.
  unfold replace_suffix. destruct (ends_with suffix s) eqn:E; [left|now right].
  exists (firstn (List.length s - List.length suffix) s).
  split; [now apply ends_with_split|reflexivity].
Qed.

(** X28.  The name of the output: a name that ends in .xml (for a file
    taken for MARCXML) or in .mrc or .marc (for a binary file), in lower
    case, gets _enhanced.xml or _enhanced.mrc in place of that ending; any
    other name, one with an upper-case or unknown extension included, is
    the name of the output as it is. *)
Theorem processMARCFile_outputFilename (U : UnicodeData)
    (MARCXML_parse : jsstring -> option (list MarcRecord))
    (MARCXML_serialize : list MarcRecord -> jsstring)
    (trie_lookup : jsstring -> Z) (lookupDecoder : LookupDecoder.t)
    (file : File) (events : list Event) (result : Result) :
  processMARCFile MARCXML_parse MARCXML_serialize trie_lookup lookupDecoder
                  file
  = (events, Returned result) ->
  (detectFileType file = js "xml"
   /\ ((exists stem, name file = stem ++ js ".xml"
                     /\ outputFilename result = stem ++ js "_enhanced.xml")
       \/ (ends_with (js ".xml") (name file) = false
           /\ outputFilename result = name file)))
  \/ (detectFileType file = js "binary"
      /\ ((exists stem, name file = stem ++ js ".mrc"
                        /\ outputFilename result = stem ++ js "_enhanced.mrc")
          \/ (exists stem, name file = stem ++ js ".marc"
                           /\ outputFilename result
                              = stem ++ js "_enhanced.mrc")
          \/ (ends_with (js ".mrc") (name file) = false
              /\ ends_with (js ".marc") (name file) = false
              /\ outputFilename result = name file))).
Proof.
  unfold processMARCFile.
  destruct (read_and_parse _ _ _) as [ev [records|]]; [|discriminate].
  destruct (process_records _ _ _ _ _ _ _) as [ev' [[rs r]|]];
    [|discriminate].
  unfold finalize.
  destruct (detectFileType_cases file) as [Ht|Ht]; rewrite Ht.
  - change (jsstring_eqb (js "xml") (js "xml")) with true. cbv iota.
    destruct rs; [discriminate|]. intros [= <- <-]. left.
    split; [reflexivity|]. cbn [outputFilename].
    apply replace_suffix_cases.
  - change (jsstring_eqb (js "binary") (js "xml")) with false. cbv iota.
    destruct (exportBinary _); [|discriminate]. intros [= <- <-]. right.
    split; [reflexivity|]. cbn [outputFilename].
    destruct (replace_suffix_cases (js ".mrc") (js "_enhanced.mrc") (name file))
      as [(stem & Hn & ->)|[Hno ->]].
    + left. exists stem. split; [exact Hn|].
      unfold replace_suffix.
      assert (ends_with (js ".marc") (stem ++ js "_enhanced.mrc") = false)
        as ->; [|reflexivity].
      unfold ends_with. rewrite length_app.
      change (List.length (js "_enhanced.mrc")) with 13%nat.
      change (List.length (js ".marc")) with 5%nat.
      replace (List.length stem + 13 - 5)%nat
        with (List.length (stem ++ js "_enhance"))
        by (rewrite length_app; change (List.length (js "_enhance")) with 8%nat; lia).
      change (js "_enhanced.mrc") with (js "_enhance" ++ js "d.mrc").
      rewrite app_assoc.
      pose proof (skipn_length_app (stem ++ js "_enhance") (js "d.mrc") 0) as Hs.
      rewrite Nat.add_0_r in Hs. cbn [skipn] in Hs. rewrite Hs.
      now rewrite andb_false_r.
    + destruct (replace_suffix_cases (js ".marc") (js "_enhanced.mrc")
                  (name file)) as [(stem & Hn & ->)|[Hno' ->]].
      * right. left. now exists stem.
      * right. right. auto.
Qed.

Lemma processMARCFile_outputFilename_witness :
  exists result,
    snd woolf_run = Returned result
    /\ outputFilename result = js "woolf_enhanced.mrc".
Proof.
  eexists. split; [vm_compute; reflexivity|].
  destruct (processMARCFile_outputFilename ascii_unicode (fun _ => None)
              (fun _ => []) woolf_trie woolf_table woolf_file
              (fst woolf_run) _ ltac:(vm_compute; reflexivity))
    as [_|_]; reflexivity.
Defined.

(** ** The candidate table *)

(** X29.  When the trie knows the key but the candidate table has nothing
    for its id (the id lies outside the table, or the entry is null or the
    number 0), the field is left as it is and reported as not found, with
    the reason that no LCCN data is available. *)
Theorem process_field_no_data (U : UnicodeData)
    (trie_lookup : jsstring -> Z) (lookupDecoder : LookupDecoder.t)
    (fileType : jsstring) (i : N) (f : Field) (report : Report)
    (subfields : object) (trieId : Z) :
  includes nameFieldTags (tag f) = true ->
  field_subfields f = Some subfields ->
  extractNameFromSubfields subfields <> [] ->
  trie_lookup (normalizeString (extractNameFromSubfields subfields)) = trieId ->
  trieId <> (-1)%Z ->
  (trieId < 0)%Z \/ (Z.of_nat (List.length lookupDecoder) <= trieId)%Z
  \/ nth_error lookupDecoder (Z.to_nat trieId) = Some None
  \/ nth_error lookupDecoder (Z.to_nat trieId) = Some (Some (Single 0)) ->
  process_field trie_lookup lookupDecoder fileType i f report
  = Returned
      (f, push_detail (count_notFound (count_processed report))
            (detail_not_found i f (extractNameFromSubfields subfields)
               (js "No LCCN data available for trie match"))).
Proof.
  intros Htag Hsub Hname Hid Hfound Hdata.
  unfold process_field. rewrite Htag, Hsub. cbn [negb].
  destruct (extractNameFromSubfields subfields) as [|c name] eqn:En;
    [congruence|].
  cbn [nonempty negb]. rewrite Hid.
  destruct (Z.eqb_spec trieId (-1)); [congruence|].
  unfold LookupDecoder.get.
  destruct Hdata as [H|[H|[H|H]]].
  - destruct (Z.ltb_spec trieId 0); [reflexivity|lia].
  - destruct (Z.leb_spec (Z.of_nat (List.length lookupDecoder)) trieId);
      [now rewrite orb_true_r|lia].
  - destruct (_ || _); [reflexivity|].
    now rewrite (nth_error_nth _ _ _ H).
  - destruct (_ || _); [reflexivity|].
    now rewrite (nth_error_nth _ _ _ H).
Qed.

Lemma process_field_no_data_witness :
  @process_field ascii_unicode (fun _ => 5%Z) empty_entry_table
    (js "binary") 0 sample_field empty_report
  = Returned
      (sample_field,
       push_detail (count_notFound (count_processed empty_report))
         (detail_not_found 0 sample_field (js "abcdefghijk")
            (js "No LCCN data available for trie match"))).
Proof.
  apply (process_field_no_data ascii_unicode (fun _ => 5%Z) empty_entry_table
           (js "binary") 0 sample_field empty_report
           [(js "a", SStr (js "abcdefghijk"))] 5%Z);
    try reflexivity; try discriminate.
  right. left. vm_compute. discriminate.
Defined.

(** ** The search page: [createLCCNLink] *)

(** X30.  The search page links an identifier to the URI that the pipeline
    writes for it: when [createLCCNUri] gives a URI, the link without label
    is an anchor whose target is that URI and whose text is the prefixed
    identifier; when it gives none, there is no anchor but the note that
    the format is invalid. *)
Theorem createLCCNLink_uri (formatNumber : N -> jsstring) (n : N) :
  match createLCCNUri n with
  | Some uri =>
      exists converted,
        uri = LCCN_URI_BASE ++ converted
        /\ createLCCNLink formatNumber n None
           = js "<a href=" ++ [34] ++ uri ++ [34] ++ js " target="
               ++ [34] ++ js "_blank" ++ [34] ++ js ">"
               ++ converted ++ js "</a>"
  | None =>
      createLCCNLink formatNumber n None
      = js "<span>LCCN: " ++ formatNumber n ++ js " (invalid format)</span>"
  end.
Proof.
  unfold createLCCNUri, createLCCNLink.
  destruct (convertLCCN n) as [[|c conv]|]; cbn [nonempty]; try reflexivity.
  exists (c :: conv). split; reflexivity.
Qed.
